(** * gVisor sentry: task blocking and PID namespaces

    A shallow embedding of [pkg/sentry/kernel/task_block.go] and of the
    PID-namespace part of [pkg/sentry/kernel/threads.go], followed by the
    properties of the specification that were checked against them.

    Conventions.
    - Go integers are [Z] with the wrap-around of their width written out.
    - Go pointers are addresses in [N]; address 0 is Go's nil.
    - Go maps are stdpp [gmap]s; reading an absent key yields the zero value.
    - A call of the block core runs on the task goroutine (the precondition
      stated on every entry point), so [assertTaskGoroutine] is a no-op and
      is not modelled; trace regions only feed the tracer and are left out.
    - Other goroutines (event producers, interrupters, the timer, the clock)
      are an explicit environment: a call receives the list of environment
      events that happen at each point where the task can be preempted. *)

From stdpp Require Import gmap strings list fin_maps.
From Stdlib Require Import ZArith Lia.

Local Open Scope Z_scope.

(** ** Machine integers *)

(** Wrap-around of a signed 64-bit Go integer ([int64], [time.Duration]). *)
Definition wrap64 (z : Z) : Z := (z + 2 ^ 63) mod 2 ^ 64 - 2 ^ 63.

(** Wrap-around of an unsigned 64-bit Go integer ([uint64]). *)
Definition wrapU64 (z : Z) : Z := z mod 2 ^ 64.

Definition int64 (z : Z) : Prop := - 2 ^ 63 <= z < 2 ^ 63.
Definition uint64 (z : Z) : Prop := 0 <= z < 2 ^ 64.

(** [d1 - d2] on [time.Duration]. *)
Definition Duration_sub (d1 d2 : Z) : Z := wrap64 (d1 - d2).

(** ** Channels of [struct{}]

    The values carry no data, so a buffered channel is its fill level and
    its capacity.  [taken] is a history counter: the number of values
    received from the channel so far. *)
Record Chan := mkChan { len : nat; cap : nat; taken : nat }.

(** [select { case c <- struct{}{}: default: }] *)
Definition chan_send (c : Chan) : Chan :=
  if (len c <? cap c)%nat then mkChan (S (len c)) (cap c) (taken c) else c.

(** [select { case <-c: (Some) default: (None) }] *)
Definition chan_recv (c : Chan) : option Chan :=
  match len c with
  | O => None
  | S n => Some (mkChan n (cap c) (S (taken c)))
  end.

(** [select { case <-c: default: }] *)
Definition chan_drain (c : Chan) : Chan := default c (chan_recv c).

Definition chan_wf (c : Chan) : Prop := (len c <= cap c)%nat.

(** ** Errors returned by the block core: Go's [nil] is [None]. *)
Inductive Errno := ETIMEDOUT | ErrInterrupted.
Definition error := option Errno.

Global Instance Errno_eq_dec : EqDecision Errno.
Proof. solve_decision. Defined.

(** [linuxerr.Equals(e, err)] *)
Definition linuxerr_Equals (e : Errno) (err : error) : bool :=
  bool_decide (err = Some e).

(** Modelled from the spec: the enum of goroutine-state classes of section 3
    (running, blocked-interruptible, blocked-uninterruptible, exiting); its
    declaration is not part of the sources at hand. *)
Inductive TaskGoroutineState :=
| TaskGoroutineRunning
| TaskGoroutineBlockedInterruptible
| TaskGoroutineBlockedUninterruptible
| TaskGoroutineExiting.

(** ** Collaborators of the block core

    The platform context, the address space, the scheduling account, the
    watchdog stamp and the arithmetic of [ktime.Time] are implemented
    outside the files at hand.  The block core is modelled over any
    implementation of them. *)
Class Collaborators := {
  PlatformContext : Type;
  p_PrepareSleep : PlatformContext -> PlatformContext;
  p_Interrupt : PlatformContext -> PlatformContext;
  AddressSpace : Type;
  as_Activate : AddressSpace -> AddressSpace;
  as_Deactivate : AddressSpace -> AddressSpace;
  Accounting : Type;
  account_Enter : TaskGoroutineState -> Accounting -> Accounting;
  account_Leave : TaskGoroutineState -> Accounting -> Accounting;
  GostateTime : Type;
  gostate_touch : GostateTime -> GostateTime;
  Time_Add : Z -> Z -> Z;
  Time_Sub : Z -> Z -> Z
}.

(** ** Timers *)

(** [ktime.Setting]: the fields the block core sets. [ktime.Setting{}] is
    [Setting_zero]. *)
Record Setting := mkSetting { Enabled : bool; Next : Z }.
Definition Setting_zero : Setting := mkSetting false 0.

(** A clock is sampled ([ktime.SampledClock]) or not; the number tells
    clocks of one kind apart. *)
Inductive Clock := SampledClock (n : nat) | GenericClock (n : nat).

(** [t.Kernel().MonotonicClock()] *)
Definition MonotonicClock : Clock := SampledClock 0.

Record Timer := mkTimer { tm_clock : Clock; tm_setting : Setting }.

(** Modelled from the spec: the one-shot timer of section 4.1, whose
    implementation (package ktime) is not part of the sources at hand.
    Arming installs a setting; [Set] installs a setting and reports the one
    it replaces; a fire of an armed timer disarms it and delivers one value
    to the single-slot expiry channel, a redundant fire is dropped. *)
Definition Timer_SetClock (c : Clock) (s : Setting) (tm : Timer) : Timer :=
  mkTimer c s.

Definition Timer_Set (s : Setting) (tm : Timer) : Setting * Timer :=
  (tm_setting tm, mkTimer (tm_clock tm) s).

Definition Timer_fire (tm : Timer) (ch : Chan) : Timer * Chan :=
  if Enabled (tm_setting tm)
  then (mkTimer (tm_clock tm) (mkSetting false (Next (tm_setting tm))), chan_send ch)
  else (tm, ch).

Section BlockCore.
Context {K : Collaborators}.

(** ** The task: the fields [task_block.go] reads or writes *)
Record Task := mkTask {
  p : PlatformContext;
  mm : AddressSpace;
  gosched : Accounting;
  gostateTime : GostateTime;
  interruptChan : Chan;
  blockingTimer : Timer;
  blockingTimerChan : Chan
}.

Definition set_p (f : PlatformContext -> PlatformContext) (t : Task) : Task :=
  mkTask (f (p t)) (mm t) (gosched t) (gostateTime t) (interruptChan t)
         (blockingTimer t) (blockingTimerChan t).
Definition set_mm (f : AddressSpace -> AddressSpace) (t : Task) : Task :=
  mkTask (p t) (f (mm t)) (gosched t) (gostateTime t) (interruptChan t)
         (blockingTimer t) (blockingTimerChan t).
Definition set_gosched (f : Accounting -> Accounting) (t : Task) : Task :=
  mkTask (p t) (mm t) (f (gosched t)) (gostateTime t) (interruptChan t)
         (blockingTimer t) (blockingTimerChan t).
Definition set_gostateTime (f : GostateTime -> GostateTime) (t : Task) : Task :=
  mkTask (p t) (mm t) (gosched t) (f (gostateTime t)) (interruptChan t)
         (blockingTimer t) (blockingTimerChan t).
Definition set_interruptChan (f : Chan -> Chan) (t : Task) : Task :=
  mkTask (p t) (mm t) (gosched t) (gostateTime t) (f (interruptChan t))
         (blockingTimer t) (blockingTimerChan t).
Definition set_blockingTimer (f : Timer -> Timer) (t : Task) : Task :=
  mkTask (p t) (mm t) (gosched t) (gostateTime t) (interruptChan t)
         (f (blockingTimer t)) (blockingTimerChan t).
Definition set_blockingTimerChan (f : Chan -> Chan) (t : Task) : Task :=
  mkTask (p t) (mm t) (gosched t) (gostateTime t) (interruptChan t)
         (blockingTimer t) (f (blockingTimerChan t)).

(** [t.Activate()], [t.Deactivate()], [t.accountTaskGoroutineEnter(s)],
    [t.accountTaskGoroutineLeave(s)], [t.touchGostateTime()]: each acts on
    its own part of the task. *)
Definition Activate (t : Task) : Task := set_mm as_Activate t.
Definition Deactivate (t : Task) : Task := set_mm as_Deactivate t.
Definition accountTaskGoroutineEnter (s : TaskGoroutineState) (t : Task) : Task :=
  set_gosched (account_Enter s) t.
Definition accountTaskGoroutineLeave (s : TaskGoroutineState) (t : Task) : Task :=
  set_gosched (account_Leave s) t.
Definition touchGostateTime (t : Task) : Task := set_gostateTime gostate_touch t.

(** ** Interrupts (task_block.go, lines 258-295) *)

Definition interrupted (t : Task) : bool :=
  negb (len (interruptChan t) =? 0)%nat.

Definition unsetInterrupted (t : Task) : Task :=
  set_interruptChan chan_drain t.

Definition interruptSelf (t : Task) : Task :=
  set_interruptChan chan_send t.

Definition interrupt (t : Task) : Task :=
  set_p p_Interrupt (interruptSelf t).

Definition Interrupt (t : Task) : Task := interrupt t.

(** [Interrupted] returns its result and the task it leaves behind. *)
Definition Interrupted (t : Task) : bool * Task :=
  if interrupted t then (true, t)
  else (false, touchGostateTime t).

(** ** Sleep bookkeeping (lines 216-256) *)

Definition prepareSleep (t : Task) : Task :=
  accountTaskGoroutineEnter TaskGoroutineBlockedInterruptible
    (Deactivate (set_p p_PrepareSleep t)).

Definition completeSleep (t : Task) : Task :=
  Activate (accountTaskGoroutineLeave TaskGoroutineBlockedInterruptible t).

Definition UninterruptibleSleepStart (deactivate : bool) (t : Task) : Task :=
  accountTaskGoroutineEnter TaskGoroutineBlockedUninterruptible
    (if deactivate then Deactivate t else t).

Definition UninterruptibleSleepFinish (activate : bool) (t : Task) : Task :=
  let t := accountTaskGoroutineLeave TaskGoroutineBlockedUninterruptible t in
  if activate then Activate t else t.

(** ** The world of one call

    The task, the event channel [C] handed to the call, the reading of the
    application monotonic clock, the timer that [BlockWithDeadlineFrom]
    allocates on a clock that is not sampled (absent outside such a call),
    and the number of [runtime.Gosched] yields performed so far. *)
Record World := mkWorld {
  task : Task;
  C : Chan;
  now : Z;
  clockTimer : option Timer;
  yields : nat
}.

Definition set_task (f : Task -> Task) (w : World) : World :=
  mkWorld (f (task w)) (C w) (now w) (clockTimer w) (yields w).
Definition set_C (f : Chan -> Chan) (w : World) : World :=
  mkWorld (task w) (f (C w)) (now w) (clockTimer w) (yields w).
Definition set_now (z : Z) (w : World) : World :=
  mkWorld (task w) (C w) z (clockTimer w) (yields w).
Definition set_clockTimer (o : option Timer) (w : World) : World :=
  mkWorld (task w) (C w) (now w) o (yields w).
Definition Gosched (w : World) : World :=
  mkWorld (task w) (C w) (now w) (clockTimer w) (S (yields w)).

(** ** The environment

    What the other goroutines can do to the world of a call: a producer
    posts to [C]; some goroutine calls [t.interrupt()]; the task's blocking
    timer or the timer allocated on the caller's clock expires and its
    listener posts to [t.blockingTimerChan]; the clock moves and reads [z]. *)
Inductive EnvEvent :=
| EvNotify
| EvInterrupt
| EvTimerFire
| EvClockTimerFire
| EvClock (z : Z).

Definition env_step (e : EnvEvent) (w : World) : World :=
  match e with
  | EvNotify => set_C chan_send w
  | EvInterrupt => set_task interrupt w
  | EvTimerFire =>
      let '(tm, ch) := Timer_fire (blockingTimer (task w)) (blockingTimerChan (task w)) in
      set_task (fun t => set_blockingTimerChan (fun _ => ch)
                           (set_blockingTimer (fun _ => tm) t)) w
  | EvClockTimerFire =>
      match clockTimer w with
      | None => w
      | Some tm0 =>
          let '(tm, ch) := Timer_fire tm0 (blockingTimerChan (task w)) in
          set_clockTimer (Some tm)
            (set_task (set_blockingTimerChan (fun _ => ch)) w)
      end
  | EvClock z => set_now z w
  end.

Definition env_steps (evs : list EnvEvent) (w : World) : World :=
  fold_left (fun w e => env_step e w) evs w.

(** ** The multi-way wait of [block] (lines 195-213) *)

(** The [timerChan] argument of [block]: callers pass nil or
    [t.blockingTimerChan]. *)
Inductive TimerChan := NilChan | BlockingTimerChan.

Inductive Wake := WokenByEvent | WokenByInterrupt | WokenByTimer.

Global Instance Wake_eq_dec : EqDecision Wake.
Proof. solve_decision. Defined.

(** [len(timerChan)]; the length of a nil channel is 0. *)
Definition timerChan_len (tc : TimerChan) (w : World) : nat :=
  match tc with
  | NilChan => O
  | BlockingTimerChan => len (blockingTimerChan (task w))
  end.

(** The cases of the select that can proceed, in the order of the source.
    A receive from a nil channel never proceeds. *)
Definition ready (tc : TimerChan) (w : World) : list Wake :=
  (if (0 <? len (C w))%nat then [WokenByEvent] else []) ++
  (if (0 <? len (interruptChan (task w)))%nat then [WokenByInterrupt] else []) ++
  (if (0 <? timerChan_len tc w)%nat then [WokenByTimer] else []).

(** The receive of the chosen case. *)
Definition receive (wk : Wake) (w : World) : World :=
  match wk with
  | WokenByEvent => set_C chan_drain w
  | WokenByInterrupt => set_task (set_interruptChan chan_drain) w
  | WokenByTimer => set_task (set_blockingTimerChan chan_drain) w
  end.

(** The runtime's choice among the ready cases [r :: rs]. *)
Definition choose (pick : nat) (r : Wake) (rs : list Wake) : Wake :=
  nth (pick mod length (r :: rs)) (r :: rs) r.

(** Go's select: when some cases can proceed the runtime picks one of them
    pseudo-randomly ([pick] is that choice); when none can, the goroutine
    parks until an event of the environment makes one proceed.  [None]: the
    goroutine is still parked when the listed events are used up. *)
Fixpoint select_wait (pick : nat) (tc : TimerChan) (evs : list EnvEvent)
    (w : World) : option (Wake * World) :=
  match ready tc w with
  | r :: rs =>
      let wk := choose pick r rs in
      Some (wk, receive wk w)
  | [] =>
      match evs with
      | [] => None
      | e :: evs' => select_wait pick tc evs' (env_step e w)
      end
  end.

(** The environment during one call of [block]: the events after the fast
    path failed, after [prepareSleep], after the check of the timer channel
    (the yield, when there is one), while the goroutine is parked, and
    after the wake; and the choice of the runtime among ready cases. *)
Record Sched := mkSched {
  s_enter : list EnvEvent;
  s_pre : list EnvEvent;
  s_yield : list EnvEvent;
  s_parked : list EnvEvent;
  s_pick : nat;
  s_woken : list EnvEvent
}.

(** Lines 179-192 of [block]: from the failed fast path to the entry of
    the select. *)
Definition at_select (s : Sched) (timerChan : TimerChan) (w : World) : World :=
  let w := env_steps (s_enter s) w in
  (* Deactivate our address space, we don't need it. *)
  let w := set_task prepareSleep w in
  let w := env_steps (s_pre s) w in
  let w := if (0 <? timerChan_len timerChan w)%nat then Gosched w else w in
  env_steps (s_yield s) w.

(** ** [block] (lines 166-214) *)
Definition block (s : Sched) (timerChan : TimerChan) (w : World)
    : option (error * World) :=
  (* Fast path if the request is already done. *)
  match chan_recv (C w) with
  | Some c => Some (None, set_C (fun _ => c) w)
  | None =>
      match select_wait (s_pick s) timerChan (s_parked s) (at_select s timerChan w) with
      | None => None
      | Some (wk, w) =>
          let w := env_steps (s_woken s) w in
          let '(err, w) :=
            match wk with
            | WokenByEvent => (None, w)
            | WokenByInterrupt => (Some ErrInterrupted, set_task interruptSelf w)
            | WokenByTimer => (Some ETIMEDOUT, w)
            end in
          (* deferred: t.completeSleep() *)
          Some (err, set_task completeSleep w)
      end
  end.

(** The case that woke a call of [block]: none when the fast path returned
    or when the goroutine stays parked. *)
Definition woken_by (s : Sched) (timerChan : TimerChan) (w : World) : option Wake :=
  match chan_recv (C w) with
  | Some _ => None
  | None =>
      fst <$> select_wait (s_pick s) timerChan (s_parked s) (at_select s timerChan w)
  end.

(** [Block] (lines 149-151) *)
Definition Block (s : Sched) (w : World) : option (error * World) :=
  block s NilChan w.

(** The environment during a call that takes a deadline: the events before
    the timer is armed, between the arming and the entry of [block], during
    [block], between the return of [block] and the disarming, and between
    the disarming and the last reading of the clock. *)
Record Interleaving := mkInterleaving {
  i_before_arm : list EnvEvent;
  i_armed : list EnvEvent;
  i_block : Sched;
  i_before_disarm : list EnvEvent;
  i_before_end : list EnvEvent
}.

(** Lines 136-143: stop the timer; [s] is the setting that the disarming
    [Set] reports; drain the channel when [s.Enabled] is false. *)
Definition disarm_blockingTimer (w : World) : World :=
  let '(s, tm) := Timer_Set Setting_zero (blockingTimer (task w)) in
  let w := set_task (set_blockingTimer (fun _ => tm)) w in
  if negb (Enabled s) then set_task (set_blockingTimerChan chan_drain) w else w.

(** Lines 128-134 of [blockWithDeadlineFromSampledClock]: start the
    timeout timer and block; the world returned is the one in which the
    disarming [Set] of line 138 runs. *)
Definition armed_block (il : Interleaving) (clock : Clock) (deadline : Z)
    (w : World) : option (error * World) :=
  let w := set_task (set_blockingTimer
             (Timer_SetClock clock (mkSetting true deadline))) w in
  let w := env_steps (i_armed il) w in
  match block (i_block il) BlockingTimerChan w with
  | None => None
  | Some (err, w) => Some (err, env_steps (i_before_disarm il) w)
  end.

(** [blockWithDeadlineFromSampledClock] (lines 127-146) *)
Definition blockWithDeadlineFromSampledClock (il : Interleaving) (clock : Clock)
    (deadline : Z) (w : World) : option (error * World) :=
  match armed_block il clock deadline w with
  | None => None
  | Some (err, w) => Some (err, disarm_blockingTimer w)
  end.

(** [BlockWithDeadline] (lines 83-88) *)
Definition BlockWithDeadline (il : Interleaving) (haveDeadline : bool)
    (deadline : Z) (w : World) : option (error * World) :=
  if negb haveDeadline then block (i_block il) NilChan w
  else blockWithDeadlineFromSampledClock il MonotonicClock deadline w.

(** Lines 115-122 for the timer allocated on the caller's clock. *)
Definition disarm_clockTimer (tm0 : Timer) (w : World) : World :=
  let '(s, tm) := Timer_Set Setting_zero tm0 in
  let w := set_clockTimer (Some tm) w in
  if negb (Enabled s) then set_task (set_blockingTimerChan chan_drain) w else w.

(** Lines 105-113 of [BlockWithDeadlineFrom]: [clock.NewTimer] yields a
    disarmed timer on [clock]; arm it and block.  The world returned is the
    one in which the disarming [Set] of line 117 runs. *)
Definition armed_block_on (il : Interleaving) (clock : Clock) (deadline : Z)
    (w : World) : option (error * World) :=
  let timer := mkTimer clock Setting_zero in
  let '(_, timer) := Timer_Set (mkSetting true deadline) timer in
  let w := set_clockTimer (Some timer) w in
  let w := env_steps (i_armed il) w in
  match block (i_block il) BlockingTimerChan w with
  | None => None
  | Some (err, w) => Some (err, env_steps (i_before_disarm il) w)
  end.

(** Lines 115-122, then the deferred [timer.Destroy()]. *)
Definition disarm_and_destroy (w : World) : World :=
  let w := match clockTimer w with
           | Some tm => disarm_clockTimer tm w
           | None => w
           end in
  set_clockTimer None w.

(** [BlockWithDeadlineFrom] (lines 96-125) *)
Definition BlockWithDeadlineFrom (il : Interleaving) (clock : Clock)
    (haveDeadline : bool) (deadline : Z) (w : World) : option (error * World) :=
  if negb haveDeadline then block (i_block il) NilChan w
  else
    match clock with
    | SampledClock _ => blockWithDeadlineFromSampledClock il clock deadline w
    | GenericClock _ =>
        match armed_block_on il clock deadline w with
        | None => None
        | Some (err, w) => Some (err, disarm_and_destroy w)
        end
    end.

(** [BlockWithTimeout] (lines 39-65) *)
Definition BlockWithTimeout (il : Interleaving) (haveTimeout : bool)
    (timeout : Z) (w : World) : option ((Z * error) * World) :=
  if negb haveTimeout then
    match block (i_block il) NilChan w with
    | None => None
    | Some (err, w) => Some ((timeout, err), w)
    end
  else
    let clock := MonotonicClock in
    let start := now w in
    let deadline := Time_Add start timeout in
    let w := env_steps (i_before_arm il) w in
    match blockWithDeadlineFromSampledClock il clock deadline w with
    | None => None
    | Some (err, w) =>
        if linuxerr_Equals ETIMEDOUT err then Some ((0, err), w)
        else
          let w := env_steps (i_before_end il) w in
          let end_ := now w in
          let remainingTimeout := Duration_sub timeout (Time_Sub end_ start) in
          let remainingTimeout :=
            if remainingTimeout <? 0 then 0 else remainingTimeout in
          Some ((remainingTimeout, err), w)
    end.

(** ** The Block family

    The entry points that block on a channel, as one type, so that a
    property of every Block-family call is one statement.  [BlockOn] and
    [BlockWithTimeoutOn] (lines 68-74, 154-160) are [Block] and
    [BlockWithTimeout] on the channel of a fresh waiter entry. *)
Inductive BlockCall :=
| CallBlock
| CallBlockWithDeadline (haveDeadline : bool) (deadline : Z)
| CallBlockWithDeadlineFrom (clock : Clock) (haveDeadline : bool) (deadline : Z)
| CallBlockWithTimeout (haveTimeout : bool) (timeout : Z).

Definition call (il : Interleaving) (c : BlockCall) (w : World)
    : option (error * World) :=
  match c with
  | CallBlock => Block (i_block il) w
  | CallBlockWithDeadline have deadline => BlockWithDeadline il have deadline w
  | CallBlockWithDeadlineFrom clock have deadline =>
      BlockWithDeadlineFrom il clock have deadline w
  | CallBlockWithTimeout have timeout =>
      match BlockWithTimeout il have timeout w with
      | None => None
      | Some ((_, err), w) => Some (err, w)
      end
  end.

(** Whether the call arms a timer, that is, passes [t.blockingTimerChan]
    to [block]. *)
Definition takes_deadline (c : BlockCall) : bool :=
  match c with
  | CallBlock => false
  | CallBlockWithDeadline have _ => have
  | CallBlockWithDeadlineFrom _ have _ => have
  | CallBlockWithTimeout have _ => have
  end.

Definition timerChan_of (c : BlockCall) : TimerChan :=
  if takes_deadline c then BlockingTimerChan else NilChan.

(** The world in which the call enters [block]. *)
Definition block_entry (il : Interleaving) (c : BlockCall) (w : World) : World :=
  if takes_deadline c then
    match c with
    | CallBlockWithDeadline _ deadline =>
        env_steps (i_armed il)
          (set_task (set_blockingTimer
             (Timer_SetClock MonotonicClock (mkSetting true deadline))) w)
    | CallBlockWithDeadlineFrom (SampledClock n) _ deadline =>
        env_steps (i_armed il)
          (set_task (set_blockingTimer
             (Timer_SetClock (SampledClock n) (mkSetting true deadline))) w)
    | CallBlockWithDeadlineFrom (GenericClock n) _ deadline =>
        env_steps (i_armed il)
          (set_clockTimer (Some (mkTimer (GenericClock n) (mkSetting true deadline))) w)
    | CallBlockWithTimeout _ timeout =>
        env_steps (i_armed il)
          (set_task (set_blockingTimer
             (Timer_SetClock MonotonicClock
                (mkSetting true (Time_Add (now w) timeout))))
             (env_steps (i_before_arm il) w))
    | CallBlock => w
    end
  else w.

End BlockCore.

(** ** Reference collaborators

    Modelled from the spec: one implementation of the collaborators, used to
    run the block core on concrete inputs.  The platform context logs the
    requests it receives (section 6); the address space counts its
    activations (section 5: a resource-lifecycle step); the account is the
    stack of the states entered and not yet left (section 4.5: strictly
    balanced, nested entries count); the watchdog stamp counts its touches;
    instants are nanoseconds and [Sub] is the difference of two instants
    (section 4.4, item 7). *)
Inductive PlatformCall := CallPrepareSleep | CallInterrupt.

Definition reference : Collaborators := {|
  PlatformContext := list PlatformCall;
  p_PrepareSleep := cons CallPrepareSleep;
  p_Interrupt := cons CallInterrupt;
  AddressSpace := Z;
  as_Activate := Z.succ;
  as_Deactivate := Z.pred;
  Accounting := list TaskGoroutineState;
  account_Enter := cons;
  account_Leave := fun _ l => tail l;
  GostateTime := nat;
  gostate_touch := S;
  Time_Add := Z.add;
  Time_Sub := Z.sub
|}.

(** A running task of the reference implementation: active address space,
    nothing pending, timer disarmed, single-slot channels. *)
Definition task0 : @Task reference :=
  @mkTask reference [] 1 [] O (mkChan 0 1 0)
    (mkTimer MonotonicClock Setting_zero) (mkChan 0 1 0).

(** A world around [task0]: [C] is a single-slot channel holding [n]
    values, the clock reads [z]. *)
Definition world0 (n : nat) (z : Z) : @World reference :=
  @mkWorld reference task0 (mkChan n 1 0) z None O.

Definition quiet : Sched := mkSched [] [] [] [] 0 [].

(** The same world after [t.interrupt()]. *)
Definition world_interrupted (z : Z) : @World reference :=
  set_task interrupt (world0 0 z).

(** Environments of the runs below.  [il_overflow]: nothing happens but
    the clock reading 1 at the end.  [il_interrupted]: the task is
    interrupted while parked, the clock reads 40 at the end.
    [il_notified]: a producer posts to [C] while the task is parked, the
    clock reads 30 at the end.  [il_fired_late]: the timer expires after
    [block] has returned.  [il_expired]: the timer expires before [block]
    is entered and the runtime picks the second ready case.  [il_race]: a
    producer posts to [C] between the fast path and the select, and the
    runtime picks the first ready case. *)
Definition il_quiet : Interleaving := mkInterleaving [] [] quiet [] [].
Definition il_overflow : Interleaving :=
  mkInterleaving [] [] quiet [] [EvClock 1].
Definition il_interrupted : Interleaving :=
  mkInterleaving [] [] (mkSched [] [] [] [EvInterrupt] 0 []) [] [EvClock 40].
Definition il_notified : Interleaving :=
  mkInterleaving [] [] (mkSched [] [] [] [EvNotify] 0 []) [] [EvClock 30].
Definition il_expired : Interleaving :=
  mkInterleaving [] [EvTimerFire] (mkSched [] [] [] [] 1 []) [] [].
Definition il_race : Interleaving :=
  mkInterleaving [] [] (mkSched [] [EvNotify] [] [] 0 []) [] [].

(** The worlds in which three of these runs end. *)
Definition interrupted_end : @World reference :=
  Eval vm_compute in
    default (world0 0 0)
      (snd <$> @BlockWithTimeout reference il_interrupted true 100 (world0 0 0)).
Definition notified_end : @World reference :=
  Eval vm_compute in
    default (world0 0 0)
      (snd <$> @BlockWithTimeout reference il_notified true 100 (world0 0 0)).

(** * PID namespaces (threads.go) *)

Module threads.

(** Go's nil pointer. *)
Definition nilptr : N := 0%N.

(** [TasksLimit] (line 39) and [initTID] (line 55). *)
Definition TasksLimit : Z := 2 ^ 16.
Definition initTID : Z := 1.

(** Modelled from the spec: the largest thread ID a namespace hands out
    (section 3: at most 2^30 - 1); the allocator is not part of the sources
    at hand. *)
Definition maxTID : Z := 2 ^ 30 - 1.

(** [pidNamespaceData] and its constructor are declared outside the files at
    hand; the namespace is modelled over any implementation of them. *)
Class NamespaceData := {
  pidNamespaceData : Type;
  newPIDNamespaceData : pidNamespaceData
}.

(** Modelled from the spec: the inode that [nsfs.NewInode] makes (package
    nsfs is not part of the sources at hand).  Section 6: the inode is bound
    to its namespace and carries the namespace's type tag. *)
Record Inode := mkInode {
  i_mount : N;
  i_namespace : N;
  i_nstype : string
}.

(** The part of [Kernel] that [InitInode] reads. *)
Record Kernel := mkKernel { nsfsMount : N }.

Section Namespaces.
Context {D : NamespaceData}.

(** [PIDNamespace] (lines 149-214). Thread, session and process-group IDs
    are 32-bit integers; tasks, thread groups, sessions and process groups
    are pointers. *)
Record PIDNamespace := mkPIDNamespace {
  owner : N;
  parent : N;
  userns : N;
  id : Z;
  last : Z;
  tasks : gmap Z N;
  tids : gmap N Z;
  tgids : gmap N Z;
  sessions : gmap Z N;
  sids : gmap N Z;
  processGroups : gmap Z N;
  pgids : gmap N Z;
  exiting : bool;
  extra : pidNamespaceData;
  inode : option Inode
}.

(** [taskSetRWMutex]: the number of readers that hold the lock. *)
Record taskSetRWMutex := mkMutex { readers : nat }.

(** [TaskSet] (lines 60-107): the lock and the root namespace. *)
Record TaskSet := mkTaskSet { mu : taskSetRWMutex; Root : N }.

(** [taskNode] (lines 536-563) and [threadGroupNode] (lines 405-470): the
    pointers that the namespace operations follow. *)
Record taskNode := mkTaskNode { tg : N }.
Record threadGroupNode := mkThreadGroupNode { pidns : N; leader : N }.

(** The heap: the objects of each type by address, and the global counter
    [lastPIDNSID] (line 243). *)
Record Store := mkStore {
  namespaces : gmap N PIDNamespace;
  tasksets : gmap N TaskSet;
  tasknodes : gmap N taskNode;
  tgnodes : gmap N threadGroupNode;
  lastPIDNSID : Z
}.

Definition empty_store : Store := mkStore ∅ ∅ ∅ ∅ 0.

Definition set_namespaces (f : gmap N PIDNamespace -> gmap N PIDNamespace)
    (st : Store) : Store :=
  mkStore (f (namespaces st)) (tasksets st) (tasknodes st) (tgnodes st)
          (lastPIDNSID st).
Definition set_tasksets (f : gmap N TaskSet -> gmap N TaskSet) (st : Store) : Store :=
  mkStore (namespaces st) (f (tasksets st)) (tasknodes st) (tgnodes st)
          (lastPIDNSID st).
Definition set_tasknodes (f : gmap N taskNode -> gmap N taskNode) (st : Store) : Store :=
  mkStore (namespaces st) (tasksets st) (f (tasknodes st)) (tgnodes st)
          (lastPIDNSID st).
Definition set_tgnodes (f : gmap N threadGroupNode -> gmap N threadGroupNode)
    (st : Store) : Store :=
  mkStore (namespaces st) (tasksets st) (tasknodes st) (f (tgnodes st))
          (lastPIDNSID st).
Definition set_lastPIDNSID (z : Z) (st : Store) : Store :=
  mkStore (namespaces st) (tasksets st) (tasknodes st) (tgnodes st) z.

(** A fresh non-nil address for a new object among [m]. *)
Definition alloc {A} (m : gmap N A) : N := fresh ({[nilptr]} ∪ dom m).

(** Operations return [None] when the Go code panics (a nil dereference, an
    unlock of an unlocked mutex). *)

(** [ts.mu.RLock()] and [ts.mu.RUnlock()] *)
Definition RLock (ts : N) (st : Store) : option Store :=
  s ← tasksets st !! ts;
  Some (set_tasksets <[ts := mkTaskSet (mkMutex (S (readers (mu s)))) (Root s)]> st).

Definition RUnlock (ts : N) (st : Store) : option Store :=
  s ← tasksets st !! ts;
  match readers (mu s) with
  | O => None
  | S n => Some (set_tasksets <[ts := mkTaskSet (mkMutex n) (Root s)]> st)
  end.

(** [newPIDNamespace] (lines 216-231): [lastPIDNSID.Add(1)] is an atomic
    add on a [uint64]. Fields that the literal leaves out are zero. *)
Definition newPIDNamespace (ts parent userns : N) (st : Store) : option (N * Store) :=
  let newid := wrapU64 (lastPIDNSID st + 1) in
  let st := set_lastPIDNSID newid st in
  let ns := mkPIDNamespace ts parent userns newid 0 ∅ ∅ ∅ ∅ ∅ ∅ ∅
              false newPIDNamespaceData None in
  let a := alloc (namespaces st) in
  Some (a, set_namespaces <[a := ns]> st).

(** [Type] (lines 270-272) *)
Definition Type_ (ns : PIDNamespace) : string := "pid".

(** Modelled from the spec: [nsfs.NewInode(ctx, mnt, ns)] (section 6). *)
Definition nsfs_NewInode (mnt : N) (a : N) (ns : PIDNamespace) : Inode :=
  mkInode mnt a (Type_ ns).

Definition set_inode (i : option Inode) (ns : PIDNamespace) : PIDNamespace :=
  mkPIDNamespace (owner ns) (parent ns) (userns ns) (id ns) (last ns)
    (tasks ns) (tids ns) (tgids ns) (sessions ns) (sids ns)
    (processGroups ns) (pgids ns) (exiting ns) (extra ns) i.

Definition set_owner (ts : N) (ns : PIDNamespace) : PIDNamespace :=
  mkPIDNamespace ts (parent ns) (userns ns) (id ns) (last ns)
    (tasks ns) (tids ns) (tgids ns) (sessions ns) (sids ns)
    (processGroups ns) (pgids ns) (exiting ns) (extra ns) (inode ns).

(** [InitInode] (lines 234-236) *)
Definition InitInode (a : N) (k : Kernel) (st : Store) : option Store :=
  ns ← namespaces st !! a;
  Some (set_namespaces <[a := set_inode (Some (nsfs_NewInode (nsfsMount k) a ns)) ns]> st).

(** [NewRootPIDNamespace] (lines 247-249) *)
Definition NewRootPIDNamespace (userns : N) (st : Store) : option (N * Store) :=
  newPIDNamespace nilptr nilptr userns st.

(** [newTaskSet] (lines 110-115) *)
Definition newTaskSet (a : N) (st : Store) : option (N * Store) :=
  let ts := alloc (tasksets st) in
  let st := set_tasksets <[ts := mkTaskSet (mkMutex 0) a]> st in
  ns ← namespaces st !! a;
  Some (ts, set_namespaces <[a := set_owner ts ns]> st).

(** [GetInode] (lines 252-254) *)
Definition GetInode (a : N) (st : Store) : option (option Inode * Store) :=
  ns ← namespaces st !! a; Some (inode ns, st).

(** [NewChild] (lines 276-280) *)
Definition NewChild (a : N) (k : Kernel) (userns : N) (st : Store)
    : option (N * Store) :=
  ns ← namespaces st !! a;
  '(pidns, st) ← newPIDNamespace (owner ns) a userns st;
  st ← InitInode pidns k st;
  Some (pidns, st).

(** [TaskWithID] (lines 284-289) *)
Definition TaskWithID (a : N) (tid : Z) (st : Store) : option (N * Store) :=
  ns ← namespaces st !! a;
  st ← RLock (owner ns) st;
  ns ← namespaces st !! a;
  let t := default nilptr (tasks ns !! tid) in
  st ← RUnlock (owner ns) st;
  Some (t, st).

(** [ID] (lines 292-294) *)
Definition ID (a : N) (st : Store) : option (Z * Store) :=
  ns ← namespaces st !! a; Some (id ns, st).

(** [ThreadGroupWithID] (lines 299-310); the deferred unlock runs on each
    return. *)
Definition ThreadGroupWithID (a : N) (tid : Z) (st : Store) : option (N * Store) :=
  ns ← namespaces st !! a;
  st ← RLock (owner ns) st;
  ns ← namespaces st !! a;
  let t := default nilptr (tasks ns !! tid) in
  if bool_decide (t = nilptr) then
    st ← RUnlock (owner ns) st; Some (nilptr, st)
  else
    tn ← tasknodes st !! t;
    g ← tgnodes st !! tg tn;
    if bool_decide (t ≠ leader g) then
      st ← RUnlock (owner ns) st; Some (nilptr, st)
    else
      st ← RUnlock (owner ns) st; Some (tg tn, st).

(** [IDOfTask] (lines 318-323) *)
Definition IDOfTask (a : N) (t : N) (st : Store) : option (Z * Store) :=
  ns ← namespaces st !! a;
  st ← RLock (owner ns) st;
  ns ← namespaces st !! a;
  let i := default 0 (tids ns !! t) in
  st ← RUnlock (owner ns) st;
  Some (i, st).

(** [IDOfThreadGroup] (lines 327-332) *)
Definition IDOfThreadGroup (a : N) (g : N) (st : Store) : option (Z * Store) :=
  ns ← namespaces st !! a;
  st ← RLock (owner ns) st;
  ns ← namespaces st !! a;
  let i := default 0 (tgids ns !! g) in
  st ← RUnlock (owner ns) st;
  Some (i, st).

(** [TasksAppend] (lines 340-347) and [Tasks] (lines 335-337): Go leaves
    the order of a map iteration open; the model uses the order of
    [map_to_list]. *)
Definition TasksAppend (a : N) (ts : list N) (st : Store) : option (list N * Store) :=
  ns ← namespaces st !! a;
  st ← RLock (owner ns) st;
  ns ← namespaces st !! a;
  let ts := ts ++ (map_to_list (tids ns)).*1 in
  st ← RUnlock (owner ns) st;
  Some (ts, st).

Definition Tasks (a : N) (st : Store) : option (list N * Store) :=
  TasksAppend a [] st.

(** [NumTasks] (lines 350-354) *)
Definition NumTasks (a : N) (st : Store) : option (nat * Store) :=
  ns ← namespaces st !! a;
  st ← RLock (owner ns) st;
  ns ← namespaces st !! a;
  let n := size (tids ns) in
  st ← RUnlock (owner ns) st;
  Some (n, st).

(** [ThreadGroupsAppend] (lines 376-383) and [ThreadGroups] (371-373) *)
Definition ThreadGroupsAppend (a : N) (tgs : list N) (st : Store)
    : option (list N * Store) :=
  ns ← namespaces st !! a;
  st ← RLock (owner ns) st;
  ns ← namespaces st !! a;
  let tgs := tgs ++ (map_to_list (tgids ns)).*1 in
  st ← RUnlock (owner ns) st;
  Some (tgs, st).

Definition ThreadGroups (a : N) (st : Store) : option (list N * Store) :=
  ThreadGroupsAppend a [] st.

(** [UserNamespace] (lines 386-388) and [Root] (lines 391-393) *)
Definition UserNamespace (a : N) (st : Store) : option (N * Store) :=
  ns ← namespaces st !! a; Some (userns ns, st).

Definition Root_ (a : N) (st : Store) : option (N * Store) :=
  ns ← namespaces st !! a;
  ts ← tasksets st !! owner ns;
  Some (Root ts, st).

(** ** Task admission and reaping

    The functions that add tasks to a namespace and remove them live in
    files that are not at hand; the following four follow the spec. *)

Definition set_maps (l : Z) (ta : gmap Z N) (ti tgi : gmap N Z)
    (ns : PIDNamespace) : PIDNamespace :=
  mkPIDNamespace (owner ns) (parent ns) (userns ns) (id ns) l ta ti tgi
    (sessions ns) (sids ns) (processGroups ns) (pgids ns) (exiting ns)
    (extra ns) (inode ns).

(** Modelled from the spec: a thread group is created with its leader, in a
    namespace, and keeps that leader (section 3, lifecycles; section 4.7). *)
Definition newThreadGroup (a : N) (st : Store) : option ((N * N) * Store) :=
  let g := alloc (tgnodes st) in
  let t := alloc (tasknodes st) in
  Some ((g, t), set_tgnodes <[g := mkThreadGroupNode a t]>
                  (set_tasknodes <[t := mkTaskNode g]> st)).

(** Modelled from the spec: a further task of an existing thread group
    (section 3: the owning thread group is immutable after attach). *)
Definition newThread (g : N) (st : Store) : option (N * Store) :=
  _ ← tgnodes st !! g;
  let t := alloc (tasknodes st) in
  Some (t, set_tasknodes <[t := mkTaskNode g]> st).

(** Modelled from the spec: the admission of task [t] to namespace [a]
    (section 3, lifecycles; section 6, limits; open questions).  The task
    gets the fresh thread ID [last + 1]; its thread group is entered under
    the same ID when [t] leads it (invariant 2).  [None]: the admission is
    refused (the task is already visible, the namespace is full, or thread
    IDs are exhausted). *)
Definition assignTID (a t : N) (st : Store) : option (Z * Store) :=
  ns ← namespaces st !! a;
  tn ← tasknodes st !! t;
  g ← tgnodes st !! tg tn;
  if bool_decide (is_Some (tids ns !! t)) then None
  else if bool_decide (TasksLimit <= Z.of_nat (size (tids ns))) then None
  else
    let tid := last ns + 1 in
    if bool_decide (maxTID < tid) then None
    else
      let tgi := if bool_decide (leader g = t)
                 then <[tg tn := tid]> (tgids ns) else tgids ns in
      Some (tid, set_namespaces
                   <[a := set_maps tid (<[tid := t]> (tasks ns))
                            (<[t := tid]> (tids ns)) tgi ns]> st).

(** Modelled from the spec: the reaping of task [t] from namespace [a]
    (section 3, lifecycles; section 8, scenario 7).  [None]: [t] is not
    visible in [a]. *)
Definition reap (a t : N) (st : Store) : option Store :=
  ns ← namespaces st !! a;
  tid ← tids ns !! t;
  tn ← tasknodes st !! t;
  g ← tgnodes st !! tg tn;
  let tgi := if bool_decide (leader g = t)
             then delete (tg tn) (tgids ns) else tgids ns in
  Some (set_namespaces
          <[a := set_maps (last ns) (delete tid (tasks ns))
                   (delete t (tids ns)) tgi ns]> st).

(** ** Histories

    The operations on namespaces, as data; a store is reachable when a
    sequence of operations that all succeed builds it from the empty one. *)
Inductive Op :=
| OpNewRootPIDNamespace (userns : N)
| OpNewTaskSet (a : N)
| OpInitInode (a : N) (k : Kernel)
| OpGetInode (a : N)
| OpNewChild (a : N) (k : Kernel) (userns : N)
| OpTaskWithID (a : N) (tid : Z)
| OpID (a : N)
| OpThreadGroupWithID (a : N) (tid : Z)
| OpIDOfTask (a t : N)
| OpIDOfThreadGroup (a g : N)
| OpTasksAppend (a : N) (ts : list N)
| OpNumTasks (a : N)
| OpThreadGroupsAppend (a : N) (tgs : list N)
| OpUserNamespace (a : N)
| OpRoot (a : N)
| OpNewThreadGroup (a : N)
| OpNewThread (g : N)
| OpAssignTID (a t : N)
| OpReap (a t : N).

Definition run (o : Op) (st : Store) : option Store :=
  match o with
  | OpNewRootPIDNamespace userns => snd <$> NewRootPIDNamespace userns st
  | OpNewTaskSet a => snd <$> newTaskSet a st
  | OpInitInode a k => InitInode a k st
  | OpGetInode a => snd <$> GetInode a st
  | OpNewChild a k userns => snd <$> NewChild a k userns st
  | OpTaskWithID a tid => snd <$> TaskWithID a tid st
  | OpID a => snd <$> ID a st
  | OpThreadGroupWithID a tid => snd <$> ThreadGroupWithID a tid st
  | OpIDOfTask a t => snd <$> IDOfTask a t st
  | OpIDOfThreadGroup a g => snd <$> IDOfThreadGroup a g st
  | OpTasksAppend a ts => snd <$> TasksAppend a ts st
  | OpNumTasks a => snd <$> NumTasks a st
  | OpThreadGroupsAppend a tgs => snd <$> ThreadGroupsAppend a tgs st
  | OpUserNamespace a => snd <$> UserNamespace a st
  | OpRoot a => snd <$> Root_ a st
  | OpNewThreadGroup a => snd <$> newThreadGroup a st
  | OpNewThread g => snd <$> newThread g st
  | OpAssignTID a t => snd <$> assignTID a t st
  | OpReap a t => reap a t st
  end.

Fixpoint run_all (ops : list Op) (st : Store) : option Store :=
  match ops with
  | [] => Some st
  | o :: ops => st ← run o st; run_all ops st
  end.

Definition reachable (st : Store) : Prop :=
  ∃ ops, run_all ops empty_store = Some st.

(** Go's reading of a map of IDs: an absent key reads as 0. *)
Definition read (m : gmap N Z) (k : N) : Z := default 0 (m !! k).

(** ** Invariants

    The predicates that the properties below are stated with. *)

(** The operations that only read: when they return, the store is as it
    was. *)
Definition reads_only (o : Op) : bool :=
  match o with
  | OpGetInode _ | OpTaskWithID _ _ | OpID _ | OpThreadGroupWithID _ _
  | OpIDOfTask _ _ | OpIDOfThreadGroup _ _ | OpTasksAppend _ _
  | OpNumTasks _ | OpThreadGroupsAppend _ _ | OpUserNamespace _
  | OpRoot _ => true
  | _ => false
  end.

(** [tasks] and [tids] are inverse to each other; thread IDs in use lie
    between 1 and [last], and no task in use is nil; a thread group in
    [tgids] has the thread ID of its leader. *)
Record ns_inv (st : Store) (ns : PIDNamespace) : Prop := mkNsInv {
  inv_bij : forall tid t, tasks ns !! tid = Some t <-> tids ns !! t = Some tid;
  inv_range : forall tid t,
    tasks ns !! tid = Some t -> 1 <= tid <= last ns /\ t <> nilptr;
  inv_last : 0 <= last ns;
  inv_tgids : forall g tid, tgids ns !! g = Some tid ->
    exists gn, tgnodes st !! g = Some gn /\ tids ns !! leader gn = Some tid
}.

(** Every namespace of the store has its invariant; the leader of a thread
    group is a task of that group; no object lives at nil. *)
Record store_inv (st : Store) : Prop := mkStoreInv {
  si_ns : forall a ns, namespaces st !! a = Some ns -> ns_inv st ns;
  si_leader : forall g gn, tgnodes st !! g = Some gn ->
    exists tn, tasknodes st !! leader gn = Some tn /\ tg tn = g;
  si_nonnil : forall t tn, tasknodes st !! t = Some tn -> t <> nilptr
}.

(** What the spec states of a namespace, in the terms of the Go code: the
    ID that [tids] reads for a task is not 0 exactly when the task is a
    value of [tasks]; [tasks] and [tids] are inverse to each other; a
    thread group in [tgids] reads the ID that [tids] reads for its leader. *)
Definition bimap (st : Store) (ns : PIDNamespace) : Prop :=
  (forall t, read (tids ns) t <> 0 <-> exists tid, tasks ns !! tid = Some t) /\
  (forall tid t, tasks ns !! tid = Some t <-> tids ns !! t = Some tid) /\
  (forall g, is_Some (tgids ns !! g) ->
     exists gn, tgnodes st !! g = Some gn /\
                read (tgids ns) g = read (tids ns) (leader gn)).

(** After at most [n] operations the counter has not wrapped: it is at most
    [n], and the IDs handed out lie between 1 and the counter. *)
Definition ids_inv (n : Z) (st : Store) : Prop :=
  0 <= lastPIDNSID st <= n /\
  forall b nb, namespaces st !! b = Some nb -> 1 <= id nb <= lastPIDNSID st.

(** ** Further operations of threads.go *)

(** [NumTasksPerContainer] (lines 357-368). [t.ContainerID()] is declared
    outside the files at hand and is passed as a function. *)
Definition NumTasksPerContainer (ContainerID : N -> string) (a : N)
    (cid : string) (st : Store) : option (nat * Store) :=
  ns ← namespaces st !! a;
  st ← RLock (owner ns) st;
  ns ← namespaces st !! a;
  let tasks :=
    foldl (fun tasks t => if bool_decide (ContainerID t = cid) then S tasks else tasks)
          O (map_to_list (tids ns)).*1 in
  st ← RUnlock (owner ns) st;
  Some (tasks, st).

(** The loop of [forEachThreadGroupLocked] (lines 127-131) over the thread
    groups [gs]: [f(tg, tg.leader)]. The callback acts on a state of its
    own. *)
Fixpoint forEachThreadGroup_loop {A} (f : N -> N -> A -> A) (st : Store)
    (gs : list N) (x : A) : option A :=
  match gs with
  | [] => Some x
  | g :: gs =>
      gn ← tgnodes st !! g;
      forEachThreadGroup_loop f st gs (f g (leader gn) x)
  end.

(** [forEachThreadGroupLocked] (lines 127-131) *)
Definition forEachThreadGroupLocked {A} (f : N -> N -> A -> A) (ts : N) (x : A)
    (st : Store) : option A :=
  s ← tasksets st !! ts;
  root ← namespaces st !! Root s;
  forEachThreadGroup_loop f st (map_to_list (tgids root)).*1 x.

(** [ForEachThreadGroup] (lines 118-122) *)
Definition ForEachThreadGroup {A} (f : N -> N -> A -> A) (ts : N) (x : A)
    (st : Store) : option (A * Store) :=
  st ← RLock ts st;
  x ← forEachThreadGroupLocked f ts x st;
  st ← RUnlock ts st;
  Some (x, st).

(** [forEachTaskLocked] (lines 136-140) *)
Definition forEachTaskLocked {A} (f : N -> A -> A) (ts : N) (x : A)
    (st : Store) : option A :=
  s ← tasksets st !! ts;
  root ← namespaces st !! Root s;
  Some (foldl (fun x t => f t x) x (map_to_list (tids root)).*1).

(** The methods of a thread group that walk [tg.tasks] (lines 490-524).
    The intrusive list is given as the list [members] of its tasks, front
    first; the lock is the one of the owner of [tg.pidns]. *)

(** [Count] (lines 490-498) *)
Definition Count (g : N) (members : list N) (st : Store) : option (nat * Store) :=
  gn ← tgnodes st !! g;
  ns ← namespaces st !! pidns gn;
  st ← RLock (owner ns) st;
  let count := foldl (fun count _ => S count) O members in
  st ← RUnlock (owner ns) st;
  Some (count, st).

(** [MemberIDs] (lines 502-513): [if id, ok := pidns.tids[t]; ok]. *)
Definition MemberIDs (g : N) (members : list N) (a : N) (st : Store)
    : option (list Z * Store) :=
  gn ← tgnodes st !! g;
  ns ← namespaces st !! pidns gn;
  st ← RLock (owner ns) st;
  target ← namespaces st !! a;
  let tasks :=
    foldl (fun tasks t =>
             match tids target !! t with
             | Some i => tasks ++ [i]
             | None => tasks
             end) [] members in
  st ← RUnlock (owner ns) st;
  Some (tasks, st).

(** The loop of [ForEachTask] (lines 519-523): [if !f(t) { break }]. *)
Fixpoint ForEachTask_loop {A} (f : N -> A -> bool * A) (members : list N)
    (x : A) : A :=
  match members with
  | [] => x
  | t :: members =>
      let '(b, x) := f t x in
      if b then ForEachTask_loop f members x else x
  end.

(** [ForEachTask] (lines 516-524) *)
Definition ForEachTask {A} (f : N -> A -> bool * A) (g : N) (members : list N)
    (x : A) (st : Store) : option (A * Store) :=
  gn ← tgnodes st !! g;
  ns ← namespaces st !! pidns gn;
  st ← RLock (owner ns) st;
  let x := ForEachTask_loop f members x in
  st ← RUnlock (owner ns) st;
  Some (x, st).

End Namespaces.

(** The per-namespace data of the reference implementation is empty. *)
Definition no_data : NamespaceData :=
  {| pidNamespaceData := unit; newPIDNamespaceData := tt |}.

(** A history: a root namespace (at address 1) with its task set, a child
    namespace (at address 2), a thread group in the child with its leader
    (task 1) and a second task (task 2); task 1 is admitted to the child
    and to the root, task 2 to the child. *)
Definition history1 : list Op :=
  [OpNewRootPIDNamespace 7; OpNewTaskSet 1; OpNewChild 1 (mkKernel 9) 8;
   OpNewThreadGroup 2; OpNewThread 1; OpAssignTID 2 1; OpAssignTID 1 1;
   OpAssignTID 2 2].

Definition store1 : @Store no_data :=
  Eval vm_compute in default empty_store (@run_all no_data history1 empty_store).

Definition child1 : @PIDNamespace no_data :=
  Eval vm_compute in
    default (@mkPIDNamespace no_data 0 0 0 0 0 ∅ ∅ ∅ ∅ ∅ ∅ ∅ false tt None)
      (namespaces store1 !! 2%N).

Definition taskset1 : TaskSet :=
  Eval vm_compute in
    default (mkTaskSet (mkMutex 0) 0) (tasksets store1 !! 1%N).

End threads.

(** * Host file descriptors of a gofer dentry (dentry_impl.go) *)

Module gofer.

(** The implementation of a dentry: [d.impl] is a [*lisafsDentry], a
    [*directfsDentry], of which [controlFD] is the field that
    [closeHostFDs] uses, or nil for a synthetic dentry. *)
Inductive dentryImpl :=
| lisafsDentry
| directfsDentry (controlFD : Z)
| synthetic.

(** The fields of [dentry] that [closeHostFDs] uses. *)
Record dentry := mkDentry {
  readFD : Z;
  writeFD : Z;
  mmapFD : Z;
  impl : dentryImpl
}.

(** [closeHostFDs] (lines 157-176). The second component is the host: the
    file descriptors handed to [unix.Close] so far, last first; the result
    of [unix.Close] is dropped by the code. *)
Definition closeHostFDs (d : dentry) (closed : list Z) : dentry * list Z :=
  let closed := if bool_decide (readFD d >= 0) then readFD d :: closed else closed in
  let closed :=
    if bool_decide (writeFD d >= 0) && bool_decide (readFD d <> writeFD d)
    then writeFD d :: closed else closed in
  let d := mkDentry (-1) (-1) (-1) (impl d) in
  match impl d with
  | directfsDentry controlFD =>
      if bool_decide (controlFD >= 0)
      then (mkDentry (readFD d) (writeFD d) (mmapFD d) (directfsDentry (-1)),
            controlFD :: closed)
      else (d, closed)
  | _ => (d, closed)
  end.

End gofer.

(** [call], seen from [block]: what a Block-family call does to the world
    after [block] has returned [err]. *)
Definition call_exit {K : Collaborators} (il : Interleaving) (c : BlockCall)
    (err : error) (w : World) : World :=
  if takes_deadline c then
    match c with
    | CallBlockWithDeadline _ _
    | CallBlockWithDeadlineFrom (SampledClock _) _ _ =>
        disarm_blockingTimer (env_steps (i_before_disarm il) w)
    | CallBlockWithDeadlineFrom (GenericClock _) _ _ =>
        disarm_and_destroy (env_steps (i_before_disarm il) w)
    | CallBlockWithTimeout _ _ =>
        let w := disarm_blockingTimer (env_steps (i_before_disarm il) w) in
        if linuxerr_Equals ETIMEDOUT err then w
        else env_steps (i_before_end il) w
    | CallBlock => w
    end
  else w.

(** ** Relations between worlds

    What the environment leaves alone: the other goroutines never receive
    from the channels of the call and never touch the address space, the
    account, the watchdog stamp or the count of yields; they only add to
    [C] and to the interrupt channel.  [chan_rel] is the part about the
    channels, [frame_rel] the rest. *)
Section BlockRelations.
Context {K : Collaborators}.

Record chan_rel (w w' : World) : Prop := mkChanRel {
  cr_C_taken : taken (C w') = taken (C w);
  cr_C_len : (len (C w) <= len (C w'))%nat;
  cr_C_cap : cap (C w') = cap (C w);
  cr_int_taken : taken (interruptChan (task w')) = taken (interruptChan (task w));
  cr_int_len : (len (interruptChan (task w)) <= len (interruptChan (task w')))%nat;
  cr_int_cap : cap (interruptChan (task w')) = cap (interruptChan (task w));
  cr_int_wf : chan_wf (interruptChan (task w)) -> chan_wf (interruptChan (task w'))
}.

Record frame_rel (w w' : World) : Prop := mkFrameRel {
  fr_mm : mm (task w') = mm (task w);
  fr_gosched : gosched (task w') = gosched (task w);
  fr_gostate : gostateTime (task w') = gostateTime (task w);
  fr_yields : yields w' = yields w
}.

(** What a returning [block] did to [C] and to the interrupt channel. *)
Record block_post (w : World) (err : error) (w' : World) : Prop := mkBlockPost {
  bp_C_taken :
    taken (C w') = match err with None => S (taken (C w)) | _ => taken (C w) end;
  bp_int_cap : cap (interruptChan (task w')) = cap (interruptChan (task w));
  bp_int_wf : chan_wf (interruptChan (task w)) -> chan_wf (interruptChan (task w'));
  bp_int_taken :
    taken (interruptChan (task w')) =
    match err with
    | Some ErrInterrupted => S (taken (interruptChan (task w)))
    | _ => taken (interruptChan (task w))
    end;
  bp_int_pending :
    chan_wf (interruptChan (task w)) ->
    (0 < len (interruptChan (task w)))%nat \/ err = Some ErrInterrupted ->
    (0 < len (interruptChan (task w')))%nat
}.

End BlockRelations.

(** ** Blocking on a waitable (task_block.go, lines 68-74 and 154-160)

    Package waiter is not part of the sources at hand: the state of the
    waitable object, what registering and unregistering the entry of the
    call do to it, and the capacity of the channel of an entry are
    parameters.  The channel of the entry is the [C] of the world; the
    notifications of the waitable are the [EvNotify] of the environment,
    and [reg] are the events between the registration and the call of
    [Block]. *)
Section Waiters.
Context {K : Collaborators}.
Context {Waitable : Type}.
Variables EventRegister EventUnregister : Waitable -> Waitable.
Variable entryCap : nat.

(** The channel of [waiter.NewChannelEntry]. *)
Definition NewChannelEntry : Chan := mkChan 0 entryCap 0.

(** [BlockOn] (lines 154-160); the unregistration is deferred. *)
Definition BlockOn (reg : list EnvEvent) (s : Sched) (q : Waitable) (w : World)
    : option (bool * Waitable * World) :=
  let ch := NewChannelEntry in
  let q := EventRegister q in
  let w := env_steps reg (set_C (fun _ => ch) w) in
  match Block s w with
  | None => None
  | Some (err, w) => Some (bool_decide (err = None), EventUnregister q, w)
  end.

(** [BlockWithTimeoutOn] (lines 68-74) *)
Definition BlockWithTimeoutOn (reg : list EnvEvent) (il : Interleaving)
    (timeout : Z) (q : Waitable) (w : World)
    : option ((Z * bool) * Waitable * World) :=
  let ch := NewChannelEntry in
  let q := EventRegister q in
  let w := env_steps reg (set_C (fun _ => ch) w) in
  match BlockWithTimeout il true timeout w with
  | None => None
  | Some ((left_, err), w) =>
      Some ((left_, bool_decide (err = None)), EventUnregister q, w)
  end.

End Waiters.

(** * Properties of the block core *)

Section BlockProofs.
Context {K : Collaborators}.

(** ** Channels *)

Lemma chan_recv_Some c :
  (0 < len c)%nat ->
  chan_recv c = Some (mkChan (pred (len c)) (cap c) (S (taken c))).
Proof. unfold chan_recv. destruct (len c); [lia | reflexivity]. Qed.

Lemma chan_recv_None c : len c = O <-> chan_recv c = None.
Proof. unfold chan_recv. destruct (len c); split; congruence. Qed.

Lemma chan_drain_taken c :
  taken (chan_drain c) = if (0 <? len c)%nat then S (taken c) else taken c.
Proof. unfold chan_drain, chan_recv. destruct (len c); reflexivity. Qed.

Lemma chan_send_taken c : taken (chan_send c) = taken c.
Proof. unfold chan_send. destruct (_ <? _)%nat; reflexivity. Qed.

Lemma chan_send_cap c : cap (chan_send c) = cap c.
Proof. unfold chan_send. destruct (_ <? _)%nat; reflexivity. Qed.

Lemma chan_send_len c : (len c <= len (chan_send c))%nat.
Proof. unfold chan_send. destruct (_ <? _)%nat; simpl; lia. Qed.

Lemma chan_send_wf c : chan_wf c -> chan_wf (chan_send c).
Proof.
  unfold chan_wf, chan_send. intros H.
  destruct (len c <? cap c)%nat eqn:E; simpl; [apply Nat.ltb_lt in E|]; lia.
Qed.

Lemma chan_send_after_recv c c' :
  chan_wf c -> chan_recv c = Some c' -> (0 < len (chan_send c'))%nat.
Proof.
  unfold chan_wf, chan_recv, chan_send. intros Hwf.
  destruct (len c) as [|n] eqn:E; [discriminate|].
  intros [= <-]. simpl.
  destruct (n <? cap c)%nat eqn:E'; simpl; [lia|].
  apply Nat.ltb_ge in E'. lia.
Qed.

Lemma chan_drain_len c : len (chan_drain c) = pred (len c).
Proof. unfold chan_drain, chan_recv. destruct (len c) eqn:E; simpl; auto. Qed.

Lemma chan_drain_cap c : cap (chan_drain c) = cap c.
Proof. unfold chan_drain, chan_recv. destruct (len c); reflexivity. Qed.

Lemma chan_drain_wf c : chan_wf c -> chan_wf (chan_drain c).
Proof. unfold chan_wf. rewrite chan_drain_len, chan_drain_cap. lia. Qed.

(** Receiving from a channel and posting to it again leaves it pending,
    whatever was posted to it in between. *)
Lemma repost_pending c c1 :
  (0 < len c)%nat -> chan_wf c ->
  (len (chan_drain c) <= len c1)%nat -> cap c1 = cap (chan_drain c) ->
  (0 < len (chan_send c1))%nat.
Proof.
  rewrite chan_drain_len, chan_drain_cap. unfold chan_wf, chan_send.
  intros Hpos Hwf Hle Hcap.
  destruct (Nat.ltb_spec (len c1) (cap c1)); simpl; lia.
Qed.

(** ** What the environment leaves alone *)

Lemma chan_rel_refl w : chan_rel w w.
Proof. constructor; auto. Qed.

Lemma chan_rel_trans w1 w2 w3 : chan_rel w1 w2 -> chan_rel w2 w3 -> chan_rel w1 w3.
Proof. intros [] []. constructor; try congruence; try lia; auto. Qed.

Lemma frame_rel_refl w : frame_rel w w.
Proof. constructor; auto. Qed.

Lemma frame_rel_trans w1 w2 w3 : frame_rel w1 w2 -> frame_rel w2 w3 -> frame_rel w1 w3.
Proof. intros [] []. constructor; congruence. Qed.

Lemma env_step_chan e w : chan_rel w (env_step e w).
Proof.
  destruct e; simpl.
  - constructor; simpl; auto using chan_send_taken, chan_send_len, chan_send_cap.
  - constructor; simpl;
      auto using chan_send_taken, chan_send_len, chan_send_cap, chan_send_wf.
  - unfold Timer_fire. destruct (Enabled _); constructor; simpl; auto.
  - destruct (clockTimer w) as [tm|]; [|apply chan_rel_refl].
    unfold Timer_fire. destruct (Enabled _); constructor; simpl; auto.
  - constructor; simpl; auto.
Qed.

Lemma env_step_frame e w : frame_rel w (env_step e w).
Proof.
  destruct e; simpl; try (constructor; reflexivity).
  - unfold Timer_fire. destruct (Enabled _); constructor; reflexivity.
  - destruct (clockTimer w) as [tm|]; [|apply frame_rel_refl].
    unfold Timer_fire. destruct (Enabled _); constructor; reflexivity.
Qed.

Lemma env_steps_chan evs w : chan_rel w (env_steps evs w).
Proof.
  revert w. induction evs as [|e evs IH]; intros w; simpl.
  - apply chan_rel_refl.
  - eapply chan_rel_trans; [apply env_step_chan | apply IH].
Qed.

Lemma env_steps_frame evs w : frame_rel w (env_steps evs w).
Proof.
  revert w. induction evs as [|e evs IH]; intros w; simpl.
  - apply frame_rel_refl.
  - eapply frame_rel_trans; [apply env_step_frame | apply IH].
Qed.

(** Steps of the task that leave the channels of the call alone. *)
Lemma at_select_chan s tc w : chan_rel w (at_select s tc w).
Proof.
  unfold at_select.
  eapply chan_rel_trans; [apply env_steps_chan|].
  eapply chan_rel_trans; [|apply env_steps_chan].
  match goal with |- chan_rel ?a (if ?b then Gosched ?x else ?x) =>
    assert (chan_rel a x) as H; [|destruct b; [|exact H];
      destruct H; constructor; simpl; auto] end.
  eapply chan_rel_trans; [|apply env_steps_chan].
  constructor; simpl; auto.
Qed.

Lemma disarm_blockingTimer_chan w : chan_rel w (disarm_blockingTimer w).
Proof.
  unfold disarm_blockingTimer, Timer_Set.
  destruct (negb _); constructor; simpl; auto.
Qed.

Lemma disarm_blockingTimer_frame w : frame_rel w (disarm_blockingTimer w).
Proof.
  unfold disarm_blockingTimer, Timer_Set.
  destruct (negb _); constructor; reflexivity.
Qed.

Lemma disarm_and_destroy_chan w : chan_rel w (disarm_and_destroy w).
Proof.
  unfold disarm_and_destroy, disarm_clockTimer, Timer_Set.
  destruct (clockTimer w); [destruct (negb _)|]; constructor; simpl; auto.
Qed.

Lemma disarm_and_destroy_frame w : frame_rel w (disarm_and_destroy w).
Proof.
  unfold disarm_and_destroy, disarm_clockTimer, Timer_Set.
  destruct (clockTimer w); [destruct (negb _)|]; constructor; reflexivity.
Qed.

Lemma block_entry_chan il c w : chan_rel w (block_entry il c w).
Proof.
  unfold block_entry.
  destruct (takes_deadline c); [|apply chan_rel_refl].
  destruct c as [|h d|[n|n] h d|h d]; try apply chan_rel_refl;
    (eapply chan_rel_trans; [|apply env_steps_chan]);
    try (constructor; simpl; auto; fail).
  eapply chan_rel_trans; [apply (env_steps_chan (i_before_arm il))|].
  constructor; simpl; auto.
Qed.

Lemma block_entry_frame il c w : frame_rel w (block_entry il c w).
Proof.
  unfold block_entry.
  destruct (takes_deadline c); [|apply frame_rel_refl].
  destruct c as [|h d|[n|n] h d|h d]; try apply frame_rel_refl;
    (eapply frame_rel_trans; [|apply env_steps_frame]);
    try (constructor; reflexivity).
  eapply frame_rel_trans; [apply (env_steps_frame (i_before_arm il))|].
  constructor; reflexivity.
Qed.

Lemma call_exit_chan il c err w : chan_rel w (call_exit il c err w).
Proof.
  unfold call_exit.
  destruct (takes_deadline c); [|apply chan_rel_refl].
  destruct c as [|h d|[n|n] h d|h d]; try apply chan_rel_refl.
  - eapply chan_rel_trans; [apply env_steps_chan | apply disarm_blockingTimer_chan].
  - eapply chan_rel_trans; [apply env_steps_chan | apply disarm_blockingTimer_chan].
  - eapply chan_rel_trans; [apply env_steps_chan | apply disarm_and_destroy_chan].
  - assert (chan_rel w (disarm_blockingTimer (env_steps (i_before_disarm il) w))) as H
      by (eapply chan_rel_trans; [apply env_steps_chan | apply disarm_blockingTimer_chan]).
    destruct (linuxerr_Equals _ _); [exact H|].
    eapply chan_rel_trans; [exact H | apply env_steps_chan].
Qed.

Lemma call_exit_frame il c err w : frame_rel w (call_exit il c err w).
Proof.
  unfold call_exit.
  destruct (takes_deadline c); [|apply frame_rel_refl].
  destruct c as [|h d|[n|n] h d|h d]; try apply frame_rel_refl.
  - eapply frame_rel_trans; [apply env_steps_frame | apply disarm_blockingTimer_frame].
  - eapply frame_rel_trans; [apply env_steps_frame | apply disarm_blockingTimer_frame].
  - eapply frame_rel_trans; [apply env_steps_frame | apply disarm_and_destroy_frame].
  - assert (frame_rel w (disarm_blockingTimer (env_steps (i_before_disarm il) w))) as H
      by (eapply frame_rel_trans; [apply env_steps_frame | apply disarm_blockingTimer_frame]).
    destruct (linuxerr_Equals _ _); [exact H|].
    eapply frame_rel_trans; [exact H | apply env_steps_frame].
Qed.

(** A Block-family call is: enter, [block], leave. *)
Lemma call_unfold il c w :
  call il c w =
  match block (i_block il) (timerChan_of c) (block_entry il c w) with
  | None => None
  | Some (err, w1) => Some (err, call_exit il c err w1)
  end.
Proof.
  unfold call, timerChan_of, block_entry, call_exit.
  destruct c as [|h d|[n|n] h d|h d]; simpl.
  - unfold Block. destruct (block _ _ _) as [[? ?]|]; reflexivity.
  - unfold BlockWithDeadline, blockWithDeadlineFromSampledClock, armed_block.
    destruct h; simpl; destruct (block _ _ _) as [[? ?]|]; reflexivity.
  - unfold BlockWithDeadlineFrom, blockWithDeadlineFromSampledClock, armed_block.
    destruct h; simpl; destruct (block _ _ _) as [[? ?]|]; reflexivity.
  - unfold BlockWithDeadlineFrom, armed_block_on.
    destruct h; simpl; destruct (block _ _ _) as [[? ?]|]; reflexivity.
  - unfold BlockWithTimeout, blockWithDeadlineFromSampledClock, armed_block.
    destruct h; simpl; destruct (block _ _ _) as [[e ?]|]; try reflexivity.
    simpl. destruct (linuxerr_Equals ETIMEDOUT e); reflexivity.
Qed.

(** ** The select *)

Lemma ready_event tc w : In WokenByEvent (ready tc w) <-> (0 < len (C w))%nat.
Proof.
  unfold ready. rewrite !in_app_iff.
  destruct (Nat.ltb_spec 0 (len (C w)));
  destruct (Nat.ltb_spec 0 (len (interruptChan (task w))));
  destruct (Nat.ltb_spec 0 (timerChan_len tc w)); simpl;
  intuition (try discriminate; try lia).
Qed.

Lemma ready_interrupt tc w :
  In WokenByInterrupt (ready tc w) <-> (0 < len (interruptChan (task w)))%nat.
Proof.
  unfold ready. rewrite !in_app_iff.
  destruct (Nat.ltb_spec 0 (len (C w)));
  destruct (Nat.ltb_spec 0 (len (interruptChan (task w))));
  destruct (Nat.ltb_spec 0 (timerChan_len tc w)); simpl;
  intuition (try discriminate; try lia).
Qed.

Lemma ready_timer tc w :
  In WokenByTimer (ready tc w) <-> (0 < timerChan_len tc w)%nat.
Proof.
  unfold ready. rewrite !in_app_iff.
  destruct (Nat.ltb_spec 0 (len (C w)));
  destruct (Nat.ltb_spec 0 (len (interruptChan (task w))));
  destruct (Nat.ltb_spec 0 (timerChan_len tc w)); simpl;
  intuition (try discriminate; try lia).
Qed.

Lemma pick_In (pick : nat) (r : Wake) (rs : list Wake) :
  In (choose pick r rs) (r :: rs).
Proof.
  unfold choose. apply nth_In. apply Nat.mod_upper_bound. simpl. lia.
Qed.

(** A select over a ready case does not park: it takes a ready case. *)
Lemma select_wait_ready pick tc evs w :
  ready tc w <> [] ->
  exists wk, In wk (ready tc w) /\
             select_wait pick tc evs w = Some (wk, receive wk w).
Proof.
  intros Hne. destruct evs; cbn [select_wait];
    (destruct (ready tc w) as [|r rs] eqn:E; [congruence|]);
    eexists; (split; [|reflexivity]); apply pick_In.
Qed.

(** A select that returns took a case that was ready, in a world that the
    environment made from the one at its entry. *)
Lemma select_wait_inv pick tc evs w wk w' :
  select_wait pick tc evs w = Some (wk, w') ->
  exists w0, chan_rel w w0 /\ frame_rel w w0 /\
             In wk (ready tc w0) /\ w' = receive wk w0.
Proof.
  revert w. induction evs as [|e evs IH]; intros w;
    cbn [select_wait]; destruct (ready tc w) as [|r rs] eqn:E.
  - discriminate.
  - intros [= <- <-]. exists w. rewrite E.
    repeat split; auto using chan_rel_refl, frame_rel_refl, pick_In.
  - intros H. destruct (IH _ H) as (w0 & Hc & Hf & Hin & ->).
    exists w0. split; [|split]; auto.
    + eapply chan_rel_trans; [apply env_step_chan | exact Hc].
    + eapply frame_rel_trans; [apply env_step_frame | exact Hf].
  - intros [= <- <-]. exists w. rewrite E.
    repeat split; auto using chan_rel_refl, frame_rel_refl, pick_In.
Qed.

(** ** [block] *)

Lemma block_fast s tc w :
  (0 < len (C w))%nat -> block s tc w = Some (None, set_C chan_drain w).
Proof.
  intros H. unfold block, chan_drain, set_C.
  rewrite (chan_recv_Some _ H). reflexivity.
Qed.

(** The error tells the case that woke the call. *)
Lemma block_woken_by s tc w err w' :
  block s tc w = Some (err, w') ->
  match err with
  | None => (0 < len (C w))%nat \/ woken_by s tc w = Some WokenByEvent
  | Some ErrInterrupted => woken_by s tc w = Some WokenByInterrupt
  | Some ETIMEDOUT => woken_by s tc w = Some WokenByTimer
  end.
Proof.
  unfold block, woken_by.
  destruct (chan_recv (C w)) as [c|] eqn:E.
  - intros [= <- <-]. left.
    destruct (len (C w)) eqn:E'; [|lia].
    apply chan_recv_None in E'. congruence.
  - destruct (select_wait _ _ _ _) as [[wk w1]|]; [|discriminate].
    destruct wk; intros [= <- <-]; simpl; auto.
Qed.

Lemma block_post_before w0 w err w' :
  chan_rel w0 w -> block_post w err w' -> block_post w0 err w'.
Proof.
  intros [] []. constructor.
  - destruct err; congruence.
  - congruence.
  - auto.
  - destruct err as [[]|]; congruence.
  - intros Hwf [Hp|He]; apply bp_int_pending0; auto. left. lia.
Qed.

Lemma block_post_after w err w1 w' :
  block_post w err w1 -> chan_rel w1 w' -> block_post w err w'.
Proof.
  intros [] []. constructor.
  - destruct err; congruence.
  - congruence.
  - auto.
  - destruct err as [[]|]; congruence.
  - intros Hwf H. specialize (bp_int_pending0 Hwf H). lia.
Qed.

Lemma block_post_block s tc w err w' :
  block s tc w = Some (err, w') -> block_post w err w'.
Proof.
  unfold block.
  destruct (chan_recv (C w)) as [c|] eqn:E.
  - intros [= <- <-]. unfold chan_recv in E.
    destruct (len (C w)); [discriminate|]. injection E as <-.
    constructor; simpl; auto. intros _ [H|H]; [exact H | discriminate].
  - destruct (select_wait _ _ _ _) as [[wk w1]|] eqn:Es; [|discriminate].
    destruct (select_wait_inv _ _ _ _ _ _ Es) as (w0 & Hc & _ & Hin & ->).
    pose proof (chan_rel_trans _ _ _ (at_select_chan s tc w) Hc) as Hc0.
    clear Es Hc E.
    destruct wk; intros [= <- <-].
    + (* woken by the event *)
      apply ready_event in Hin.
      destruct Hc0 as [a1 a2 a3 a4 a5 a6 a7].
      destruct (env_steps_chan (s_woken s) (receive WokenByEvent w0))
        as [b1 b2 b3 b4 b5 b6 b7].
      simpl in b1, b2, b3, b4, b5, b6, b7.
      rewrite chan_drain_taken in b1.
      apply Nat.ltb_lt in Hin. rewrite Hin in b1.
      constructor; simpl; try congruence; auto.
      intros Hwf [H|H]; [lia | discriminate].
    + (* woken by the interrupt *)
      apply ready_interrupt in Hin.
      destruct Hc0 as [a1 a2 a3 a4 a5 a6 a7].
      destruct (env_steps_chan (s_woken s) (receive WokenByInterrupt w0))
        as [b1 b2 b3 b4 b5 b6 b7].
      simpl in b1, b2, b3, b4, b5, b6, b7.
      rewrite chan_drain_taken in b4. rewrite chan_drain_cap in b6.
      pose proof Hin as Hin'. apply Nat.ltb_lt in Hin'. rewrite Hin' in b4.
      constructor; simpl; rewrite ?chan_send_taken, ?chan_send_cap;
        try congruence.
      * intros Hwf. apply chan_send_wf, b7, chan_drain_wf, a7, Hwf.
      * intros Hwf _.
        apply (repost_pending (interruptChan (task w0))); auto.
        rewrite chan_drain_cap. exact b6.
    + (* woken by the timer *)
      destruct Hc0 as [a1 a2 a3 a4 a5 a6 a7].
      destruct (env_steps_chan (s_woken s) (receive WokenByTimer w0))
        as [b1 b2 b3 b4 b5 b6 b7].
      simpl in b1, b2, b3, b4, b5, b6, b7.
      constructor; simpl; try congruence; auto.
      intros Hwf [H|H]; [lia | discriminate].
Qed.

Lemma call_post il c w err w' :
  call il c w = Some (err, w') -> block_post w err w'.
Proof.
  rewrite call_unfold.
  destruct (block _ _ _) as [[e w1]|] eqn:E; [|discriminate].
  intros [= <- <-].
  eapply block_post_before; [apply block_entry_chan|].
  eapply block_post_after; [|apply call_exit_chan].
  eapply block_post_block; exact E.
Qed.

Lemma interrupted_len (t : Task) :
  interrupted t = true <-> (0 < len (interruptChan t))%nat.
Proof.
  unfold interrupted. destruct (Nat.eqb_spec (len (interruptChan t)) 0);
    simpl; split; intros; try lia; congruence.
Qed.

(** ** The fast path *)

(** C4. A Block-family call that finds a value in [C] at its entry returns
    nil: [block] returns at once and changes nothing but [C], from which it
    took one value; so does every call that takes no deadline; and every
    call leaves the address space, the sleep accounting, the watchdog stamp
    and the count of yields as they were, receives nothing from the
    interrupt channel, and leaves a pending interrupt pending. *)
Theorem fast_path_precedence (il : Interleaving) (c : BlockCall) (w : World) :
  (0 < len (C w))%nat ->
  block (i_block il) (timerChan_of c) w = Some (None, set_C chan_drain w) /\
  (takes_deadline c = false -> call il c w = Some (None, set_C chan_drain w)) /\
  exists w', call il c w = Some (None, w') /\
    mm (task w') = mm (task w) /\
    gosched (task w') = gosched (task w) /\
    gostateTime (task w') = gostateTime (task w) /\
    yields w' = yields w /\
    taken (C w') = S (taken (C w)) /\
    taken (interruptChan (task w')) = taken (interruptChan (task w)) /\
    (interrupted (task w) = true -> interrupted (task w') = true).
Proof.
  intros Hpos. split; [|split].
  - apply block_fast, Hpos.
  - intros Hd. rewrite call_unfold. unfold block_entry, call_exit.
    rewrite Hd. rewrite (block_fast _ _ _ Hpos). reflexivity.
  - pose proof (block_entry_chan il c w) as Hc.
    pose proof (block_entry_frame il c w) as Hf.
    assert (0 < len (C (block_entry il c w)))%nat as Hpos'
      by (destruct Hc; lia).
    pose proof (block_fast (i_block il) (timerChan_of c) _ Hpos') as Hb.
    exists (call_exit il c None (set_C chan_drain (block_entry il c w))).
    rewrite call_unfold, Hb. split; [reflexivity|].
    pose proof (call_exit_chan il c None (set_C chan_drain (block_entry il c w))) as Hc'.
    pose proof (call_exit_frame il c None (set_C chan_drain (block_entry il c w))) as Hf'.
    destruct Hc as [a1 a2 a3 a4 a5 a6 a7], Hf as [f1 f2 f3 f4].
    destruct Hc' as [b1 b2 b3 b4 b5 b6 b7], Hf' as [g1 g2 g3 g4].
    simpl in b1, b2, b3, b4, b5, b6, b7, g1, g2, g3, g4.
    rewrite chan_drain_taken in b1.
    apply Nat.ltb_lt in Hpos'. rewrite Hpos' in b1.
    repeat split; try congruence.
    rewrite !interrupted_len. lia.
Qed.

(** ** Interrupts *)

Lemma block_returns_when_interrupted s tc w :
  (0 < len (interruptChan (task w)))%nat ->
  exists err w', block s tc w = Some (err, w').
Proof.
  intros Hp. unfold block.
  destruct (chan_recv (C w)) as [c|]; [eauto|].
  pose proof (at_select_chan s tc w) as [_ _ _ _ Hlen _ _].
  destruct (select_wait_ready (s_pick s) tc (s_parked s) (at_select s tc w))
    as (wk & _ & ->).
  { intros E. assert (In WokenByInterrupt (ready tc (at_select s tc w))) as Hin
      by (apply ready_interrupt; lia).
    rewrite E in Hin. destruct Hin. }
  destruct wk; eauto.
Qed.

Lemma block_only_interrupt_ready s tc w err w' :
  ready tc (at_select s tc w) = [WokenByInterrupt] ->
  block s tc w = Some (err, w') -> err = Some ErrInterrupted.
Proof.
  intros Hr Hb.
  assert (len (C w) = 0%nat) as HC.
  { pose proof (at_select_chan s tc w) as [_ Hlen _ _ _ _ _].
    destruct (Nat.ltb_spec 0 (len (C (at_select s tc w)))) as [Hlt|]; [|lia].
    apply (ready_event tc) in Hlt. rewrite Hr in Hlt.
    destruct Hlt as [|[]]; discriminate. }
  unfold block in Hb. apply chan_recv_None in HC. rewrite HC in Hb.
  destruct (select_wait_ready (s_pick s) tc (s_parked s) (at_select s tc w))
    as (wk & Hin & Hs); [rewrite Hr; discriminate|].
  rewrite Hs in Hb. rewrite Hr in Hin. destruct Hin as [<-|[]].
  injection Hb as <- _. reflexivity.
Qed.

(** C5, as the code has it. A Block-family call returns [ErrInterrupted]
    exactly when the interrupt channel woke it, and it then has posted to
    the interrupt channel again, so that [interrupted] holds afterwards, and
    has taken nothing from [C].  While an interrupt is pending, every such
    call returns and leaves the interrupt pending; it returns
    [ErrInterrupted] whenever the interrupt channel is the only ready case
    of its select.  (When [C] or the timer channel is ready too, the
    runtime chooses among the ready cases.) *)
Theorem interrupt_wakes (il : Interleaving) (c : BlockCall) (w : World) :
  chan_wf (interruptChan (task w)) ->
  (forall err w', call il c w = Some (err, w') ->
     (err = Some ErrInterrupted <->
      woken_by (i_block il) (timerChan_of c) (block_entry il c w)
        = Some WokenByInterrupt) /\
     (err = Some ErrInterrupted ->
      interrupted (task w') = true /\ taken (C w') = taken (C w))) /\
  (interrupted (task w) = true ->
   exists err w', call il c w = Some (err, w') /\
     interrupted (task w') = true /\
     (ready (timerChan_of c)
        (at_select (i_block il) (timerChan_of c) (block_entry il c w))
        = [WokenByInterrupt] ->
      err = Some ErrInterrupted /\ taken (C w') = taken (C w))).
Proof.
  intros Hwf. split.
  - intros err w' Hcall. pose proof (call_post _ _ _ _ _ Hcall) as Hpost.
    rewrite call_unfold in Hcall.
    destruct (block _ _ _) as [[e w1]|] eqn:Hb; [|discriminate].
    injection Hcall as -> <-.
    pose proof (block_woken_by _ _ _ _ _ Hb) as Hw.
    split.
    + split.
      * intros ->. exact Hw.
      * intros Hi. destruct err as [[]|]; auto.
        -- congruence.
        -- destruct Hw as [Hpos|Hw]; [|congruence].
           unfold woken_by in Hi. rewrite (chan_recv_Some _ Hpos) in Hi.
           discriminate.
    + intros ->. destruct Hpost. split.
      * apply interrupted_len. apply bp_int_pending0; auto.
      * exact bp_C_taken0.
  - intros Hp. apply interrupted_len in Hp.
    pose proof (block_entry_chan il c w) as Hc.
    assert (0 < len (interruptChan (task (block_entry il c w))))%nat as Hp'
      by (destruct Hc; lia).
    destruct (block_returns_when_interrupted (i_block il) (timerChan_of c) _ Hp')
      as (err & w1 & Hb).
    exists err, (call_exit il c err w1).
    assert (call il c w = Some (err, call_exit il c err w1)) as Hcall
      by (rewrite call_unfold, Hb; reflexivity).
    pose proof (call_post _ _ _ _ _ Hcall) as Hpost.
    split; [exact Hcall|]. split.
    + apply interrupted_len. destruct Hpost. apply bp_int_pending0; auto.
    + intros Hr.
      pose proof (block_only_interrupt_ready _ _ _ _ _ Hr Hb) as ->.
      split; [reflexivity|]. destruct Hpost. exact bp_C_taken0.
Qed.

(** ** Timeouts *)

Lemma wrap64_small z : int64 z -> wrap64 z = z.
Proof.
  unfold int64, wrap64. intros H.
  rewrite Z.mod_small; lia.
Qed.

Lemma wrap64_range z : int64 (wrap64 z).
Proof.
  unfold int64, wrap64.
  pose proof (Z.mod_pos_bound (z + 2 ^ 63) (2 ^ 64)). lia.
Qed.

Lemma linuxerr_Equals_true e err : linuxerr_Equals e err = true <-> err = Some e.
Proof. unfold linuxerr_Equals. apply bool_decide_eq_true. Qed.

Lemma linuxerr_Equals_false e err : linuxerr_Equals e err = false <-> err <> Some e.
Proof. unfold linuxerr_Equals. apply bool_decide_eq_false. Qed.

(** Without a timer channel no call times out. *)
Lemma block_NilChan_no_timeout s w err w' :
  block s NilChan w = Some (err, w') -> err <> Some ETIMEDOUT.
Proof.
  intros Hb ->. apply block_woken_by in Hb. unfold woken_by in Hb.
  destruct (chan_recv (C w)); [discriminate|].
  destruct (select_wait _ _ _ _) as [[wk w1]|] eqn:Es; [|discriminate].
  injection Hb as ->.
  destruct (select_wait_inv _ _ _ _ _ _ Es) as (w0 & _ & _ & Hin & _).
  apply ready_timer in Hin. simpl in Hin. lia.
Qed.

Lemma BlockWithTimeout_call il have timeout w rem err w' :
  BlockWithTimeout il have timeout w = Some ((rem, err), w') ->
  call il (CallBlockWithTimeout have timeout) w = Some (err, w').
Proof. unfold call. intros ->. reflexivity. Qed.

(** What [BlockWithTimeout(C, true, timeout)] returns. The remaining
    duration is exactly 0 with [ETIMEDOUT] and is never negative; with any
    other error it is the 64-bit difference [timeout - end.Sub(start)] of
    the two readings of the clock, clamped at zero, which is [timeout]
    minus the elapsed time, clamped at zero, whenever that difference is
    representable as a 64-bit duration. *)
Lemma remaining_timeout (il : Interleaving) (timeout : Z) (w : World)
    (rem : Z) (err : error) (w' : World) :
  BlockWithTimeout il true timeout w = Some ((rem, err), w') ->
  (err = Some ETIMEDOUT -> rem = 0) /\
  0 <= rem /\
  (err <> Some ETIMEDOUT ->
   rem = Z.max 0 (Duration_sub timeout (Time_Sub (now w') (now w))) /\
   (int64 (timeout - Time_Sub (now w') (now w)) ->
    rem = Z.max 0 (timeout - Time_Sub (now w') (now w)))).
Proof.
  unfold BlockWithTimeout. cbn [negb].
  destruct (blockWithDeadlineFromSampledClock _ _ _ _) as [[e w1]|]; [|discriminate].
  destruct (linuxerr_Equals ETIMEDOUT e) eqn:E.
  - intros [= <- <- <-]. apply linuxerr_Equals_true in E.
    split; [reflexivity|]. split; [lia|]. intros Hne. congruence.
  - apply linuxerr_Equals_false in E.
    set (wend := env_steps (i_before_end il) w1).
    set (r := Duration_sub timeout (Time_Sub (now wend) (now w))).
    intros [= <- <- <-].
    assert ((if r <? 0 then 0 else r) = Z.max 0 r) as ->
      by (destruct (Z.ltb_spec r 0); lia).
    split; [congruence|]. split; [lia|]. intros _.
    split; [reflexivity|].
    intros Hr. subst r. unfold Duration_sub. rewrite wrap64_small; auto.
Qed.

(** C2, as the code has it. A call of [BlockWithTimeout] that returns a
    remaining duration other than zero did not time out: its error is nil,
    and then it took exactly one value from [C], or [ErrInterrupted], and
    then it took none. *)
Theorem remaining_nonzero (il : Interleaving) (have : bool) (timeout : Z)
    (w : World) (rem : Z) (err : error) (w' : World) :
  BlockWithTimeout il have timeout w = Some ((rem, err), w') ->
  rem <> 0 ->
  (err = None \/ err = Some ErrInterrupted) /\
  (err = None -> taken (C w') = S (taken (C w))) /\
  (err = Some ErrInterrupted -> taken (C w') = taken (C w)).
Proof.
  intros H Hrem.
  pose proof (call_post _ _ _ _ _ (BlockWithTimeout_call _ _ _ _ _ _ _ H))
    as [HC _ _ _ _].
  assert (err <> Some ETIMEDOUT) as Hne.
  { destruct have.
    - intros ->. apply remaining_timeout in H. destruct H as [H0 _]. auto.
    - unfold BlockWithTimeout in H. cbn [negb] in H.
      destruct (block _ _ _) as [[e w1]|] eqn:Hb; [|discriminate].
      injection H as _ <- _. eapply block_NilChan_no_timeout; eauto. }
  split; [|split].
  - destruct err as [[]|]; auto. congruence.
  - intros ->. exact HC.
  - intros ->. exact HC.
Qed.

(** ** Timer hygiene *)





(** ** Sleep bookkeeping *)

(** C9. [UninterruptibleSleepStart(d)] deactivates the address space
    exactly when [d] is true, accounts the task as blocked-uninterruptible
    and changes nothing else; over an address space whose activation undoes
    its deactivation and an account whose leave undoes its enter,
    [UninterruptibleSleepFinish(d)] after it restores the task exactly. *)
Theorem uninterruptible_sleep_balanced (d : bool) (t : Task) :
  as_Activate (as_Deactivate (mm t)) = mm t ->
  account_Leave TaskGoroutineBlockedUninterruptible
    (account_Enter TaskGoroutineBlockedUninterruptible (gosched t)) = gosched t ->
  UninterruptibleSleepStart d t =
    mkTask (p t) (if d then as_Deactivate (mm t) else mm t)
      (account_Enter TaskGoroutineBlockedUninterruptible (gosched t))
      (gostateTime t) (interruptChan t) (blockingTimer t) (blockingTimerChan t) /\
  UninterruptibleSleepFinish d (UninterruptibleSleepStart d t) = t.
Proof.
  intros Ha Hg. destruct t as [p0 mm0 g0 gt0 ic0 bt0 btc0]. simpl in Ha, Hg.
  unfold UninterruptibleSleepStart, UninterruptibleSleepFinish,
    accountTaskGoroutineEnter, accountTaskGoroutineLeave, Activate, Deactivate,
    set_gosched, set_mm.
  destruct d; simpl; rewrite ?Hg, ?Ha; auto.
Qed.

(** C10. [Interrupted] answers whether the interrupt slot is occupied.
    When it is, the task is left exactly as it was, the watchdog stamp
    included; when it is not, the only change is one touch of the watchdog
    stamp. In neither case is the interrupt channel changed. *)
Theorem Interrupted_touches_only_when_false (t : Task) :
  Interrupted t =
    (if (0 <? len (interruptChan t))%nat then (true, t)
     else (false, set_gostateTime gostate_touch t)) /\
  interruptChan (snd (Interrupted t)) = interruptChan t /\
  (fst (Interrupted t) = true -> snd (Interrupted t) = t) /\
  (fst (Interrupted t) = false ->
   gostateTime (snd (Interrupted t)) = gostate_touch (gostateTime t)).
Proof.
  unfold Interrupted, interrupted, touchGostateTime.
  destruct (len (interruptChan t)); simpl; repeat split; auto; discriminate.
Qed.

End BlockProofs.

(** ** Runs of the block core on the reference collaborators *)

(** The fast path, on a world whose [C] holds a value. *)
Lemma fast_path_precedence_witness :
  (0 < len (C (world0 1 0)))%nat /\
  block (i_block il_quiet) (timerChan_of (CallBlockWithDeadline true 5)) (world0 1 0)
    = Some (None, set_C chan_drain (world0 1 0)).
Proof.
  assert (0 < len (C (world0 1 0)))%nat as H by (simpl; lia).
  split; [exact H|].
  exact (proj1 (fast_path_precedence il_quiet (CallBlockWithDeadline true 5)
                  (world0 1 0) H)).
Defined.

(** An interrupted task blocks on an empty [C]: the call returns and the
    interrupt stays pending. *)
Lemma interrupt_wakes_witness :
  chan_wf (interruptChan (task (world_interrupted 0))) /\
  exists err w',
    call il_quiet CallBlock (world_interrupted 0) = Some (err, w') /\
    interrupted (task w') = true.
Proof.
  assert (chan_wf (interruptChan (task (world_interrupted 0)))) as H
    by (unfold chan_wf; simpl; lia).
  split; [exact H|].
  destruct (proj2 (interrupt_wakes il_quiet CallBlock (world_interrupted 0) H)
              eq_refl) as (err & w' & Hc & Hi & _).
  exists err, w'. split; [exact Hc | exact Hi].
Defined.

(** With an interrupt pending, a call whose deadline has passed may return
    [ETIMEDOUT], and a call may return nil from its select, after sleep was
    prepared, having taken the value that a producer posted to [C] behind
    the fast path: in both runs the interrupt channel is ready and another
    case is ready too, and the runtime picks the other case. *)
Lemma interrupt_loses_to_ready_case :
  interrupted (task (world_interrupted 10)) = true /\
  len (C (world_interrupted 10)) = 0%nat /\
  fst <$> BlockWithDeadline il_expired true 5 (world_interrupted 10)
    = Some (Some ETIMEDOUT) /\
  (fun r => (fst r, taken (C (snd r)), p (task (snd r))))
    <$> Block (i_block il_race) (world_interrupted 10)
    = Some (None, 1%nat, [CallPrepareSleep; CallInterrupt]).
Proof. vm_compute. repeat split; reflexivity. Qed.

(** An interrupted call with 100 ns of timeout, 40 ns later. *)
Example remaining_timeout_interrupted :
  BlockWithTimeout il_interrupted true 100 (world0 0 0)
    = Some ((60, Some ErrInterrupted), interrupted_end) /\
  60 = Z.max 0 (100 - (now interrupted_end - now (world0 0 0))).
Proof. vm_compute. split; reflexivity. Qed.

(** C1. The remaining duration of [BlockWithTimeout(C, true, timeout)] is
    meant to be 0 on [ETIMEDOUT] and otherwise [timeout] minus the elapsed
    time, clamped at zero (see [remaining_timeout] for the calls on which it
    is).  The difference is computed in 64 bits and can wrap around: with
    a timeout of -2^63, a [C] that holds a value and one nanosecond between
    the two readings of the clock, the call returns nil and 2^63 - 1 as the
    remaining duration, where the clamped difference is 0. *)
Theorem remaining_timeout_overflows :
  fst <$> BlockWithTimeout il_overflow true (- 2 ^ 63) (world0 1 0)
    = Some (2 ^ 63 - 1, None) /\
  now <$> (snd <$> BlockWithTimeout il_overflow true (- 2 ^ 63) (world0 1 0))
    = Some 1 /\
  Z.max 0 (- 2 ^ 63 - @Time_Sub reference 1 (now (world0 1 0))) = 0.
Proof. vm_compute. repeat split; reflexivity. Qed.

(** A call with 100 ns of timeout that an event wakes 30 ns later. *)
Lemma remaining_nonzero_witness :
  BlockWithTimeout il_notified true 100 (world0 0 0)
    = Some ((70, None), notified_end) /\
  70 <> 0 /\
  taken (C notified_end) = S (taken (C (world0 0 0))).
Proof.
  assert (BlockWithTimeout il_notified true 100 (world0 0 0)
          = Some ((70, None), notified_end)) as H
    by (vm_compute; reflexivity).
  assert (70 <> 0) as H0 by lia.
  split; [exact H|]. split; [exact H0|].
  exact (proj1 (proj2 (remaining_nonzero _ _ _ _ _ _ _ H H0)) eq_refl).
Defined.

(** An interrupted call returns what remains of its timeout: the remaining
    duration is not zero, the error is not nil, and nothing was taken from
    [C]. *)
Lemma remaining_nonzero_on_interrupt :
  (fun r => (fst r, taken (C (snd r))))
    <$> BlockWithTimeout il_interrupted true 100 (world0 0 0)
    = Some ((60, Some ErrInterrupted), 0%nat) /\
  (fun r => (fst r, taken (C (snd r))))
    <$> BlockWithTimeout il_interrupted false 100 (world0 0 0)
    = Some ((100, Some ErrInterrupted), 0%nat).
Proof. vm_compute. split; reflexivity. Qed.



(** A balanced pair on the running task of the reference collaborators. *)
Lemma uninterruptible_sleep_balanced_witness :
  @as_Activate reference (as_Deactivate (mm task0)) = mm task0 /\
  @account_Leave reference TaskGoroutineBlockedUninterruptible
    (account_Enter TaskGoroutineBlockedUninterruptible (gosched task0))
    = gosched task0 /\
  UninterruptibleSleepFinish true (UninterruptibleSleepStart true task0) = task0.
Proof.
  assert (@as_Activate reference (as_Deactivate (mm task0)) = mm task0) as H1
    by reflexivity.
  assert (@account_Leave reference TaskGoroutineBlockedUninterruptible
            (account_Enter TaskGoroutineBlockedUninterruptible (gosched task0))
          = gosched task0) as H2 by reflexivity.
  split; [exact H1|]. split; [exact H2|].
  exact (proj2 (uninterruptible_sleep_balanced true task0 H1 H2)).
Defined.

(** [Interrupted] on a task with an empty and with an occupied slot. *)
Lemma Interrupted_touches_only_when_false_witness :
  Interrupted task0 = (false, @set_gostateTime reference S task0) /\
  Interrupted (interrupt task0) = (true, interrupt task0).
Proof.
  split.
  - exact (proj1 (Interrupted_touches_only_when_false task0)).
  - exact (proj1 (Interrupted_touches_only_when_false (interrupt task0))).
Defined.

(** * Properties of the PID namespaces *)

Section NamespaceProofs.
Import threads.
Context {D : NamespaceData}.

(** ** The reader lock *)

Lemma RLock_RUnlock ts st s :
  tasksets st !! ts = Some s ->
  exists st1, RLock ts st = Some st1 /\ RUnlock ts st1 = Some st /\
    namespaces st1 = namespaces st /\ tasknodes st1 = tasknodes st /\
    tgnodes st1 = tgnodes st /\ lastPIDNSID st1 = lastPIDNSID st.
Proof.
  intros Hs. unfold RLock, RUnlock. rewrite Hs. simpl.
  eexists. split; [reflexivity|]. simpl. rewrite lookup_insert_eq. simpl.
  repeat split; auto.
  destruct st as [nss tss tns tgs l]. unfold set_tasksets. simpl in *.
  do 2 f_equal. rewrite insert_insert_eq. apply insert_id.
  rewrite Hs. destruct s as [[r] R]. reflexivity.
Qed.

Lemma RLock_inv ts st st1 :
  RLock ts st = Some st1 -> exists s, tasksets st !! ts = Some s.
Proof.
  unfold RLock. destruct (tasksets st !! ts) as [s|]; [eauto | discriminate].
Qed.

(** A read under the reader lock returns what it read from the namespace
    and leaves the store as it was. *)
Lemma with_rlock {A} (f : PIDNamespace -> A) a ns ts st :
  namespaces st !! a = Some ns -> tasksets st !! owner ns = Some ts ->
  (ns ← namespaces st !! a;
   st ← RLock (owner ns) st;
   ns ← namespaces st !! a;
   let x := f ns in
   st ← RUnlock (owner ns) st;
   Some (x, st)) = Some (f ns, st).
Proof.
  intros Hns Hts. rewrite Hns. simpl.
  destruct (RLock_RUnlock _ _ _ Hts) as (st1 & -> & Hu & Hn & _). simpl.
  rewrite Hn, Hns. simpl. rewrite Hu. reflexivity.
Qed.

Lemma with_rlock_inv {A} (f : PIDNamespace -> A) a st x st' :
  (ns ← namespaces st !! a;
   st ← RLock (owner ns) st;
   ns ← namespaces st !! a;
   let x := f ns in
   st ← RUnlock (owner ns) st;
   Some (x, st)) = Some (x, st') ->
  st' = st.
Proof.
  destruct (namespaces st !! a) as [ns|] eqn:Hns; simpl; [|discriminate].
  destruct (RLock (owner ns) st) as [st1|] eqn:Hl; simpl; [|discriminate].
  destruct (RLock_inv _ _ _ Hl) as [ts Hts].
  destruct (RLock_RUnlock _ _ _ Hts) as (st2 & Hl' & Hu & Hn & _).
  assert (st2 = st1) as -> by congruence.
  rewrite Hn, Hns. simpl. rewrite Hu. simpl. congruence.
Qed.

Lemma ThreadGroupWithID_inv a tid st x st' :
  ThreadGroupWithID a tid st = Some (x, st') -> st' = st.
Proof.
  unfold ThreadGroupWithID.
  destruct (namespaces st !! a) as [ns|] eqn:Hns; simpl; [|discriminate].
  destruct (RLock (owner ns) st) as [st1|] eqn:Hl; simpl; [|discriminate].
  destruct (RLock_inv _ _ _ Hl) as [ts Hts].
  destruct (RLock_RUnlock _ _ _ Hts) as (st2 & Hl' & Hu & Hn & _).
  assert (st2 = st1) as -> by congruence.
  rewrite Hn, Hns. simpl.
  destruct (bool_decide _); simpl.
  - rewrite Hu. simpl. congruence.
  - destruct (tasknodes st1 !! _) as [tn|]; simpl; [|discriminate].
    destruct (tgnodes st1 !! _) as [g|]; simpl; [|discriminate].
    destruct (bool_decide _); rewrite Hu; simpl; congruence.
Qed.

Lemma fmap_snd_Some {A B} (o : option (A * B)) (b : B) :
  snd <$> o = Some b -> exists x, o = Some (x, b).
Proof. destruct o as [[x y]|]; simpl; [|discriminate]. intros [= ->]. eauto. Qed.

Lemma reads_only_run o st st' :
  reads_only o = true -> run o st = Some st' -> st' = st.
Proof.
  destruct o; simpl; try discriminate; intros _ H;
    apply fmap_snd_Some in H as [x H];
    try (eapply with_rlock_inv; exact H);
    try (eapply ThreadGroupWithID_inv; exact H).
  - unfold GetInode in H. destruct (namespaces st !! a); simpl in H; congruence.
  - unfold ID in H. destruct (namespaces st !! a); simpl in H; congruence.
  - unfold UserNamespace in H. destruct (namespaces st !! a); simpl in H; congruence.
  - unfold Root_ in H. destruct (namespaces st !! a) as [ns|]; simpl in H; [|congruence].
    destruct (tasksets st !! owner ns); simpl in H; congruence.
Qed.

(** ** The invariant of a namespace *)

Lemma alloc_fresh {A} (m : gmap N A) : m !! alloc m = None /\ alloc m <> nilptr.
Proof.
  unfold alloc. pose proof (is_fresh ({[nilptr]} ∪ dom m)) as H.
  split.
  - apply not_elem_of_dom. set_solver.
  - intros E. apply H. rewrite E. set_solver.
Qed.

Lemma store_inv_empty : store_inv empty_store.
Proof.
  constructor; simpl; intros *; rewrite lookup_empty; discriminate.
Qed.

Lemma ns_inv_new st ts pa us i x ino :
  ns_inv st (mkPIDNamespace ts pa us i 0 ∅ ∅ ∅ ∅ ∅ ∅ ∅ false x ino).
Proof.
  constructor; simpl; intros *; rewrite ?lookup_empty;
    try discriminate; try lia.
  split; discriminate.
Qed.

(** The invariant of a namespace looks at its three maps and at [last]
    only. *)
Lemma ns_inv_same st st' ns ns' :
  tgnodes st' = tgnodes st ->
  tasks ns' = tasks ns -> tids ns' = tids ns -> tgids ns' = tgids ns ->
  last ns' = last ns ->
  ns_inv st ns -> ns_inv st' ns'.
Proof.
  intros Hg Ht Hi Htg Hl [B R L G].
  constructor; rewrite ?Hg, ?Ht, ?Hi, ?Htg, ?Hl; auto.
Qed.

Lemma ns_inv_store st st' ns :
  tgnodes st' = tgnodes st -> ns_inv st ns -> ns_inv st' ns.
Proof. intros Hg. apply ns_inv_same; auto. Qed.

Lemma store_inv_insert a ns' st :
  store_inv st -> ns_inv st ns' -> store_inv (set_namespaces <[a := ns']> st).
Proof.
  intros [Hn Hl Hnn] Hns'. constructor; simpl; auto.
  intros b nb. rewrite lookup_insert. case_decide.
  - intros [= <-]. apply (ns_inv_store st); auto.
  - intros Hb. apply (ns_inv_store st); eauto.
Qed.

Lemma newPIDNamespace_inv ts pa us st p st' :
  store_inv st -> newPIDNamespace ts pa us st = Some (p, st') -> store_inv st'.
Proof.
  unfold newPIDNamespace. intros Hst [= <- <-].
  apply store_inv_insert.
  - destruct Hst as [Hn Hl Hnn]. constructor; simpl; auto.
    intros b nb Hb. apply (ns_inv_store st); eauto.
  - apply ns_inv_new.
Qed.

Lemma InitInode_inv a k st st' :
  store_inv st -> InitInode a k st = Some st' -> store_inv st'.
Proof.
  unfold InitInode. intros Hst.
  destruct (namespaces st !! a) as [ns|] eqn:Hns; simpl; [|discriminate].
  intros [= <-]. apply store_inv_insert; auto.
  apply (ns_inv_same st st ns); auto. eapply si_ns; eauto.
Qed.

Lemma newTaskSet_inv a st ts st' :
  store_inv st -> newTaskSet a st = Some (ts, st') -> store_inv st'.
Proof.
  unfold newTaskSet. simpl. intros Hst.
  destruct (namespaces st !! a) as [ns|] eqn:Hns; simpl; [|discriminate].
  intros [= <- <-].
  apply store_inv_insert.
  - destruct Hst as [Hn Hl Hnn]. constructor; simpl; auto.
    intros b nb Hb. apply (ns_inv_store st); eauto.
  - apply (ns_inv_same st _ ns); auto. eapply si_ns; eauto.
Qed.

Lemma NewChild_inv a k us st p st' :
  store_inv st -> NewChild a k us st = Some (p, st') -> store_inv st'.
Proof.
  unfold NewChild. intros Hst.
  destruct (namespaces st !! a) as [ns|]; [|discriminate].
  cbn -[newPIDNamespace InitInode].
  destruct (newPIDNamespace _ _ _ _) as [[q st1]|] eqn:E1; [|discriminate].
  cbn -[InitInode].
  destruct (InitInode _ _ _) as [st2|] eqn:E2; [|discriminate].
  intros [= <- <-].
  eapply InitInode_inv; [|exact E2]. eapply newPIDNamespace_inv; eauto.
Qed.

Lemma newThreadGroup_inv a st r st' :
  store_inv st -> newThreadGroup a st = Some (r, st') -> store_inv st'.
Proof.
  unfold newThreadGroup. intros [Hn Hl Hnn] [= <- <-].
  destruct (alloc_fresh (tgnodes st)) as [Hg Hg0].
  destruct (alloc_fresh (tasknodes st)) as [Ht Ht0].
  constructor; simpl.
  - intros b nb Hb. destruct (Hn _ _ Hb) as [B R L G].
    constructor; auto. intros g tid Hgt.
    destruct (G _ _ Hgt) as (gn & Hgn & Htid). exists gn. split; auto.
    simpl. rewrite lookup_insert_ne; auto. congruence.
  - intros g gn. rewrite lookup_insert. case_decide.
    + intros [= <-]. simpl. eexists. rewrite lookup_insert_eq. split; eauto.
    + intros Hgn. destruct (Hl _ _ Hgn) as (tn & Htn & Htg).
      exists tn. split; auto. rewrite lookup_insert_ne; auto. congruence.
  - intros t tn. rewrite lookup_insert. case_decide; [congruence|]. apply Hnn.
Qed.

Lemma newThread_inv g st t st' :
  store_inv st -> newThread g st = Some (t, st') -> store_inv st'.
Proof.
  unfold newThread. intros [Hn Hl Hnn].
  destruct (tgnodes st !! g) as [gn0|]; simpl; [|discriminate].
  intros [= <- <-].
  destruct (alloc_fresh (tasknodes st)) as [Ht Ht0].
  constructor; simpl.
  - intros b nb Hb. destruct (Hn _ _ Hb) as [B R L G]. constructor; auto.
  - intros g' gn Hgn. destruct (Hl _ _ Hgn) as (tn & Htn & Htg).
    exists tn. split; auto. rewrite lookup_insert_ne; auto. congruence.
  - intros t tn. rewrite lookup_insert. case_decide; [congruence|]. apply Hnn.
Qed.

Lemma assignTID_inv a t st tid st' :
  store_inv st -> assignTID a t st = Some (tid, st') -> store_inv st'.
Proof.
  unfold assignTID. intros Hst.
  destruct (namespaces st !! a) as [ns|] eqn:Hns; simpl; [|discriminate].
  destruct (tasknodes st !! t) as [tn|] eqn:Htn; simpl; [|discriminate].
  destruct (tgnodes st !! tg tn) as [g|] eqn:Hg; simpl; [|discriminate].
  destruct (bool_decide (is_Some (tids ns !! t))) eqn:Hvis; [discriminate|].
  apply bool_decide_eq_false in Hvis. apply eq_None_not_Some in Hvis.
  destruct (bool_decide (TasksLimit <= _)); [discriminate|].
  destruct (bool_decide (maxTID < _)); [discriminate|].
  intros [= <- <-]. apply store_inv_insert; auto.
  destruct (si_ns _ Hst _ _ Hns) as [B R L G].
  assert (tasks ns !! (last ns + 1) = None) as Hfree.
  { destruct (tasks ns !! (last ns + 1)) as [t0|] eqn:E; auto.
    apply R in E. lia. }
  assert (forall gn tid0, tids ns !! leader gn = Some tid0 -> leader gn <> t)
    as Hother by (intros gn tid0 H1 H2; congruence).
  constructor; simpl.
  - intros tid0 t0. rewrite !lookup_insert.
    destruct (decide (last ns + 1 = tid0)) as [<-|Hne1];
      destruct (decide (t = t0)) as [<-|Hne2].
    + split; reflexivity.
    + split; [congruence|]. intros H. apply B in H. congruence.
    + split; [|congruence]. intros H. apply B in H. congruence.
    + apply B.
  - intros tid0 t0. rewrite lookup_insert. case_decide.
    + intros [= <-]. split; [lia|]. eapply si_nonnil; eauto.
    + intros H1. apply R in H1. lia.
  - lia.
  - intros g0 tid0. destruct (bool_decide (leader g = t)) eqn:Hlead.
    + apply bool_decide_eq_true in Hlead.
      rewrite lookup_insert. case_decide.
      * intros [= <-]. subst g0. exists g. split; auto.
        rewrite Hlead. apply lookup_insert_eq.
      * intros H1. destruct (G _ _ H1) as (gn & Hgn & Hl).
        exists gn. split; auto. rewrite lookup_insert_ne; eauto.
        intros E. eapply Hother; eauto.
    + intros H1. destruct (G _ _ H1) as (gn & Hgn & Hl).
      exists gn. split; auto. rewrite lookup_insert_ne; eauto.
      intros E. eapply Hother; eauto.
Qed.

Lemma reap_inv a t st st' :
  store_inv st -> reap a t st = Some st' -> store_inv st'.
Proof.
  unfold reap. intros Hst.
  destruct (namespaces st !! a) as [ns|] eqn:Hns; simpl; [|discriminate].
  destruct (tids ns !! t) as [tid|] eqn:Htid; simpl; [|discriminate].
  destruct (tasknodes st !! t) as [tn|] eqn:Htn; simpl; [|discriminate].
  destruct (tgnodes st !! tg tn) as [g|] eqn:Hg; simpl; [|discriminate].
  intros [= <-]. apply store_inv_insert; auto.
  destruct (si_ns _ Hst _ _ Hns) as [B R L G].
  assert (forall gn, tgnodes st !! tg tn = Some gn -> gn = g) as Hsame
    by (intros gn H; congruence).
  assert (forall g0 gn, tgnodes st !! g0 = Some gn -> leader gn = t -> g0 = tg tn)
    as Hlead_of.
  { intros g0 gn Hgn E. destruct (si_leader _ Hst _ _ Hgn) as (tn' & Htn' & <-).
    congruence. }
  constructor; simpl.
  - intros tid0 t0. rewrite !lookup_delete.
    destruct (decide (tid = tid0)) as [<-|Hne1];
      destruct (decide (t = t0)) as [<-|Hne2].
    + split; discriminate.
    + split; [discriminate|]. intros H. apply B in H. apply B in Htid. congruence.
    + split; [|discriminate]. intros H. apply B in H. congruence.
    + apply B.
  - intros tid0 t0. rewrite lookup_delete. case_decide; [discriminate|]. apply R.
  - lia.
  - intros g0 tid0. destruct (bool_decide (leader g = t)) eqn:Hlead.
    + apply bool_decide_eq_true in Hlead.
      rewrite lookup_delete. case_decide; [discriminate|].
      intros H1. destruct (G _ _ H1) as (gn & Hgn & Hl).
      exists gn. split; auto. rewrite lookup_delete_ne; auto.
      intros E. symmetry in E. apply (Hlead_of _ _ Hgn) in E. congruence.
    + apply bool_decide_eq_false in Hlead.
      intros H1. destruct (G _ _ H1) as (gn & Hgn & Hl).
      exists gn. split; auto. rewrite lookup_delete_ne; auto.
      intros E. symmetry in E. pose proof (Hlead_of _ _ Hgn E) as ->.
      apply Hsame in Hgn. congruence.
Qed.

Lemma run_inv o st st' : store_inv st -> run o st = Some st' -> store_inv st'.
Proof.
  intros Hst Hrun.
  destruct (reads_only o) eqn:Hr.
  { apply (reads_only_run _ _ _ Hr) in Hrun. congruence. }
  destruct o; try discriminate; cbn [run] in Hrun;
    try (apply fmap_snd_Some in Hrun as [x Hrun]).
  - eapply newPIDNamespace_inv; eauto.
  - eapply newTaskSet_inv; eauto.
  - eapply InitInode_inv; eauto.
  - eapply NewChild_inv; eauto.
  - eapply newThreadGroup_inv; eauto.
  - eapply newThread_inv; eauto.
  - eapply assignTID_inv; eauto.
  - eapply reap_inv; eauto.
Qed.

Lemma run_all_inv ops st st' :
  store_inv st -> run_all ops st = Some st' -> store_inv st'.
Proof.
  revert st. induction ops as [|o ops IH]; intros st Hst; simpl.
  - intros [= <-]. exact Hst.
  - destruct (run o st) as [st1|] eqn:E; simpl; [|discriminate].
    apply IH. eapply run_inv; eauto.
Qed.

Lemma reachable_inv st : reachable st -> store_inv st.
Proof. intros [ops H]. eapply run_all_inv; [apply store_inv_empty | exact H]. Qed.

Lemma run_all_app ops1 ops2 st :
  run_all (ops1 ++ ops2) st = (st1 ← run_all ops1 st; run_all ops2 st1).
Proof.
  revert st. induction ops1 as [|o ops1 IH]; intros st; simpl; auto.
  destruct (run o st); simpl; auto.
Qed.

Lemma reachable_step o st st' :
  reachable st -> run o st = Some st' -> reachable st'.
Proof.
  intros [ops H] Hrun. exists (ops ++ [o]).
  rewrite run_all_app, H. simpl. rewrite Hrun. reflexivity.
Qed.

Lemma ns_inv_bimap st ns : ns_inv st ns -> bimap st ns.
Proof.
  intros [B R L G]. split; [|split].
  - intros t. unfold read. split.
    + destruct (tids ns !! t) as [tid|] eqn:E; simpl; [|congruence].
      intros _. exists tid. apply B, E.
    + intros [tid H]. pose proof (R _ _ H) as [Hr _].
      apply B in H. rewrite H. simpl. lia.
  - exact B.
  - intros g [tid Hg]. destruct (G _ _ Hg) as (gn & Hgn & Hl).
    exists gn. split; auto. unfold read. rewrite Hg, Hl. reflexivity.
Qed.

(** C6. In every namespace of a store that the operations on namespaces
    have built, [tids] reads a non-zero ID exactly for the values of
    [tasks], the two maps are inverse to each other, and every thread group
    in [tgids] has the ID of its leader; every operation that succeeds
    leads to a store of which the same holds. *)
Theorem namespace_bimap (st : Store) :
  reachable st ->
  (forall a ns, namespaces st !! a = Some ns -> bimap st ns) /\
  (forall o st', run o st = Some st' ->
     forall a ns, namespaces st' !! a = Some ns -> bimap st' ns).
Proof.
  intros Hr. split.
  - intros a ns Hns. apply ns_inv_bimap.
    eapply si_ns; [apply reachable_inv, Hr | exact Hns].
  - intros o st' Hrun a ns Hns. apply ns_inv_bimap.
    eapply si_ns; [|exact Hns].
    apply reachable_inv. eapply reachable_step; eauto.
Qed.

(** No task is visible under nil in such a store. *)
Lemma reachable_nil_invisible st a ns :
  reachable st -> namespaces st !! a = Some ns -> tids ns !! nilptr = None.
Proof.
  intros Hr Hns. destruct (si_ns _ (reachable_inv _ Hr) _ _ Hns) as [B R _ _].
  destruct (tids ns !! nilptr) as [tid|] eqn:E; auto.
  apply B in E. apply R in E. destruct E as [_ E]. congruence.
Qed.

(** ** Lookups *)

(** C7. In a namespace that has an owner, the four lookups return and
    leave the store as it was, the lock included. [TaskWithID] returns nil
    for a thread ID that no task has; [IDOfTask] returns 0 for a task that
    is not visible, and nil is not visible in any store that the
    operations have built; [IDOfThreadGroup] returns 0 for a thread group
    that is not visible; [ThreadGroupWithID] returns nil for a thread ID
    that no task has and for the thread ID of a task that does not lead its
    thread group, and the thread group of a task that does. *)
Theorem lookups_total (st : Store) (a : N) (ns : PIDNamespace) (ts : TaskSet) :
  namespaces st !! a = Some ns ->
  tasksets st !! owner ns = Some ts ->
  (forall tid, TaskWithID a tid st = Some (default nilptr (tasks ns !! tid), st)) /\
  (forall tid, tasks ns !! tid = None -> TaskWithID a tid st = Some (nilptr, st)) /\
  (forall t, IDOfTask a t st = Some (read (tids ns) t, st)) /\
  (forall t, tids ns !! t = None -> IDOfTask a t st = Some (0, st)) /\
  (tids ns !! nilptr = None -> IDOfTask a nilptr st = Some (0, st)) /\
  (reachable st -> IDOfTask a nilptr st = Some (0, st)) /\
  (forall g, IDOfThreadGroup a g st = Some (read (tgids ns) g, st)) /\
  (forall g, tgids ns !! g = None -> IDOfThreadGroup a g st = Some (0, st)) /\
  (forall tid, tasks ns !! tid = None ->
     ThreadGroupWithID a tid st = Some (nilptr, st)) /\
  (forall tid t tn g,
     tasks ns !! tid = Some t -> t <> nilptr ->
     tasknodes st !! t = Some tn -> tgnodes st !! tg tn = Some g ->
     (t <> leader g -> ThreadGroupWithID a tid st = Some (nilptr, st)) /\
     (t = leader g -> ThreadGroupWithID a tid st = Some (tg tn, st))).
Proof.
  intros Hns Hts.
  assert (forall tid, TaskWithID a tid st
                      = Some (default nilptr (tasks ns !! tid), st)) as H1
    by (intros tid; apply (with_rlock (fun ns => default nilptr (tasks ns !! tid))
                             a ns ts st Hns Hts)).
  assert (forall t, IDOfTask a t st = Some (read (tids ns) t, st)) as H2
    by (intros t; apply (with_rlock (fun ns => default 0 (tids ns !! t))
                           a ns ts st Hns Hts)).
  assert (forall g, IDOfThreadGroup a g st = Some (read (tgids ns) g, st)) as H3
    by (intros g; apply (with_rlock (fun ns => default 0 (tgids ns !! g))
                           a ns ts st Hns Hts)).
  destruct (RLock_RUnlock _ _ _ Hts) as (st1 & Hl & Hu & Hn & Htn & Htg & _).
  assert (forall tid, ThreadGroupWithID a tid st =
            let t := default nilptr (tasks ns !! tid) in
            if bool_decide (t = nilptr) then Some (nilptr, st)
            else tn ← tasknodes st !! t;
                 g ← tgnodes st !! tg tn;
                 if bool_decide (t <> leader g) then Some (nilptr, st)
                 else Some (tg tn, st)) as H4.
  { intros tid. unfold ThreadGroupWithID.
    rewrite Hns. simpl. rewrite Hl. simpl. rewrite Hn, Hns. simpl.
    rewrite Htn, Htg.
    destruct (bool_decide (default nilptr (tasks ns !! tid) = nilptr)).
    - rewrite Hu. reflexivity.
    - destruct (tasknodes st !! _) as [tn|]; simpl; auto.
      destruct (tgnodes st !! _) as [g|]; simpl; auto.
      destruct (bool_decide _); rewrite Hu; reflexivity. }
  split; [exact H1|].
  split; [intros tid E; rewrite H1, E; reflexivity|].
  split; [exact H2|].
  split; [intros t E; rewrite H2; unfold read; rewrite E; reflexivity|].
  split; [intros E; rewrite H2; unfold read; rewrite E; reflexivity|].
  split; [intros Hr; rewrite H2; unfold read;
          rewrite (reachable_nil_invisible _ _ _ Hr Hns); reflexivity|].
  split; [exact H3|].
  split; [intros g E; rewrite H3; unfold read; rewrite E; reflexivity|].
  split.
  - intros tid E. rewrite H4, E. reflexivity.
  - intros tid t tn g Et Hne Htn' Hg'. rewrite H4, Et. simpl.
    rewrite bool_decide_eq_false_2 by assumption.
    rewrite Htn'. simpl. rewrite Hg'. simpl. split.
    + intros Hl'. rewrite bool_decide_eq_true_2 by assumption. reflexivity.
    + intros He. rewrite bool_decide_eq_false_2 by (intros Hc; apply Hc, He).
      reflexivity.
Qed.

(** ** The counter of namespace IDs *)

Lemma wrapU64_small z : uint64 z -> wrapU64 z = z.
Proof. unfold uint64, wrapU64. intros H. apply Z.mod_small. lia. Qed.

Lemma ids_inv_empty : ids_inv 0 empty_store.
Proof.
  split; simpl; [lia|]. intros b nb. rewrite lookup_empty. discriminate.
Qed.

Lemma ids_inv_mono n m st : n <= m -> ids_inv n st -> ids_inv m st.
Proof. intros Hle [H1 H2]. split; [lia | exact H2]. Qed.

Lemma ids_inv_frame n st st' :
  namespaces st' = namespaces st -> lastPIDNSID st' = lastPIDNSID st ->
  ids_inv n st -> ids_inv n st'.
Proof. unfold ids_inv. intros -> ->. auto. Qed.

Lemma ids_inv_replace n a ns ns' st :
  ids_inv n st -> namespaces st !! a = Some ns -> id ns' = id ns ->
  ids_inv n (set_namespaces <[a := ns']> st).
Proof.
  intros [H1 H2] Hns Hid. split; simpl; [exact H1|].
  intros b nb. rewrite lookup_insert. case_decide.
  - intros [= <-]. rewrite Hid. eauto.
  - apply H2.
Qed.

Lemma newPIDNamespace_ids n ts pa us st p st' :
  n + 1 < 2 ^ 64 -> ids_inv n st ->
  newPIDNamespace ts pa us st = Some (p, st') -> ids_inv (n + 1) st'.
Proof.
  unfold newPIDNamespace. intros Hn [H1 H2] [= <- <-].
  rewrite wrapU64_small by (unfold uint64; lia).
  split; simpl; [lia|].
  intros b nb. rewrite lookup_insert. case_decide.
  - intros [= <-]. simpl. lia.
  - intros Hb. apply H2 in Hb. lia.
Qed.

Lemma InitInode_ids n a k st st' :
  ids_inv n st -> InitInode a k st = Some st' -> ids_inv n st'.
Proof.
  unfold InitInode. intros Hi.
  destruct (namespaces st !! a) as [ns|] eqn:Hns; simpl; [|discriminate].
  intros [= <-]. eapply ids_inv_replace; eauto.
Qed.

Lemma run_ids n o st st' :
  n + 1 < 2 ^ 64 -> ids_inv n st -> run o st = Some st' -> ids_inv (n + 1) st'.
Proof.
  intros Hn Hi Hrun.
  destruct (reads_only o) eqn:Hr.
  { apply (reads_only_run _ _ _ Hr) in Hrun. subst.
    eapply ids_inv_mono; [|exact Hi]. lia. }
  destruct o; try discriminate; cbn [run] in Hrun;
    try (apply fmap_snd_Some in Hrun as [x Hrun]).
  - eapply newPIDNamespace_ids; eauto.
  - apply (ids_inv_mono n); [lia|].
    unfold newTaskSet in Hrun. simpl in Hrun.
    destruct (namespaces st !! a) as [ns|] eqn:Hns; simpl in Hrun; [|discriminate].
    injection Hrun as _ <-.
    eapply ids_inv_replace; [|exact Hns|reflexivity].
    eapply ids_inv_frame; [| |exact Hi]; reflexivity.
  - apply (ids_inv_mono n); [lia|]. eapply InitInode_ids; eauto.
  - unfold NewChild in Hrun.
    destruct (namespaces st !! a) as [ns|]; [|discriminate].
    cbn -[newPIDNamespace InitInode] in Hrun.
    destruct (newPIDNamespace _ _ _ _) as [[q st1]|] eqn:E1; [|discriminate].
    cbn -[InitInode] in Hrun.
    destruct (InitInode _ _ _) as [st2|] eqn:E2; [|discriminate].
    injection Hrun as _ <-.
    eapply InitInode_ids; [|exact E2]. eapply newPIDNamespace_ids; eauto.
  - apply (ids_inv_mono n); [lia|].
    unfold newThreadGroup in Hrun. injection Hrun as _ <-.
    eapply ids_inv_frame; [| |exact Hi]; reflexivity.
  - apply (ids_inv_mono n); [lia|].
    unfold newThread in Hrun.
    destruct (tgnodes st !! g); simpl in Hrun; [|discriminate].
    injection Hrun as _ <-.
    eapply ids_inv_frame; [| |exact Hi]; reflexivity.
  - apply (ids_inv_mono n); [lia|].
    unfold assignTID in Hrun.
    destruct (namespaces st !! a) as [ns|] eqn:Hns; simpl in Hrun; [|discriminate].
    destruct (tasknodes st !! t) as [tn|]; simpl in Hrun; [|discriminate].
    destruct (tgnodes st !! tg tn) as [g|]; simpl in Hrun; [|discriminate].
    destruct (bool_decide (is_Some _)); [discriminate|].
    destruct (bool_decide (TasksLimit <= _)); [discriminate|].
    destruct (bool_decide (maxTID < _)); [discriminate|].
    injection Hrun as _ <-.
    eapply ids_inv_replace; [exact Hi|exact Hns|reflexivity].
  - apply (ids_inv_mono n); [lia|].
    unfold reap in Hrun.
    destruct (namespaces st !! a) as [ns|] eqn:Hns; simpl in Hrun; [|discriminate].
    destruct (tids ns !! t) as [tid|]; simpl in Hrun; [|discriminate].
    destruct (tasknodes st !! t) as [tn|]; simpl in Hrun; [|discriminate].
    destruct (tgnodes st !! tg tn) as [g|]; simpl in Hrun; [|discriminate].
    injection Hrun as <-.
    eapply ids_inv_replace; [exact Hi|exact Hns|reflexivity].
Qed.

Lemma run_all_ids ops n st st' :
  n + Z.of_nat (length ops) < 2 ^ 64 -> ids_inv n st ->
  run_all ops st = Some st' -> ids_inv (n + Z.of_nat (length ops)) st'.
Proof.
  revert n st. induction ops as [|o ops IH]; intros n st Hn Hi; simpl.
  - intros [= <-]. rewrite Z.add_0_r. exact Hi.
  - destruct (run o st) as [st1|] eqn:E; simpl; [|discriminate].
    intros Hrest. simpl length in Hn.
    replace (n + Z.of_nat (S (length ops))) with ((n + 1) + Z.of_nat (length ops))
      in * by lia.
    apply (IH (n + 1) st1); auto.
    eapply run_ids; eauto. lia.
Qed.

(** C8. In a store that fewer than 2^64 - 1 operations have built,
    [NewChild] on a namespace returns a namespace at a fresh address,
    leaving every other object as it was: all its maps are empty, [last]
    is 0, [exiting] is false, its parent is the receiver, its owner is the
    receiver's, its user namespace is the one given, its ID is the next
    value of the counter, which is not 0 and differs from the ID of every
    namespace made before, and it carries an inode with the type tag
    [pid]. *)
Theorem NewChild_fresh (ops : list Op) (st : Store) (a : N) (ns : PIDNamespace)
    (k : Kernel) (userns : N) :
  run_all ops empty_store = Some st ->
  Z.of_nat (length ops) < 2 ^ 64 - 1 ->
  namespaces st !! a = Some ns ->
  exists p child st',
    NewChild a k userns st = Some (p, st') /\
    p <> nilptr /\ namespaces st !! p = None /\
    st' = mkStore (<[p := child]> (namespaces st)) (tasksets st)
            (tasknodes st) (tgnodes st) (id child) /\
    child = mkPIDNamespace (owner ns) a userns (lastPIDNSID st + 1) 0
              ∅ ∅ ∅ ∅ ∅ ∅ ∅ false newPIDNamespaceData
              (Some (mkInode (nsfsMount k) p "pid")) /\
    id child <> 0 /\
    (forall b nb, namespaces st !! b = Some nb -> id nb <> id child).
Proof.
  intros Hrun Hlen Hns.
  pose proof (run_all_ids ops 0 empty_store st) as Hi. simpl in Hi.
  specialize (Hi ltac:(lia) ids_inv_empty Hrun). destruct Hi as [Hc Hids].
  destruct (alloc_fresh (namespaces st)) as [Hfresh Hnn].
  set (p := alloc (namespaces st)) in *.
  set (child := mkPIDNamespace (owner ns) a userns (lastPIDNSID st + 1) 0
              ∅ ∅ ∅ ∅ ∅ ∅ ∅ false newPIDNamespaceData
              (Some (mkInode (nsfsMount k) p "pid"))).
  exists p, child,
    (mkStore (<[p := child]> (namespaces st)) (tasksets st)
       (tasknodes st) (tgnodes st) (id child)).
  split; [|split; [exact Hnn|split; [exact Hfresh|]]].
  - unfold NewChild, newPIDNamespace, InitInode. rewrite Hns. simpl.
    fold p. rewrite lookup_insert_eq. simpl.
    rewrite wrapU64_small by (unfold uint64; lia).
    unfold set_namespaces, set_lastPIDNSID, set_inode, nsfs_NewInode, Type_.
    simpl. rewrite insert_insert_eq. reflexivity.
  - split; [reflexivity|]. split; [reflexivity|]. simpl. split; [lia|].
    intros b nb Hb. apply Hids in Hb. lia.
Qed.

End NamespaceProofs.

(** ** Runs of the namespace operations *)

Section NamespaceRuns.
Import threads.

Lemma history1_runs : @run_all no_data history1 empty_store = Some store1.
Proof. vm_compute. reflexivity. Qed.

(** The store of [history1]. *)
Lemma namespace_bimap_witness :
  reachable store1 /\
  (forall a ns, namespaces store1 !! a = Some ns -> bimap store1 ns).
Proof.
  assert (reachable store1) as H
    by (exists history1; vm_compute; reflexivity).
  split; [exact H|].
  exact (proj1 (namespace_bimap store1 H)).
Defined.

(** The lookups in the child namespace of [store1]. *)
Lemma lookups_total_witness :
  namespaces store1 !! 2%N = Some child1 /\
  tasksets store1 !! owner child1 = Some taskset1 /\
  (forall tid, TaskWithID 2 tid store1
               = Some (default nilptr (tasks child1 !! tid), store1)).
Proof.
  assert (namespaces store1 !! 2%N = Some child1) as H1
    by (vm_compute; reflexivity).
  assert (tasksets store1 !! owner child1 = Some taskset1) as H2
    by (vm_compute; reflexivity).
  split; [exact H1|]. split; [exact H2|].
  exact (proj1 (lookups_total store1 2 child1 taskset1 H1 H2)).
Defined.

(** The namespace that [NewRootPIDNamespace] returns, before [newTaskSet]
    has given it an owner: none of the four lookups returns, each
    dereferences the nil owner when it takes the lock; after [newTaskSet]
    the same lookups return nil and 0. *)
Lemma lookups_panic_without_owner :
  match @NewRootPIDNamespace no_data 7 empty_store with
  | Some (a, st) =>
      Some (@owner no_data <$> @namespaces no_data st !! a,
            fst <$> @TaskWithID no_data a 1 st,
            fst <$> @IDOfTask no_data a 1 st,
            fst <$> @IDOfThreadGroup no_data a 1 st,
            fst <$> @ThreadGroupWithID no_data a 1 st)
  | None => None
  end = Some (Some nilptr, None, None, None, None) /\
  match @NewRootPIDNamespace no_data 7 empty_store with
  | Some (a, st) =>
      match @newTaskSet no_data a st with
      | Some (_, st) =>
          Some (fst <$> @TaskWithID no_data a 1 st,
                fst <$> @IDOfTask no_data a 1 st,
                fst <$> @IDOfThreadGroup no_data a 1 st,
                fst <$> @ThreadGroupWithID no_data a 1 st)
      | None => None
      end
  | None => None
  end = Some (Some nilptr, Some 0, Some 0, Some nilptr).
Proof. vm_compute. split; reflexivity. Qed.

(** Scenario 7 of the spec, on [store1]. *)
Example reap_then_lookup :
  (st ← reap 2 1 store1;
   '(i, st) ← IDOfTask 2 1 st;
   '(t, st) ← TaskWithID 2 1 st;
   Some (i, t)) = Some (0, nilptr) /\
  fst <$> IDOfTask 2 1 store1 = Some 1 /\
  fst <$> IDOfTask 2 nilptr store1 = Some 0 /\
  fst <$> ThreadGroupWithID 2 1 store1 = Some 1%N /\
  fst <$> ThreadGroupWithID 2 2 store1 = Some nilptr.
Proof. vm_compute. repeat split; reflexivity. Qed.

(** A grandchild of the root of [store1]. *)
Lemma NewChild_fresh_witness :
  @run_all no_data history1 empty_store = Some store1 /\
  Z.of_nat (length history1) < 2 ^ 64 - 1 /\
  namespaces store1 !! 2%N = Some child1 /\
  exists p child st',
    NewChild 2 (mkKernel 9) 8 store1 = Some (p, st') /\
    p <> nilptr /\ namespaces store1 !! p = None /\
    st' = mkStore (<[p := child]> (namespaces store1)) (tasksets store1)
            (tasknodes store1) (tgnodes store1) (id child) /\
    child = mkPIDNamespace (owner child1) 2 8 (lastPIDNSID store1 + 1) 0
              ∅ ∅ ∅ ∅ ∅ ∅ ∅ false newPIDNamespaceData
              (Some (mkInode 9 p "pid")) /\
    id child <> 0 /\
    (forall b nb, namespaces store1 !! b = Some nb -> id nb <> id child).
Proof.
  assert (@run_all no_data history1 empty_store = Some store1) as H1
    by (vm_compute; reflexivity).
  assert (Z.of_nat (length history1) < 2 ^ 64 - 1) as H2
    by (vm_compute; reflexivity).
  assert (namespaces store1 !! 2%N = Some child1) as H3
    by (vm_compute; reflexivity).
  split; [exact H1|]. split; [exact H2|]. split; [exact H3|].
  exact (NewChild_fresh history1 store1 2 child1 (mkKernel 9) 8 H1 H2 H3).
Defined.

End NamespaceRuns.

(** * Further properties of the block core *)

Section BlockExtras.
Context {K : Collaborators}.

(** The world in which a select takes its case is the one at its entry
    after some events of the environment. *)
Lemma select_wait_env pick tc evs w wk w' :
  select_wait pick tc evs w = Some (wk, w') ->
  exists evs0, In wk (ready tc (env_steps evs0 w)) /\
               w' = receive wk (env_steps evs0 w).
Proof.
  revert w. induction evs as [|e evs IH]; intros w;
    cbn [select_wait]; destruct (ready tc w) as [|r rs] eqn:E.
  - discriminate.
  - intros [= <- <-]. exists []. simpl. rewrite E. split; [apply pick_In | reflexivity].
  - intros H. destruct (IH _ H) as (evs0 & Hin & ->). exists (e :: evs0). auto.
  - intros [= <- <-]. exists []. simpl. rewrite E. split; [apply pick_In | reflexivity].
Qed.

Lemma env_steps_btc evs w :
  taken (blockingTimerChan (task (env_steps evs w)))
    = taken (blockingTimerChan (task w)) /\
  (len (blockingTimerChan (task w))
     <= len (blockingTimerChan (task (env_steps evs w))))%nat.
Proof.
  revert w. induction evs as [|e evs IH]; intros w; simpl; [split; lia|].
  destruct (IH (env_step e w)) as [H1 H2].
  assert (taken (blockingTimerChan (task (env_step e w)))
            = taken (blockingTimerChan (task w)) /\
          (len (blockingTimerChan (task w))
             <= len (blockingTimerChan (task (env_step e w))))%nat) as [H3 H4].
  { destruct e; simpl; try (split; lia).
    - unfold Timer_fire. destruct (Enabled _); simpl;
        [split; [apply chan_send_taken | apply chan_send_len] | split; lia].
    - destruct (clockTimer w) as [tm|]; [|split; lia].
      unfold Timer_fire. destruct (Enabled _); simpl;
        [split; [apply chan_send_taken | apply chan_send_len] | split; lia]. }
  split; [congruence | lia].
Qed.

(** What [block] has done when its select is entered. *)
Lemma at_select_task s tc w :
  mm (task (at_select s tc w)) = as_Deactivate (mm (task w)) /\
  gosched (task (at_select s tc w)) = account_Enter TaskGoroutineBlockedInterruptible (gosched (task w)) /\
  yields (at_select s tc w) =
    (if (0 <? timerChan_len tc
               (env_steps (s_pre s)
                  (set_task prepareSleep (env_steps (s_enter s) w))))%nat
     then S (yields w) else yields w) /\
  taken (blockingTimerChan (task (at_select s tc w)))
    = taken (blockingTimerChan (task w)) /\
  (len (blockingTimerChan (task w))
     <= len (blockingTimerChan (task (at_select s tc w))))%nat.
Proof.
  unfold at_select.
  set (w1 := env_steps (s_enter s) w).
  set (w2 := set_task prepareSleep w1).
  set (w3 := env_steps (s_pre s) w2).
  set (w4 := if (0 <? timerChan_len tc w3)%nat then Gosched w3 else w3).
  destruct (env_steps_frame (s_enter s) w) as [a1 a2 _ a4].
  destruct (env_steps_frame (s_pre s) w2) as [b1 b2 _ b4].
  destruct (env_steps_frame (s_yield s) w4) as [c1 c2 _ c4].
  destruct (env_steps_btc (s_enter s) w) as [d1 d2].
  destruct (env_steps_btc (s_pre s) w2) as [e1 e2].
  destruct (env_steps_btc (s_yield s) w4) as [f1 f2].
  fold w1 in a1, a2, a4, d1, d2. fold w3 in b1, b2, b4, e1, e2.
  assert (task w4 = task w3) as Ht by (subst w4; destruct (_ <? _)%nat; reflexivity).
  rewrite Ht in *.
  assert (mm (task w2) = as_Deactivate (mm (task w1))) as Hm by reflexivity.
  assert (gosched (task w2) = account_Enter TaskGoroutineBlockedInterruptible (gosched (task w1))) as Hg by reflexivity.
  assert (yields w2 = yields w1) as Hy by reflexivity.
  assert (blockingTimerChan (task w2) = blockingTimerChan (task w1)) as Hb by reflexivity.
  rewrite Hb in *.
  repeat split; try congruence; try lia.
  rewrite c4. subst w4. destruct (_ <? _)%nat; simpl; congruence.
Qed.

(** What a [block] that slept has done to the task when it returns. *)
Lemma block_slept s tc w err w' :
  len (C w) = 0%nat -> block s tc w = Some (err, w') ->
  mm (task w') = as_Activate (as_Deactivate (mm (task w))) /\
  gosched (task w') = account_Leave TaskGoroutineBlockedInterruptible (account_Enter TaskGoroutineBlockedInterruptible (gosched (task w))) /\
  yields w' = yields (at_select s tc w).
Proof.
  intros HC. unfold block. apply chan_recv_None in HC. rewrite HC.
  destruct (select_wait _ _ _ _) as [[wk w1]|] eqn:Es; [|discriminate].
  destruct (select_wait_inv _ _ _ _ _ _ Es) as (w0 & _ & [f1 f2 _ f4] & _ & ->).
  destruct (at_select_task s tc w) as (Hm & Hg & _).
  destruct (env_steps_frame (s_woken s) (receive wk w0)) as [g1 g2 _ g4].
  assert (mm (task (receive wk w0)) = mm (task w0) /\
          gosched (task (receive wk w0)) = gosched (task w0) /\
          yields (receive wk w0) = yields w0) as (r1 & r2 & r4)
    by (destruct wk; repeat split; reflexivity).
  destruct wk; intros [= <- <-]; simpl; simpl in g1, g2, g4, r1, r2, r4;
    repeat split; congruence.
Qed.

(** X1. A Block-family call that finds [C] empty when it enters [block]
    deactivates the address space and enters the blocked-interruptible
    state once, and activates and leaves once before it returns, whatever
    woke it; a call that finds a value touches neither.  Over collaborators
    whose activation undoes the deactivation and whose leave undoes the
    enter, the address space and the account are on return as the call
    found them. *)
Theorem sleep_is_undone (il : Interleaving) (c : BlockCall) (w : World)
    (err : error) (w' : World) :
  call il c w = Some (err, w') ->
  (if (0 <? len (C (block_entry il c w)))%nat
   then mm (task w') = mm (task w) /\ gosched (task w') = gosched (task w)
   else mm (task w') = as_Activate (as_Deactivate (mm (task w))) /\
        gosched (task w') =
          account_Leave TaskGoroutineBlockedInterruptible (account_Enter TaskGoroutineBlockedInterruptible (gosched (task w)))) /\
  (as_Activate (as_Deactivate (mm (task w))) = mm (task w) ->
   mm (task w') = mm (task w)) /\
  (account_Leave TaskGoroutineBlockedInterruptible (account_Enter TaskGoroutineBlockedInterruptible (gosched (task w))) = gosched (task w) ->
   gosched (task w') = gosched (task w)).
Proof.
  intros Hcall. rewrite call_unfold in Hcall.
  destruct (block _ _ _) as [[e w1]|] eqn:Hb; [|discriminate].
  injection Hcall as -> <-.
  destruct (block_entry_frame il c w) as [a1 a2 _ _].
  destruct (call_exit_frame il c err w1) as [b1 b2 _ _].
  assert (if (0 <? len (C (block_entry il c w)))%nat
          then mm (task w1) = mm (task (block_entry il c w)) /\
               gosched (task w1) = gosched (task (block_entry il c w))
          else mm (task w1) = as_Activate (as_Deactivate (mm (task (block_entry il c w)))) /\
               gosched (task w1) =
                 account_Leave TaskGoroutineBlockedInterruptible (account_Enter TaskGoroutineBlockedInterruptible (gosched (task (block_entry il c w)))))
    as H.
  { destruct (Nat.ltb_spec 0 (len (C (block_entry il c w)))) as [Hpos|Hz].
    - rewrite (block_fast _ _ _ Hpos) in Hb. injection Hb as _ <-.
      split; reflexivity.
    - assert (len (C (block_entry il c w)) = 0%nat) as Hz' by lia.
      destruct (block_slept _ _ _ _ _ Hz' Hb) as (H1 & H2 & _). auto. }
  destruct (0 <? len (C (block_entry il c w)))%nat; destruct H as [H1 H2];
    rewrite b1, b2, H1, H2, a1, a2; repeat split; auto; congruence.
Qed.

(** X2. A call of [block] that returns has received exactly one value, from
    the channel that its error names: from [C] when it returns nil, from
    the interrupt channel when it returns [ErrInterrupted], from the timer
    channel, which then was passed to it, when it returns [ETIMEDOUT]; it
    has received nothing from the other two. *)
Theorem block_takes_one_value (s : Sched) (tc : TimerChan) (w : World)
    (err : error) (w' : World) :
  block s tc w = Some (err, w') ->
  match err with
  | None =>
      taken (C w') = S (taken (C w)) /\
      taken (interruptChan (task w')) = taken (interruptChan (task w)) /\
      taken (blockingTimerChan (task w')) = taken (blockingTimerChan (task w))
  | Some ErrInterrupted =>
      taken (C w') = taken (C w) /\
      taken (interruptChan (task w')) = S (taken (interruptChan (task w))) /\
      taken (blockingTimerChan (task w')) = taken (blockingTimerChan (task w))
  | Some ETIMEDOUT =>
      tc = BlockingTimerChan /\
      taken (C w') = taken (C w) /\
      taken (interruptChan (task w')) = taken (interruptChan (task w)) /\
      taken (blockingTimerChan (task w')) = S (taken (blockingTimerChan (task w)))
  end.
Proof.
  intros Hb. pose proof (block_post_block _ _ _ _ _ Hb) as [HC _ _ HI _].
  assert (taken (blockingTimerChan (task w')) =
          match err with
          | Some ETIMEDOUT => S (taken (blockingTimerChan (task w)))
          | _ => taken (blockingTimerChan (task w))
          end /\ (err = Some ETIMEDOUT -> tc = BlockingTimerChan)) as [HT Htc].
  { unfold block in Hb. destruct (chan_recv (C w)) as [c0|].
    - injection Hb as <- <-. split; [reflexivity | discriminate].
    - destruct (select_wait _ _ _ _) as [[wk w1]|] eqn:Es; [|discriminate].
      destruct (select_wait_env _ _ _ _ _ _ Es) as (evs0 & Hin & ->).
      destruct (at_select_task s tc w) as (_ & _ & _ & Ht & _).
      destruct (env_steps_btc evs0 (at_select s tc w)) as [Ht0 _].
      set (w0 := env_steps evs0 (at_select s tc w)) in *.
      destruct (env_steps_btc (s_woken s) (receive wk w0)) as [Ht1 _].
      destruct wk; injection Hb as <- <-; simpl in *.
      + split; [congruence | discriminate].
      + split; [congruence | discriminate].
      + apply ready_timer in Hin. destruct tc; simpl in Hin; [lia|].
        split; [|reflexivity]. rewrite Ht1, chan_drain_taken.
        apply Nat.ltb_lt in Hin. rewrite Hin. congruence. }
  destruct err as [[]|]; auto.
Qed.

(** X3. Without a deadline no call times out: [Block] and the calls with
    [haveDeadline] or [haveTimeout] false return nil or [ErrInterrupted]
    only; and such a [BlockWithTimeout] is [Block] and returns its
    [timeout] argument as it is. *)
Theorem no_timeout_without_deadline (il : Interleaving) (w : World) :
  (forall c err w', takes_deadline c = false -> call il c w = Some (err, w') ->
     err = None \/ err = Some ErrInterrupted) /\
  (forall timeout rem err w',
     BlockWithTimeout il false timeout w = Some ((rem, err), w') ->
     rem = timeout /\ Block (i_block il) w = Some (err, w')).
Proof.
  split.
  - intros c err w' Hd Hcall. rewrite call_unfold in Hcall.
    unfold timerChan_of in Hcall. rewrite Hd in Hcall.
    destruct (block _ _ _) as [[e w1]|] eqn:Hb; [|discriminate].
    injection Hcall as -> _.
    apply block_NilChan_no_timeout in Hb.
    destruct err as [[]|]; auto. congruence.
  - intros timeout rem err w'. unfold BlockWithTimeout, Block. cbn [negb].
    destruct (block _ _ _) as [[e w1]|]; [|discriminate].
    intros [= <- <- <-]. auto.
Qed.

(** X4. [block] yields the processor at most once, and only after the fast
    path has failed and with a timer channel: never when [C] holds a value
    and never when the timer channel is nil.  When [C] is empty and the timer
    channel already holds an expiry, the call yields exactly once and
    returns without parking. *)
Theorem stale_timer_yield (s : Sched) (tc : TimerChan) (w : World) :
  (forall err w', block s tc w = Some (err, w') ->
     (yields w <= yields w' <= S (yields w))%nat /\
     (tc = NilChan \/ (0 < len (C w))%nat -> yields w' = yields w)) /\
  (tc = BlockingTimerChan -> len (C w) = 0%nat ->
   (0 < len (blockingTimerChan (task w)))%nat ->
   exists err w', block s tc w = Some (err, w') /\ yields w' = S (yields w)).
Proof.
  split.
  - intros err w' Hb.
    destruct (Nat.ltb_spec 0 (len (C w))) as [Hpos|Hz].
    + rewrite (block_fast _ _ _ Hpos) in Hb. injection Hb as _ <-. simpl.
      split; [lia | auto].
    + assert (len (C w) = 0%nat) as Hz' by lia.
      destruct (block_slept _ _ _ _ _ Hz' Hb) as (_ & _ & Hy).
      destruct (at_select_task s tc w) as (_ & _ & Hy' & _).
      rewrite Hy, Hy'. split.
      * destruct (_ <? _)%nat; lia.
      * intros [->|Hpos]; [reflexivity | lia].
  - intros -> HC Hlen.
    destruct (at_select_task s BlockingTimerChan w) as (_ & _ & Hy & _ & Hl).
    assert (0 < timerChan_len BlockingTimerChan (at_select s BlockingTimerChan w))%nat
      as Hready by (simpl; lia).
    destruct (select_wait_ready (s_pick s) BlockingTimerChan (s_parked s)
                (at_select s BlockingTimerChan w)) as (wk & _ & Hs).
    { intros E. apply ready_timer in Hready. rewrite E in Hready. destruct Hready. }
    assert (exists err w', block s BlockingTimerChan w = Some (err, w')) as (err & w' & Hb).
    { unfold block. apply chan_recv_None in HC. rewrite HC, Hs.
      destruct wk; eauto. }
    exists err, w'. split; [exact Hb|].
    destruct (block_slept _ _ _ _ _ HC Hb) as (_ & _ & Hy2).
    rewrite Hy2, Hy.
    assert (0 < timerChan_len BlockingTimerChan
                  (env_steps (s_pre s)
                     (set_task prepareSleep (env_steps (s_enter s) w))))%nat as Hc.
    { simpl.
      destruct (env_steps_btc (s_enter s) w) as [_ H1].
      destruct (env_steps_btc (s_pre s)
                  (set_task prepareSleep (env_steps (s_enter s) w))) as [_ H2].
      simpl in H2. lia. }
    apply Nat.ltb_lt in Hc. rewrite Hc. reflexivity.
Qed.

(** X5. On a single-slot interrupt channel interrupts coalesce:
    [interrupt] leaves the task interrupted, a second [interrupt] changes
    nothing in the channel, and one [unsetInterrupted] clears the task
    however many interrupts went before; [unsetInterrupted] of a task that
    is not interrupted changes nothing. *)
Theorem interrupts_coalesce (t : Task) :
  cap (interruptChan t) = 1%nat -> chan_wf (interruptChan t) ->
  interrupted (interrupt t) = true /\
  interrupted (interruptSelf t) = true /\
  interruptChan (interrupt (interrupt t)) = interruptChan (interrupt t) /\
  interrupted (unsetInterrupted t) = false /\
  interrupted (unsetInterrupted (interrupt (interrupt t))) = false /\
  (interrupted t = false -> unsetInterrupted t = t).
Proof.
  destruct t as [p0 m0 g0 gt0 [l c tk] bt btc]. unfold chan_wf. simpl.
  intros -> Hwf.
  assert (l = 0 \/ l = 1)%nat as [-> | ->] by lia; repeat split; try reflexivity.
  discriminate.
Qed.

(** X6. For a timeout that is not negative and a clock that has not run
    backwards, the remaining duration that [BlockWithTimeout(C, true,
    timeout)] returns lies between 0 and the timeout, and is the timeout
    minus the elapsed time, clamped at zero, unless the call timed out. *)
Theorem remaining_within_timeout (il : Interleaving) (timeout : Z) (w : World)
    (rem : Z) (err : error) (w' : World) :
  BlockWithTimeout il true timeout w = Some ((rem, err), w') ->
  0 <= timeout < 2 ^ 63 ->
  0 <= Time_Sub (now w') (now w) < 2 ^ 63 ->
  0 <= rem <= timeout /\
  (err <> Some ETIMEDOUT ->
   rem = Z.max 0 (timeout - Time_Sub (now w') (now w))).
Proof.
  intros H Ht He. destruct (remaining_timeout _ _ _ _ _ _ H) as (H0 & Hpos & Hfull).
  destruct (decide (err = Some ETIMEDOUT)) as [Heq|Hne].
  - rewrite (H0 Heq). split; [lia | congruence].
  - destruct (Hfull Hne) as [_ Hin].
    assert (int64 (timeout - Time_Sub (now w') (now w))) as Hr
      by (unfold int64; lia).
    specialize (Hin Hr). split; [lia | auto].
Qed.

End BlockExtras.

(** ** Runs over the reference collaborators *)

(** The call that an event wakes after 30 ns: the address space and the
    account are as before the call. *)
Lemma sleep_is_undone_witness :
  call il_notified (CallBlockWithTimeout true 100) (world0 0 0)
    = Some (None, notified_end) /\
  mm (task notified_end) = mm (task (world0 0 0)) /\
  gosched (task notified_end) = gosched (task (world0 0 0)).
Proof.
  assert (call il_notified (CallBlockWithTimeout true 100) (world0 0 0)
          = Some (None, notified_end)) as H by (vm_compute; reflexivity).
  split; [exact H|].
  destruct (sleep_is_undone _ _ _ _ _ H) as (_ & Hm & Hg).
  split; [apply Hm | apply Hg]; reflexivity.
Defined.

(** A parked [block] that an interrupt wakes has received from the
    interrupt channel alone. *)
Lemma block_takes_one_value_witness :
  exists w',
    block (i_block il_interrupted) NilChan (world0 0 0)
      = Some (Some ErrInterrupted, w') /\
    taken (C w') = taken (C (world0 0 0)) /\
    taken (interruptChan (task w'))
      = S (taken (interruptChan (task (world0 0 0)))) /\
    taken (blockingTimerChan (task w'))
      = taken (blockingTimerChan (task (world0 0 0))).
Proof.
  pose (w' := ltac:(let t := eval vm_compute in
                      (default (world0 0 0)
                         (snd <$> @block reference (i_block il_interrupted)
                                    NilChan (world0 0 0)))
                    in exact t)).
  exists w'.
  assert (block (i_block il_interrupted) NilChan (world0 0 0)
          = Some (Some ErrInterrupted, w')) as H by (vm_compute; reflexivity).
  split; [exact H|].
  exact (block_takes_one_value _ _ _ _ _ H).
Defined.

(** [Block] interrupted while parked. *)
Lemma no_timeout_without_deadline_witness :
  exists err w',
    call il_interrupted CallBlock (world0 0 0) = Some (err, w') /\
    (err = None \/ err = Some ErrInterrupted).
Proof.
  pose (w' := ltac:(let t := eval vm_compute in
                      (default (world0 0 0)
                         (snd <$> @call reference il_interrupted CallBlock
                                    (world0 0 0)))
                    in exact t)).
  exists (Some ErrInterrupted), w'.
  assert (call il_interrupted CallBlock (world0 0 0)
          = Some (Some ErrInterrupted, w')) as H by (vm_compute; reflexivity).
  split; [exact H|].
  exact (proj1 (no_timeout_without_deadline il_interrupted (world0 0 0))
           CallBlock _ _ eq_refl H).
Defined.

(** [block] entered with the timer already expired. *)
Lemma stale_timer_yield_witness :
  let w := block_entry il_expired (CallBlockWithDeadline true 5) (world0 0 0) in
  len (C w) = 0%nat /\
  (0 < len (blockingTimerChan (task w)))%nat /\
  exists err w',
    block (i_block il_expired) BlockingTimerChan w = Some (err, w') /\
    yields w' = S (yields w).
Proof.
  intros w.
  assert (len (C w) = 0%nat) as H0 by reflexivity.
  assert (0 < len (blockingTimerChan (task w)))%nat as H1 by (vm_compute; lia).
  split; [exact H0|]. split; [exact H1|].
  exact (proj2 (stale_timer_yield (i_block il_expired) BlockingTimerChan w)
           eq_refl H0 H1).
Defined.

(** The task of the reference world. *)
Lemma interrupts_coalesce_witness :
  cap (interruptChan task0) = 1%nat /\
  chan_wf (interruptChan task0) /\
  @interrupted reference (interrupt task0) = true /\
  @interrupted reference (unsetInterrupted (interrupt (interrupt task0))) = false.
Proof.
  assert (cap (interruptChan task0) = 1%nat) as H by reflexivity.
  assert (chan_wf (interruptChan task0)) as H0 by (unfold chan_wf; simpl; lia).
  split; [exact H|]. split; [exact H0|].
  destruct (interrupts_coalesce task0 H H0) as (H1 & _ & _ & _ & H5 & _).
  split; [exact H1 | exact H5].
Defined.

(** The call with 100 ns of timeout that an event wakes 30 ns later. *)
Lemma remaining_within_timeout_witness :
  BlockWithTimeout il_notified true 100 (world0 0 0)
    = Some ((70, None), notified_end) /\
  0 <= 100 < 2 ^ 63 /\
  0 <= @Time_Sub reference (now notified_end) (now (world0 0 0)) < 2 ^ 63 /\
  0 <= 70 <= 100.
Proof.
  assert (BlockWithTimeout il_notified true 100 (world0 0 0)
          = Some ((70, None), notified_end)) as H by (vm_compute; reflexivity).
  assert (0 <= 100 < 2 ^ 63) as H0 by lia.
  assert (0 <= @Time_Sub reference (now notified_end) (now (world0 0 0)) < 2 ^ 63) as H1
    by (vm_compute; split; [discriminate | reflexivity]).
  split; [exact H|]. split; [exact H0|]. split; [exact H1|].
  exact (proj1 (remaining_within_timeout _ _ _ _ _ _ H H0 H1)).
Defined.

(** * Blocking on a waitable *)

Section WaiterProofs.
Context {K : Collaborators}.
Context {Waitable : Type}.
Variables EventRegister EventUnregister : Waitable -> Waitable.
Variable entryCap : nat.

(** X7. [BlockOn] waits on the channel of its own entry, which is new: it
    returns true exactly when it has received one value from that channel
    and false when it has received none; it never times out, so that after
    false the task is interrupted; the entry is unregistered on both
    returns. *)
Theorem BlockOn_result (reg : list EnvEvent) (s : Sched) (q : Waitable)
    (w : World) (b : bool) (q' : Waitable) (w' : World) :
  BlockOn EventRegister EventUnregister entryCap reg s q w = Some (b, q', w') ->
  chan_wf (interruptChan (task w)) ->
  q' = EventUnregister (EventRegister q) /\
  taken (C w') = (if b then 1%nat else 0%nat) /\
  cap (C w') = entryCap /\
  (b = false -> interrupted (task w') = true) /\
  (b = true ->
   taken (interruptChan (task w')) = taken (interruptChan (task w))).
Proof.
  unfold BlockOn, Block. intros H Hwf.
  set (w1 := env_steps reg (set_C (fun _ => NewChannelEntry entryCap) w)) in *.
  destruct (block s NilChan w1) as [[err w2]|] eqn:Hb; [|discriminate].
  injection H as <- <- <-.
  pose proof (env_steps_chan reg (set_C (fun _ => NewChannelEntry entryCap) w))
    as [c1 _ c3 c4 _ _ c7]. fold w1 in c1, c3, c4, c7. simpl in c1, c3, c4, c7.
  pose proof (block_post_block _ _ _ _ _ Hb) as [p1 _ _ p4 p5].
  pose proof (block_NilChan_no_timeout _ _ _ _ Hb) as Hnt.
  assert (cap (C w2) = cap (C w1)) as Hcap.
  { unfold block in Hb. destruct (chan_recv (C w1)) as [c0|] eqn:E.
    - injection Hb as _ <-. unfold chan_recv in E.
      destruct (len (C w1)); [discriminate|]. injection E as <-. reflexivity.
    - destruct (select_wait _ _ _ _) as [[wk w3]|] eqn:Es; [|discriminate].
      destruct (select_wait_inv _ _ _ _ _ _ Es) as (w0 & [a1 _ a3 _ _ _ _] & _ & _ & ->).
      destruct (at_select_chan s NilChan w1) as [b1 _ b3 _ _ _ _].
      assert (cap (C (receive wk w0)) = cap (C w0)) as Hr
        by (destruct wk; simpl; auto using chan_drain_cap).
      destruct (env_steps_chan (s_woken s) (receive wk w0)) as [_ _ d3 _ _ _ _].
      destruct wk; injection Hb as _ <-; simpl in *; congruence. }
  split; [reflexivity|]. split; [|split; [|split]].
  - rewrite p1, c1. destruct err as [e|]; [|reflexivity].
    rewrite bool_decide_eq_false_2 by discriminate. reflexivity.
  - rewrite Hcap, c3. reflexivity.
  - intros Hf. apply bool_decide_eq_false in Hf.
    apply interrupted_len. apply p5; [auto|].
    right. destruct err as [[]|]; congruence.
  - intros Ht. apply bool_decide_eq_true in Ht. subst err.
    rewrite p4. exact c4.
Qed.

(** X8. [BlockWithTimeoutOn] returns true exactly when it has received one
    value from the channel of its entry; the remaining duration is never
    negative; it returns false with time remaining only when the task is
    interrupted; the entry is unregistered on every return. *)
Theorem BlockWithTimeoutOn_result (reg : list EnvEvent) (il : Interleaving)
    (timeout : Z) (q : Waitable) (w : World)
    (rem : Z) (b : bool) (q' : Waitable) (w' : World) :
  BlockWithTimeoutOn EventRegister EventUnregister entryCap reg il timeout q w
    = Some ((rem, b), q', w') ->
  chan_wf (interruptChan (task w)) ->
  q' = EventUnregister (EventRegister q) /\
  taken (C w') = (if b then 1%nat else 0%nat) /\
  0 <= rem /\
  (b = false -> rem <> 0 -> interrupted (task w') = true).
Proof.
  unfold BlockWithTimeoutOn. intros H Hwf.
  set (w1 := env_steps reg (set_C (fun _ => NewChannelEntry entryCap) w)) in *.
  destruct (BlockWithTimeout il true timeout w1) as [[[r err] w2]|] eqn:Hb;
    [|discriminate].
  injection H as <- <- <- <-.
  pose proof (env_steps_chan reg (set_C (fun _ => NewChannelEntry entryCap) w))
    as [c1 _ _ _ _ _ c7]. fold w1 in c1, c7. simpl in c1, c7.
  destruct (remaining_timeout _ _ _ _ _ _ Hb) as (Hz & Hpos & _).
  pose proof (call_post _ _ _ _ _ (BlockWithTimeout_call _ _ _ _ _ _ _ Hb))
    as [p1 _ _ _ p5].
  split; [reflexivity|]. split; [|split; [exact Hpos|]].
  - rewrite p1, c1. destruct err as [e|]; [|reflexivity].
    rewrite bool_decide_eq_false_2 by discriminate. reflexivity.
  - intros Hf Hr. apply bool_decide_eq_false in Hf.
    apply interrupted_len. apply p5; [auto|].
    right. destruct err as [[]|]; try congruence.
    exfalso. apply Hr. apply Hz. reflexivity.
Qed.

End WaiterProofs.

(** A waitable that counts its registered entries; it notifies while the
    task is parked. *)
Lemma BlockOn_result_witness :
  exists w',
    BlockOn S Nat.pred 1 [] (i_block il_notified) 0%nat (world0 0 0)
      = Some (true, 0%nat, w') /\
    chan_wf (interruptChan (task (world0 0 0))) /\
    taken (C w') = 1%nat.
Proof.
  pose (w' := ltac:(let t := eval vm_compute in
                      (default (world0 0 0)
                         (snd <$> @BlockOn reference nat S Nat.pred 1 []
                                    (i_block il_notified) 0%nat (world0 0 0)))
                    in exact t)).
  exists w'.
  assert (BlockOn S Nat.pred 1 [] (i_block il_notified) 0%nat (world0 0 0)
          = Some (true, 0%nat, w')) as H by (vm_compute; reflexivity).
  assert (chan_wf (interruptChan (task (world0 0 0)))) as H0
    by (unfold chan_wf; simpl; lia).
  split; [exact H|]. split; [exact H0|].
  exact (proj1 (proj2 (BlockOn_result _ _ _ _ _ _ _ _ _ _ H H0))).
Defined.

(** The same waitable with a task that is interrupted while parked: the
    call returns false with 60 ns remaining. *)
Lemma BlockWithTimeoutOn_result_witness :
  exists w',
    BlockWithTimeoutOn S Nat.pred 1 [] il_interrupted 100 0%nat (world0 0 0)
      = Some ((60, false), 0%nat, w') /\
    chan_wf (interruptChan (task (world0 0 0))) /\
    @interrupted reference (task w') = true.
Proof.
  pose (w' := ltac:(let t := eval vm_compute in
                      (default (world0 0 0)
                         (snd <$> @BlockWithTimeoutOn reference nat S Nat.pred 1 []
                                    il_interrupted 100 0%nat (world0 0 0)))
                    in exact t)).
  exists w'.
  assert (BlockWithTimeoutOn S Nat.pred 1 [] il_interrupted 100 0%nat (world0 0 0)
          = Some ((60, false), 0%nat, w')) as H by (vm_compute; reflexivity).
  assert (chan_wf (interruptChan (task (world0 0 0)))) as H0
    by (unfold chan_wf; simpl; lia).
  split; [exact H|]. split; [exact H0|].
  refine (proj2 (proj2 (proj2 (BlockWithTimeoutOn_result _ _ _ _ _ _ _ _ _ _ _ _ H H0)))
            eq_refl _).
  discriminate.
Defined.

(** * Further properties of the PID namespaces *)

Section NamespaceExtras.
Import threads.
Context {D : NamespaceData}.

(** ** The lookups, computed *)

Lemma TaskWithID_eq a ns ts st tid :
  namespaces st !! a = Some ns -> tasksets st !! owner ns = Some ts ->
  TaskWithID a tid st = Some (default nilptr (tasks ns !! tid), st).
Proof.
  intros Hns Hts.
  apply (with_rlock (fun ns => default nilptr (tasks ns !! tid)) a ns ts st Hns Hts).
Qed.

Lemma IDOfTask_eq a ns ts st t :
  namespaces st !! a = Some ns -> tasksets st !! owner ns = Some ts ->
  IDOfTask a t st = Some (read (tids ns) t, st).
Proof.
  intros Hns Hts.
  apply (with_rlock (fun ns => default 0 (tids ns !! t)) a ns ts st Hns Hts).
Qed.

Lemma IDOfThreadGroup_eq a ns ts st g :
  namespaces st !! a = Some ns -> tasksets st !! owner ns = Some ts ->
  IDOfThreadGroup a g st = Some (read (tgids ns) g, st).
Proof.
  intros Hns Hts.
  apply (with_rlock (fun ns => default 0 (tgids ns !! g)) a ns ts st Hns Hts).
Qed.

Lemma ThreadGroupWithID_eq a ns ts st tid :
  namespaces st !! a = Some ns -> tasksets st !! owner ns = Some ts ->
  ThreadGroupWithID a tid st =
    let t := default nilptr (tasks ns !! tid) in
    if bool_decide (t = nilptr) then Some (nilptr, st)
    else tn ← tasknodes st !! t;
         g ← tgnodes st !! tg tn;
         if bool_decide (t <> leader g) then Some (nilptr, st)
         else Some (tg tn, st).
Proof.
  intros Hns Hts.
  destruct (RLock_RUnlock _ _ _ Hts) as (st1 & Hl & Hu & Hn & Htn & Htg & _).
  unfold ThreadGroupWithID.
  rewrite Hns. simpl. rewrite Hl. simpl. rewrite Hn, Hns. simpl.
  rewrite Htn, Htg.
  destruct (bool_decide (default nilptr (tasks ns !! tid) = nilptr)).
  - rewrite Hu. reflexivity.
  - destruct (tasknodes st !! _) as [tn|]; simpl; auto.
    destruct (tgnodes st !! _) as [g|]; simpl; auto.
    destruct (bool_decide _); rewrite Hu; reflexivity.
Qed.

Lemma TasksAppend_eq a ns ts st ts0 :
  namespaces st !! a = Some ns -> tasksets st !! owner ns = Some ts ->
  TasksAppend a ts0 st = Some (ts0 ++ (map_to_list (tids ns)).*1, st).
Proof.
  intros Hns Hts.
  apply (with_rlock (fun ns => ts0 ++ (map_to_list (tids ns)).*1) a ns ts st Hns Hts).
Qed.

Lemma ThreadGroupsAppend_eq a ns ts st tgs0 :
  namespaces st !! a = Some ns -> tasksets st !! owner ns = Some ts ->
  ThreadGroupsAppend a tgs0 st = Some (tgs0 ++ (map_to_list (tgids ns)).*1, st).
Proof.
  intros Hns Hts.
  apply (with_rlock (fun ns => tgs0 ++ (map_to_list (tgids ns)).*1) a ns ts st Hns Hts).
Qed.

Lemma NumTasks_eq a ns ts st :
  namespaces st !! a = Some ns -> tasksets st !! owner ns = Some ts ->
  NumTasks a st = Some (size (tids ns), st).
Proof.
  intros Hns Hts.
  apply (with_rlock (fun ns => size (tids ns)) a ns ts st Hns Hts).
Qed.

Lemma elem_of_keys (m : gmap N Z) (k : N) :
  k ∈ (map_to_list m).*1 <-> is_Some (m !! k).
Proof.
  rewrite list_elem_of_fmap. split.
  - intros ([k' v] & -> & Hin). apply elem_of_map_to_list in Hin. eauto.
  - intros [v Hv]. exists (k, v). split; [reflexivity|].
    apply elem_of_map_to_list. exact Hv.
Qed.

Lemma read_nonzero (m : gmap N Z) (k : N) (z : Z) :
  read m k = z -> z <> 0 -> m !! k = Some z.
Proof.
  unfold read. destruct (m !! k) as [v|]; simpl; intros <- H; congruence.
Qed.

(** X9. In a store that has the invariants of the namespaces, the lookups
    of a namespace whose owner is set are inverse to each other: the task
    that [TaskWithID] finds for an ID has that ID by [IDOfTask], the ID
    that [IDOfTask] gives for a visible task leads back to the task, the ID
    that [IDOfThreadGroup] gives for a visible thread group leads back to
    the group by [ThreadGroupWithID], and a thread group that
    [ThreadGroupWithID] finds is the one whose leader [TaskWithID] finds
    under the same ID. *)
Theorem lookup_round_trip (st : Store) (a : N) (ns : PIDNamespace) (ts : TaskSet) :
  store_inv st ->
  namespaces st !! a = Some ns -> tasksets st !! owner ns = Some ts ->
  (forall tid t, TaskWithID a tid st = Some (t, st) -> t <> nilptr ->
     IDOfTask a t st = Some (tid, st)) /\
  (forall t tid, IDOfTask a t st = Some (tid, st) -> tid <> 0 ->
     TaskWithID a tid st = Some (t, st)) /\
  (forall g tid, IDOfThreadGroup a g st = Some (tid, st) -> tid <> 0 ->
     ThreadGroupWithID a tid st = Some (g, st)) /\
  (forall tid g, ThreadGroupWithID a tid st = Some (g, st) -> g <> nilptr ->
     exists gn, tgnodes st !! g = Some gn /\
       TaskWithID a tid st = Some (leader gn, st) /\
       IDOfTask a (leader gn) st = Some (tid, st)).
Proof.
  intros Hinv Hns Hts.
  pose proof (si_ns _ Hinv _ _ Hns) as [Hbij Hrange _ Htg].
  assert (forall tid t, default nilptr (tasks ns !! tid) = t -> t <> nilptr ->
            tasks ns !! tid = Some t) as Hdef.
  { intros tid t. destruct (tasks ns !! tid) as [t'|]; simpl; congruence. }
  split; [|split; [|split]].
  - intros tid t. rewrite (TaskWithID_eq _ _ _ _ _ Hns Hts).
    intros [= Ht] Hne. rewrite (IDOfTask_eq _ _ _ _ _ Hns Hts).
    apply Hdef in Ht; [|exact Hne]. apply Hbij in Ht.
    unfold read. rewrite Ht. reflexivity.
  - intros t tid. rewrite (IDOfTask_eq _ _ _ _ _ Hns Hts).
    intros [= Hr] Hne. rewrite (TaskWithID_eq _ _ _ _ _ Hns Hts).
    apply read_nonzero in Hr; [|exact Hne]. apply Hbij in Hr.
    rewrite Hr. reflexivity.
  - intros g tid. rewrite (IDOfThreadGroup_eq _ _ _ _ _ Hns Hts).
    intros [= Hr] Hne. apply read_nonzero in Hr; [|exact Hne].
    destruct (Htg _ _ Hr) as (gn & Hgn & Hl).
    apply Hbij in Hl. destruct (Hrange _ _ Hl) as [_ Hnn].
    destruct (si_leader _ Hinv _ _ Hgn) as (tn & Htn & Hg).
    rewrite (ThreadGroupWithID_eq _ _ _ _ _ Hns Hts), Hl. simpl.
    rewrite bool_decide_eq_false_2 by exact Hnn.
    rewrite Htn. simpl. rewrite Hg, Hgn. simpl.
    rewrite bool_decide_eq_false_2 by (intros Hc; apply Hc; reflexivity).
    reflexivity.
  - intros tid g. rewrite (ThreadGroupWithID_eq _ _ _ _ _ Hns Hts). simpl.
    destruct (tasks ns !! tid) as [t|] eqn:Et; simpl;
      [|intros [= <-] Hne; congruence].
    case_bool_decide as Hnil; [intros [= <-] Hne; congruence|].
    destruct (tasknodes st !! t) as [tn|] eqn:Etn; simpl; [|discriminate].
    destruct (tgnodes st !! tg tn) as [gn|] eqn:Egn; simpl; [|discriminate].
    case_bool_decide as Hlead; [intros [= <-] Hne; congruence|].
    intros [= <-] _. exists gn.
    assert (t = leader gn) as Hl by (destruct (decide (t = leader gn)); tauto).
    split; [exact Egn|]. rewrite <- Hl.
    rewrite (TaskWithID_eq _ _ _ _ _ Hns Hts), Et.
    rewrite (IDOfTask_eq _ _ _ _ _ Hns Hts).
    apply Hbij in Et. unfold read. rewrite Et. auto.
Qed.

(** X10. [TasksAppend] appends to its argument a list that holds each task
    that is visible in the namespace once and nothing else, whose length is
    what [NumTasks] returns; [ThreadGroupsAppend] does the same with the
    thread groups of [tgids]; [Tasks] and [ThreadGroups] are the calls on
    the empty list.  None of them changes the store.  In a store with the
    invariants of the namespaces no task of the list is nil and each has an
    ID of at least 1 by [IDOfTask]. *)
Theorem snapshots (st : Store) (a : N) (ns : PIDNamespace) (ts : TaskSet) :
  namespaces st !! a = Some ns -> tasksets st !! owner ns = Some ts ->
  (forall ts0, exists l,
     TasksAppend a ts0 st = Some (ts0 ++ l, st) /\
     (ts0 = [] -> Tasks a st = Some (l, st)) /\
     NoDup l /\
     (forall t, t ∈ l <-> is_Some (tids ns !! t)) /\
     NumTasks a st = Some (length l, st) /\
     (store_inv st -> forall t, t ∈ l ->
        t <> nilptr /\
        exists tid, 1 <= tid /\ IDOfTask a t st = Some (tid, st))) /\
  (forall tgs0, exists l,
     ThreadGroupsAppend a tgs0 st = Some (tgs0 ++ l, st) /\
     (tgs0 = [] -> ThreadGroups a st = Some (l, st)) /\
     NoDup l /\
     (forall g, g ∈ l <-> is_Some (tgids ns !! g))).
Proof.
  intros Hns Hts. split.
  - intros ts0. exists (map_to_list (tids ns)).*1.
    split; [apply (TasksAppend_eq _ _ _ _ _ Hns Hts)|].
    split; [intros _; exact (TasksAppend_eq a ns ts st [] Hns Hts)|].
    split; [apply NoDup_fst_map_to_list|].
    split; [apply elem_of_keys|].
    split; [rewrite length_fmap, length_map_to_list;
            apply (NumTasks_eq _ _ _ _ Hns Hts)|].
    intros Hinv t Hin. apply elem_of_keys in Hin. destruct Hin as [tid Htid].
    pose proof (si_ns _ Hinv _ _ Hns) as [Hbij Hrange _ _].
    apply Hbij in Htid. destruct (Hrange _ _ Htid) as [[Hlo _] Hnn].
    split; [exact Hnn|]. exists tid. split; [exact Hlo|].
    rewrite (IDOfTask_eq _ _ _ _ _ Hns Hts). apply Hbij in Htid.
    unfold read. rewrite Htid. reflexivity.
  - intros tgs0. exists (map_to_list (tgids ns)).*1.
    split; [apply (ThreadGroupsAppend_eq _ _ _ _ _ Hns Hts)|].
    split; [intros _; exact (ThreadGroupsAppend_eq a ns ts st [] Hns Hts)|].
    split; [apply NoDup_fst_map_to_list | apply elem_of_keys].
Qed.

Lemma foldl_count {A} (P : A -> Prop) `{!forall x, Decision (P x)} (l : list A) (k : nat) :
  foldl (fun n t => if bool_decide (P t) then S n else n) k l
    = (k + length (filter P l))%nat.
Proof.
  revert k. induction l as [|x l IH]; intros k; simpl; [lia|].
  rewrite IH, filter_cons. case_bool_decide; destruct (decide (P x)); simpl;
    try tauto; lia.
Qed.

Lemma filter_all {A} (P : A -> Prop) `{!forall x, Decision (P x)} (l : list A) :
  (forall x, x ∈ l -> P x) -> length (filter P l) = length l.
Proof.
  induction l as [|x l IH]; intros Hall; [reflexivity|].
  rewrite filter_cons. destruct (decide (P x)) as [|Hn].
  - simpl. f_equal. apply IH. intros y Hy. apply Hall. right. exact Hy.
  - destruct Hn. apply Hall. left.
Qed.

(** X11. [NumTasksPerContainer] counts the visible tasks whose container
    ID is [cid]: its result is at most what [NumTasks] returns, it is 0
    exactly when no visible task belongs to the container, and it is the
    number of all tasks exactly when every visible task does; the store is
    unchanged. *)
Theorem NumTasksPerContainer_count (ContainerID : N -> string) (st : Store)
    (a : N) (ns : PIDNamespace) (ts : TaskSet) (cid : string) :
  namespaces st !! a = Some ns -> tasksets st !! owner ns = Some ts ->
  exists n total,
    NumTasksPerContainer ContainerID a cid st = Some (n, st) /\
    NumTasks a st = Some (total, st) /\
    (n <= total)%nat /\
    (n = 0%nat <->
     forall t, is_Some (tids ns !! t) -> ContainerID t <> cid) /\
    (n = total <->
     forall t, is_Some (tids ns !! t) -> ContainerID t = cid).
Proof.
  intros Hns Hts.
  set (l := (map_to_list (tids ns)).*1).
  exists (length (filter (fun t => ContainerID t = cid) l)), (length l).
  split.
  { unfold NumTasksPerContainer.
    rewrite (with_rlock
               (fun ns => foldl (fun tasks t =>
                                   if bool_decide (ContainerID t = cid)
                                   then S tasks else tasks) O
                                (map_to_list (tids ns)).*1) a ns ts st Hns Hts).
    rewrite (foldl_count (fun t => ContainerID t = cid)). reflexivity. }
  split.
  { unfold l. rewrite length_fmap, length_map_to_list.
    apply (NumTasks_eq _ _ _ _ Hns Hts). }
  split; [apply length_filter|].
  split.
  - rewrite length_zero_iff_nil. split.
    + intros Hnil t Hin Hc. apply elem_of_keys in Hin.
      assert (t ∈ filter (fun t => ContainerID t = cid) l) as Hf
        by (apply list_elem_of_filter; auto).
      rewrite Hnil in Hf. inversion Hf.
    + intros Hall. destruct (filter _ l) as [|t r] eqn:E; [reflexivity|].
      assert (t ∈ filter (fun t => ContainerID t = cid) l) as Hf
        by (rewrite E; left).
      apply list_elem_of_filter in Hf. destruct Hf as [Hc Hin].
      apply elem_of_keys in Hin. destruct (Hall _ Hin Hc).
  - split.
    + intros Hlen t Hin. apply elem_of_keys in Hin. fold l in Hin.
      destruct (decide (ContainerID t = cid)) as [|Hne]; [assumption|].
      pose proof (length_filter_lt (fun t => ContainerID t = cid) l t Hin Hne).
      lia.
    + intros Hall. apply filter_all. intros t Hin.
      apply Hall, elem_of_keys, Hin.
Qed.

(** X12. A namespace made by [NewChild] shares the task set of its parent,
    and so its root; it carries the user namespace it was given and an inode
    of type pid that is bound to it; no task and no thread group is
    visible in it; and what the parent holds is as before. *)
Theorem NewChild_lookups (st : Store) (a : N) (ns : PIDNamespace) (ts : TaskSet)
    (k : Kernel) (userns : N) :
  namespaces st !! a = Some ns -> tasksets st !! owner ns = Some ts ->
  exists p st',
    NewChild a k userns st = Some (p, st') /\ p <> a /\
    Root_ p st' = Some (Root ts, st') /\
    Root_ a st' = Some (Root ts, st') /\
    UserNamespace p st' = Some (userns, st') /\
    GetInode p st' = Some (Some (mkInode (nsfsMount k) p "pid"), st') /\
    NumTasks p st' = Some (0%nat, st') /\
    Tasks p st' = Some ([], st') /\
    ThreadGroups p st' = Some ([], st') /\
    (forall tid, TaskWithID p tid st' = Some (nilptr, st')) /\
    (forall tid, ThreadGroupWithID p tid st' = Some (nilptr, st')) /\
    (forall t, IDOfTask p t st' = Some (0, st')) /\
    (forall g, IDOfThreadGroup p g st' = Some (0, st')) /\
    (forall tid, TaskWithID a tid st'
                 = Some (default nilptr (tasks ns !! tid), st')) /\
    (forall t, IDOfTask a t st' = Some (read (tids ns) t, st')).
Proof.
  intros Hns Hts.
  destruct (alloc_fresh (namespaces st)) as [Hfresh _].
  set (p := alloc (namespaces st)) in *.
  set (newid := wrapU64 (lastPIDNSID st + 1)).
  set (child := mkPIDNamespace (owner ns) a userns newid 0
              ∅ ∅ ∅ ∅ ∅ ∅ ∅ false newPIDNamespaceData
              (Some (mkInode (nsfsMount k) p "pid"))).
  set (st' := mkStore (<[p := child]> (namespaces st)) (tasksets st)
                (tasknodes st) (tgnodes st) newid).
  assert (p <> a) as Hpa by congruence.
  assert (namespaces st' !! p = Some child) as Hp by apply lookup_insert_eq.
  assert (namespaces st' !! a = Some ns) as Ha
    by (simpl; rewrite lookup_insert_ne by exact Hpa; exact Hns).
  assert (tasksets st' !! owner child = Some ts) as Hpo by exact Hts.
  assert (tasksets st' !! owner ns = Some ts) as Hao by exact Hts.
  exists p, st'. split.
  { unfold NewChild, newPIDNamespace, InitInode. rewrite Hns. simpl.
    fold p. rewrite lookup_insert_eq. simpl.
    unfold set_namespaces, set_lastPIDNSID, set_inode, nsfs_NewInode, Type_.
    simpl. rewrite insert_insert_eq. reflexivity. }
  split; [exact Hpa|].
  split; [unfold Root_; rewrite Hp; simpl; rewrite Hts; reflexivity|].
  split; [unfold Root_; rewrite Ha; simpl; rewrite Hts; reflexivity|].
  split; [unfold UserNamespace; rewrite Hp; reflexivity|].
  split; [unfold GetInode; rewrite Hp; reflexivity|].
  split; [exact (NumTasks_eq _ _ _ _ Hp Hpo)|].
  split; [exact (TasksAppend_eq p child ts st' [] Hp Hpo)|].
  split; [exact (ThreadGroupsAppend_eq p child ts st' [] Hp Hpo)|].
  split; [intros tid; exact (TaskWithID_eq _ _ _ _ tid Hp Hpo)|].
  split; [intros tid; rewrite (ThreadGroupWithID_eq _ _ _ _ tid Hp Hpo);
          reflexivity|].
  split; [intros t; exact (IDOfTask_eq _ _ _ _ t Hp Hpo)|].
  split; [intros g; exact (IDOfThreadGroup_eq _ _ _ _ g Hp Hpo)|].
  split; [intros tid; exact (TaskWithID_eq _ _ _ _ tid Ha Hao)|].
  intros t; exact (IDOfTask_eq _ _ _ _ t Ha Hao).
Qed.

(** X13. [NewRootPIDNamespace] returns a namespace without owner: it has
    its user namespace and no inode, and every operation that takes the
    lock of the owner, and [Root], dereferences nil.  After [newTaskSet] on
    it the namespace is the root of its task set, the lookups return nil
    and 0, and it holds no task. *)
Theorem root_namespace_needs_owner (st : Store) (userns : N) :
  tasksets st !! nilptr = None ->
  exists a st1,
    NewRootPIDNamespace userns st = Some (a, st1) /\ a <> nilptr /\
    UserNamespace a st1 = Some (userns, st1) /\
    GetInode a st1 = Some (None, st1) /\
    (forall tid, TaskWithID a tid st1 = None) /\
    (forall tid, ThreadGroupWithID a tid st1 = None) /\
    (forall t, IDOfTask a t st1 = None) /\
    (forall ts0, TasksAppend a ts0 st1 = None) /\
    NumTasks a st1 = None /\
    Root_ a st1 = None /\
    exists ts st2,
      newTaskSet a st1 = Some (ts, st2) /\ ts <> nilptr /\
      Root_ a st2 = Some (a, st2) /\
      (forall tid, TaskWithID a tid st2 = Some (nilptr, st2)) /\
      (forall tid, ThreadGroupWithID a tid st2 = Some (nilptr, st2)) /\
      (forall t, IDOfTask a t st2 = Some (0, st2)) /\
      NumTasks a st2 = Some (0%nat, st2).
Proof.
  intros Hnil.
  destruct (alloc_fresh (namespaces st)) as [Hfresh Hnn].
  set (a := alloc (namespaces st)) in *.
  set (newid := wrapU64 (lastPIDNSID st + 1)).
  set (ns0 := mkPIDNamespace nilptr nilptr userns newid 0
              ∅ ∅ ∅ ∅ ∅ ∅ ∅ false newPIDNamespaceData None).
  set (st1 := mkStore (<[a := ns0]> (namespaces st)) (tasksets st)
                (tasknodes st) (tgnodes st) newid).
  assert (namespaces st1 !! a = Some ns0) as Ha by apply lookup_insert_eq.
  assert (RLock nilptr st1 = None) as Hl
    by (unfold RLock; simpl; rewrite Hnil; reflexivity).
  exists a, st1.
  split; [reflexivity|]. split; [exact Hnn|].
  split; [unfold UserNamespace; rewrite Ha; reflexivity|].
  split; [unfold GetInode; rewrite Ha; reflexivity|].
  split; [intros tid; unfold TaskWithID; rewrite Ha; simpl; rewrite Hl; reflexivity|].
  split; [intros tid; unfold ThreadGroupWithID; rewrite Ha; simpl; rewrite Hl;
          reflexivity|].
  split; [intros t; unfold IDOfTask; rewrite Ha; simpl; rewrite Hl; reflexivity|].
  split; [intros ts0; unfold TasksAppend; rewrite Ha; simpl; rewrite Hl; reflexivity|].
  split; [unfold NumTasks; rewrite Ha; simpl; rewrite Hl; reflexivity|].
  split; [unfold Root_; rewrite Ha; simpl; rewrite Hnil; reflexivity|].
  destruct (alloc_fresh (tasksets st1)) as [_ Htn].
  set (ts := alloc (tasksets st1)) in *.
  set (s := mkTaskSet (mkMutex 0) a).
  set (ns := set_owner ts ns0).
  set (st2 := set_namespaces <[a := ns]> (set_tasksets <[ts := s]> st1)).
  assert (namespaces st2 !! a = Some ns) as Ha2 by apply lookup_insert_eq.
  assert (tasksets st2 !! owner ns = Some s) as Ho2 by apply lookup_insert_eq.
  exists ts, st2.
  split; [unfold newTaskSet; fold ts; simpl; rewrite lookup_insert_eq; reflexivity|].
  split; [exact Htn|].
  split; [unfold Root_; rewrite Ha2; simpl; rewrite lookup_insert_eq; reflexivity|].
  split; [intros tid; exact (TaskWithID_eq _ _ _ _ tid Ha2 Ho2)|].
  split; [intros tid; rewrite (ThreadGroupWithID_eq _ _ _ _ tid Ha2 Ho2);
          reflexivity|].
  split; [intros t; exact (IDOfTask_eq _ _ _ _ t Ha2 Ho2)|].
  exact (NumTasks_eq _ _ _ _ Ha2 Ho2).
Qed.

(** ** The walks over a thread group *)

Lemma with_tg_rlock {A} (x : A) g gn ns ts st :
  tgnodes st !! g = Some gn -> namespaces st !! pidns gn = Some ns ->
  tasksets st !! owner ns = Some ts ->
  (gn ← tgnodes st !! g;
   ns ← namespaces st !! pidns gn;
   st ← RLock (owner ns) st;
   st ← RUnlock (owner ns) st;
   Some (x, st)) = Some (x, st).
Proof.
  intros Hg Hns Hts. rewrite Hg. simpl. rewrite Hns. simpl.
  destruct (RLock_RUnlock _ _ _ Hts) as (st1 & -> & Hu & _). simpl.
  rewrite Hu. reflexivity.
Qed.

Lemma foldl_length {A} (l : list A) (k : nat) :
  foldl (fun count _ => S count) k l = (k + length l)%nat.
Proof.
  revert k. induction l as [|x l IH]; intros k; simpl; [lia|]. rewrite IH. lia.
Qed.

Lemma foldl_omap {A B} (f : A -> option B) (l : list A) (acc : list B) :
  foldl (fun tasks t => match f t with
                        | Some i => tasks ++ [i]
                        | None => tasks
                        end) acc l = acc ++ omap f l.
Proof.
  revert acc. induction l as [|x l IH]; intros acc.
  - simpl. rewrite app_nil_r. reflexivity.
  - change (omap f (x :: l))
      with (match f x with Some y => y :: omap f l | None => omap f l end).
    cbn [foldl]. rewrite IH.
    destruct (f x); [rewrite <- app_assoc|]; reflexivity.
Qed.

Lemma length_omap_le {A B} (f : A -> option B) (l : list A) :
  (length (omap f l) <= length l)%nat.
Proof.
  induction l as [|x l IH]; [reflexivity|].
  change (omap f (x :: l))
    with (match f x with Some y => y :: omap f l | None => omap f l end).
  destruct (f x); simpl; lia.
Qed.

Lemma length_omap_all {A B} (f : A -> option B) (l : list A) :
  (forall x, x ∈ l -> is_Some (f x)) -> length (omap f l) = length l.
Proof.
  induction l as [|x l IH]; intros Hall; [reflexivity|].
  change (omap f (x :: l))
    with (match f x with Some y => y :: omap f l | None => omap f l end).
  destruct (Hall x) as [y ->]; [left|]. simpl. f_equal.
  apply IH. intros z Hz. apply Hall. right. exact Hz.
Qed.

(** X14. [Count] returns the number of tasks on the list of the thread
    group.  [MemberIDs] returns, in the order of the list, the IDs of those
    tasks of the group that are visible in the namespace it is given: never
    more IDs than [Count] tasks, and as many when every task of the group is
    visible there; tasks that are not visible are left out, they do not
    show as 0.  Both leave the store as it was.  In a store with the
    invariants of the namespaces every ID returned is at least 1. *)
Theorem MemberIDs_visible (st : Store) (g : N) (gn : threadGroupNode)
    (ns : PIDNamespace) (ts : TaskSet) (a : N) (target : PIDNamespace)
    (members : list N) :
  tgnodes st !! g = Some gn -> namespaces st !! pidns gn = Some ns ->
  tasksets st !! owner ns = Some ts -> namespaces st !! a = Some target ->
  exists ids,
    MemberIDs g members a st = Some (ids, st) /\
    Count g members st = Some (length members, st) /\
    ids = omap (fun t => tids target !! t) members /\
    (length ids <= length members)%nat /\
    (forall i, i ∈ ids <-> exists t, t ∈ members /\ tids target !! t = Some i) /\
    ((forall t, t ∈ members -> is_Some (tids target !! t)) ->
     length ids = length members) /\
    (store_inv st -> forall i, i ∈ ids -> 1 <= i).
Proof.
  intros Hg Hns Hts Ha.
  exists (omap (fun t => tids target !! t) members).
  split.
  { unfold MemberIDs. rewrite Hg. simpl. rewrite Hns. simpl.
    destruct (RLock_RUnlock _ _ _ Hts) as (st1 & -> & Hu & Hn & _). simpl.
    rewrite Hn, Ha. simpl. rewrite Hu. simpl.
    rewrite (foldl_omap (fun t => tids target !! t)). reflexivity. }
  split.
  { unfold Count. rewrite Hg. simpl. rewrite Hns. simpl.
    destruct (RLock_RUnlock _ _ _ Hts) as (st1 & -> & Hu & _). simpl.
    rewrite Hu. simpl. rewrite foldl_length. reflexivity. }
  split; [reflexivity|].
  split; [apply length_omap_le|].
  split; [intros i; apply list_elem_of_omap|].
  split; [apply length_omap_all|].
  intros Hinv i Hin. apply list_elem_of_omap in Hin. destruct Hin as (t & _ & Ht).
  pose proof (si_ns _ Hinv _ _ Ha) as [Hbij Hrange _ _].
  apply Hbij in Ht. destruct (Hrange _ _ Ht) as [[Hlo _] _]. exact Hlo.
Qed.

Lemma ForEachTask_loop_take {A} (f : N -> A -> bool * A) (members : list N) (x : A) :
  let step := fun x t => (f t x).2 in
  exists n,
    (n <= length members)%nat /\
    ForEachTask_loop f members x = foldl step x (take n members) /\
    (forall i t, members !! i = Some t -> (S i < n)%nat ->
       (f t (foldl step x (take i members))).1 = true) /\
    (forall t, members !! pred n = Some t -> (0 < n < length members)%nat ->
       (f t (foldl step x (take (pred n) members))).1 = false) /\
    (members <> [] -> (0 < n)%nat).
Proof.
  intros step. revert x. induction members as [|t ms IH]; intros x.
  - exists 0%nat. simpl.
    split; [lia|]. split; [reflexivity|]. split; [|split].
    + intros i t Hi. rewrite lookup_nil in Hi. discriminate.
    + intros t _ Hlt. lia.
    + congruence.
  - cbn [ForEachTask_loop]. destruct (f t x) as [b x'] eqn:E.
    assert (step x t = x') as Hstep by (unfold step; rewrite E; reflexivity).
    destruct b.
    + destruct (IH x') as (n & Hn & Hres & Htrue & Hfalse & Hpos).
      exists (S n). simpl. rewrite Hstep.
      split; [lia|]. split; [exact Hres|]. split; [|split].
      * intros [|i] u Hu Hlt; simpl in *.
        -- injection Hu as <-. rewrite E. reflexivity.
        -- rewrite Hstep. apply Htrue; [exact Hu | lia].
      * intros u Hu Hlt. destruct n as [|m].
        -- destruct ms as [|v ms']; [simpl in Hlt; lia|].
           assert (0 < 0)%nat by (apply Hpos; discriminate). lia.
        -- simpl in *. rewrite Hstep. apply Hfalse; [exact Hu | lia].
      * intros _. lia.
    + exists 1%nat. simpl. rewrite Hstep.
      split; [lia|]. split; [reflexivity|]. split; [|split].
      * intros i u _ Hlt. lia.
      * intros u [= <-] _. rewrite E. reflexivity.
      * intros _. lia.
Qed.

(** X15. [ForEachTask] applies [f] to the tasks of the group in the order
    of the list, each to the state the one before left, and stops after the
    first task on which [f] returns false: the tasks it has applied [f] to
    are a beginning of the list, [f] returned true on all of them but the
    last, and when it stopped before the end of the list [f] returned false
    on the last; on a list that is not empty [f] is applied at least once.
    The store is as before. *)
Theorem ForEachTask_breaks {A : Type} (f : N -> A -> bool * A) (st : Store)
    (g : N) (gn : threadGroupNode) (ns : PIDNamespace) (ts : TaskSet)
    (members : list N) (x : A) :
  tgnodes st !! g = Some gn -> namespaces st !! pidns gn = Some ns ->
  tasksets st !! owner ns = Some ts ->
  let step := fun x t => (f t x).2 in
  exists n,
    (n <= length members)%nat /\
    ForEachTask f g members x st = Some (foldl step x (take n members), st) /\
    (forall i t, members !! i = Some t -> (S i < n)%nat ->
       (f t (foldl step x (take i members))).1 = true) /\
    (forall t, members !! pred n = Some t -> (0 < n < length members)%nat ->
       (f t (foldl step x (take (pred n) members))).1 = false) /\
    (members <> [] -> (0 < n)%nat).
Proof.
  intros Hg Hns Hts step.
  destruct (ForEachTask_loop_take f members x) as (n & Hn & Hres & Ht & Hf & Hp).
  exists n. split; [exact Hn|]. split; [|auto].
  unfold ForEachTask. rewrite Hg. simpl. rewrite Hns. simpl.
  destruct (RLock_RUnlock _ _ _ Hts) as (st1 & -> & Hu & _). simpl.
  rewrite Hu. simpl. rewrite Hres. reflexivity.
Qed.

(** ** The walks over a task set *)

Lemma forEachThreadGroup_loop_calls {A} (f : N -> N -> A -> A) (st : Store)
    (gs : list N) (x : A) :
  (forall g, g ∈ gs -> is_Some (tgnodes st !! g)) ->
  forEachThreadGroup_loop f st gs x =
    Some (foldl (fun x c => f c.1 c.2 x) x
            ((fun g => (g, default nilptr (leader <$> tgnodes st !! g))) <$> gs)).
Proof.
  revert x. induction gs as [|g gs IH]; intros x Hall; simpl; [reflexivity|].
  destruct (Hall g) as [gn Hgn]; [left|]. rewrite Hgn. simpl.
  apply IH. intros g' Hg'. apply Hall. right. exact Hg'.
Qed.

Lemma forEachThreadGroup_loop_ext {A} (f : N -> N -> A -> A) (st st1 : Store)
    (gs : list N) (x : A) :
  tgnodes st1 = tgnodes st ->
  forEachThreadGroup_loop f st1 gs x = forEachThreadGroup_loop f st gs x.
Proof.
  intros Hg. revert x. induction gs as [|g gs IH]; intros x; simpl; [reflexivity|].
  rewrite Hg. destruct (tgnodes st !! g); simpl; [apply IH | reflexivity].
Qed.

(** X16. In a store with the invariants of the namespaces
    [ForEachThreadGroup] applies [f] once to each thread group of [tgids]
    of the root namespace, together with the leader of the group, and to
    nothing else, and releases the lock: the store is as before.  The
    leader it passes is a task of that group and is visible in the root
    namespace under the ID that [tgids] has for the group.
    [forEachTaskLocked] applies [f] once to each task that is visible in
    the root namespace. *)
Theorem ForEachThreadGroup_calls {A : Type} (f : N -> N -> A -> A)
    (h : N -> A -> A) (st : Store) (ts : N) (s : TaskSet) (root : PIDNamespace)
    (x : A) :
  store_inv st ->
  tasksets st !! ts = Some s -> namespaces st !! Root s = Some root ->
  (exists calls : list (N * N),
     ForEachThreadGroup f ts x st
       = Some (foldl (fun x c => f c.1 c.2 x) x calls, st) /\
     NoDup calls.*1 /\
     (forall g t, (g, t) ∈ calls <->
        is_Some (tgids root !! g) /\
        exists gn, tgnodes st !! g = Some gn /\ leader gn = t) /\
     (forall g t, (g, t) ∈ calls ->
        (exists tn, tasknodes st !! t = Some tn /\ tg tn = g) /\
        tids root !! t = tgids root !! g)) /\
  (exists l : list N,
     forEachTaskLocked h ts x st = Some (foldl (fun x t => h t x) x l) /\
     NoDup l /\
     (forall t, t ∈ l <-> is_Some (tids root !! t))).
Proof.
  intros Hinv Hts Hroot.
  pose proof (si_ns _ Hinv _ _ Hroot) as [_ _ _ Htg].
  set (gs := (map_to_list (tgids root)).*1).
  assert (forall g, g ∈ gs -> is_Some (tgnodes st !! g)) as Hall.
  { intros g Hin. apply elem_of_keys in Hin. destruct Hin as [tid Htid].
    destruct (Htg _ _ Htid) as (gn & Hgn & _). eauto. }
  set (calls := (fun g => (g, default nilptr (leader <$> tgnodes st !! g))) <$> gs).
  assert (calls.*1 = gs) as Hfst.
  { unfold calls. rewrite <- list_fmap_compose. apply list_fmap_id. }
  assert (forall g t, (g, t) ∈ calls <->
            is_Some (tgids root !! g) /\
            exists gn, tgnodes st !! g = Some gn /\ leader gn = t) as Hmem.
  { intros g t. unfold calls. rewrite list_elem_of_fmap. split.
    - intros (g' & [= -> ->] & Hin). split; [apply elem_of_keys, Hin|].
      destruct (Hall _ Hin) as [gn Hgn]. exists gn. rewrite Hgn. auto.
    - intros [Hin (gn & Hgn & <-)]. exists g. rewrite Hgn.
      split; [reflexivity | apply elem_of_keys, Hin]. }
  split.
  - exists calls. split; [|split; [|split]].
    + unfold ForEachThreadGroup.
      destruct (RLock_RUnlock _ _ _ Hts) as (st1 & Hl & Hu & Hn & _ & Hg & _).
      rewrite Hl. simpl.
      assert (forEachThreadGroupLocked f ts x st1
              = Some (foldl (fun x c => f c.1 c.2 x) x calls)) as ->.
      { unfold forEachThreadGroupLocked.
        unfold RLock in Hl. rewrite Hts in Hl. injection Hl as <-. simpl.
        rewrite lookup_insert_eq. simpl. rewrite Hroot. simpl.
        rewrite (forEachThreadGroup_loop_ext f st _ _ x Hg).
        apply (forEachThreadGroup_loop_calls f _ gs x Hall). }
      simpl. rewrite Hu. reflexivity.
    + rewrite Hfst. apply NoDup_fst_map_to_list.
    + exact Hmem.
    + intros g t Hin. apply Hmem in Hin. destruct Hin as [[tid Htid] (gn & Hgn & <-)].
      split; [exact (si_leader _ Hinv _ _ Hgn)|].
      destruct (Htg _ _ Htid) as (gn' & Hgn' & Hl). rewrite Htid.
      congruence.
  - exists (map_to_list (tids root)).*1.
    split; [unfold forEachTaskLocked; rewrite Hts; simpl; rewrite Hroot; reflexivity|].
    split; [apply NoDup_fst_map_to_list | apply elem_of_keys].
Qed.

(** ** The fields that do not change *)

(** X18. The operations of threads.go that write leave the namespaces that
    exist alone: [NewRootPIDNamespace] and [NewChild] put the new
    namespace at an address of its own and change no other; [InitInode]
    changes the inode of its namespace only; [newTaskSet] changes the owner
    of its namespace only, to the new task set.  So the parent, the user
    namespace, the ID and the maps of a namespace are the same after each
    of them. *)
Theorem namespaces_untouched (st : Store) (a : N) (ns : PIDNamespace) :
  namespaces st !! a = Some ns ->
  (forall us p st', NewRootPIDNamespace us st = Some (p, st') ->
     p <> a /\ namespaces st' !! a = Some ns) /\
  (forall b k us p st', NewChild b k us st = Some (p, st') ->
     p <> a /\ namespaces st' !! a = Some ns) /\
  (forall b k st', InitInode b k st = Some st' ->
     exists ns', namespaces st' !! a = Some ns' /\
       (b <> a -> ns' = ns) /\ set_inode (inode ns) ns' = ns) /\
  (forall b ts st', newTaskSet b st = Some (ts, st') ->
     exists ns', namespaces st' !! a = Some ns' /\
       (b <> a -> ns' = ns) /\ (b = a -> owner ns' = ts) /\
       set_owner (owner ns) ns' = ns).
Proof.
  intros Hns.
  destruct (alloc_fresh (namespaces st)) as [Hfresh _].
  assert (alloc (namespaces st) <> a) as Hpa by congruence.
  split; [|split; [|split]].
  - intros us p st'. unfold NewRootPIDNamespace, newPIDNamespace.
    intros [= <- <-]. simpl. split; [exact Hpa|].
    rewrite lookup_insert_ne by exact Hpa. exact Hns.
  - intros b k us p st'. unfold NewChild, newPIDNamespace, InitInode.
    destruct (namespaces st !! b) as [nb|]; simpl; [|discriminate].
    rewrite lookup_insert_eq. simpl. intros [= <- <-]. simpl.
    split; [exact Hpa|].
    rewrite !lookup_insert_ne by exact Hpa. exact Hns.
  - intros b k st'. unfold InitInode.
    destruct (namespaces st !! b) as [nb|] eqn:Hb; simpl; [|discriminate].
    intros [= <-]. simpl. destruct (decide (b = a)) as [->|Hne].
    + rewrite lookup_insert_eq. eexists. split; [reflexivity|].
      assert (nb = ns) as -> by congruence.
      split; [congruence|]. destruct ns. reflexivity.
    + rewrite lookup_insert_ne by exact Hne. exists ns.
      split; [exact Hns|]. split; [reflexivity|]. destruct ns. reflexivity.
  - intros b ts st'. unfold newTaskSet. simpl.
    destruct (namespaces st !! b) as [nb|] eqn:Hb; simpl; [|discriminate].
    intros [= <- <-]. simpl. destruct (decide (b = a)) as [->|Hne].
    + rewrite lookup_insert_eq. eexists. split; [reflexivity|].
      assert (nb = ns) as -> by congruence.
      split; [congruence|]. split; [reflexivity|]. destruct ns. reflexivity.
    + rewrite lookup_insert_ne by exact Hne. exists ns.
      split; [exact Hns|]. split; [reflexivity|]. split; [congruence|].
      destruct ns. reflexivity.
Qed.

End NamespaceExtras.

(** * The host file descriptors of a dentry (dentry_impl.go) *)

Section GoferProofs.
Import gofer.

(** [closeHostFDs], computed. *)
Lemma closeHostFDs_eq (d : dentry) (closed : list Z) :
  closeHostFDs d closed =
    (mkDentry (-1) (-1) (-1)
       (match impl d with
        | directfsDentry c =>
            directfsDentry (if bool_decide (c >= 0) then -1 else c)
        | i => i
        end),
     (match impl d with
      | directfsDentry c => if bool_decide (c >= 0) then [c] else []
      | _ => []
      end) ++
     (if bool_decide (writeFD d >= 0) && bool_decide (readFD d <> writeFD d)
      then [writeFD d] else []) ++
     (if bool_decide (readFD d >= 0) then [readFD d] else []) ++ closed).
Proof.
  destruct d as [r w m [|c|]]; unfold closeHostFDs; simpl;
    repeat case_bool_decide; reflexivity.
Qed.

(** X17. [closeHostFDs] hands to [unix.Close] exactly the descriptors
    among [readFD], [writeFD] and the [controlFD] of a directfs dentry that
    are not negative, a descriptor that is both [readFD] and [writeFD] only
    once; [mmapFD] is not closed for itself.  Afterwards the three
    descriptors of the dentry are -1 and the control descriptor is
    negative, the kind of the dentry is as before, and a second call closes
    nothing and changes nothing. *)
Theorem closeHostFDs_closes (d : dentry) (closed : list Z) :
  exists new,
    (closeHostFDs d closed).2 = new ++ closed /\
    (forall fd, fd ∈ new <->
       0 <= fd /\
       (fd = readFD d \/ fd = writeFD d \/ impl d = directfsDentry fd)) /\
    ((forall c, impl d = directfsDentry c -> c <> readFD d /\ c <> writeFD d) ->
     NoDup new) /\
    readFD (closeHostFDs d closed).1 = -1 /\
    writeFD (closeHostFDs d closed).1 = -1 /\
    mmapFD (closeHostFDs d closed).1 = -1 /\
    (forall c, impl (closeHostFDs d closed).1 = directfsDentry c -> c < 0) /\
    (impl (closeHostFDs d closed).1 = impl d \/
     exists c, 0 <= c /\ impl d = directfsDentry c /\
               impl (closeHostFDs d closed).1 = directfsDentry (-1)) /\
    closeHostFDs (closeHostFDs d closed).1 (closeHostFDs d closed).2
      = closeHostFDs d closed.
Proof.
  rewrite (closeHostFDs_eq d closed). cbn [fst snd].
  destruct d as [r w m i]. cbn [readFD writeFD mmapFD impl].
  exists ((match i with
           | directfsDentry c => if bool_decide (c >= 0) then [c] else []
           | _ => []
           end) ++
          (if bool_decide (w >= 0) && bool_decide (r <> w) then [w] else []) ++
          (if bool_decide (r >= 0) then [r] else [])).
  split; [rewrite <- !app_assoc; reflexivity|].
  split.
  { intros fd. rewrite !elem_of_app.
    destruct i as [|c|]; repeat case_bool_decide; simpl;
      rewrite ?elem_of_cons, ?elem_of_nil;
      intuition (subst; try lia; try congruence;
                 try match goal with
                     | H : directfsDentry _ = directfsDentry _ |- _ =>
                         injection H as ->; lia
                     end). }
  split.
  { intros Hd.
    destruct i as [|c|]; [| destruct (Hd c eq_refl) |];
      repeat case_bool_decide; simpl; repeat constructor;
      rewrite ?elem_of_cons, ?elem_of_nil; intuition congruence. }
  split; [reflexivity|]. split; [reflexivity|]. split; [reflexivity|].
  split.
  { intros c'. destruct i as [|c|]; try discriminate.
    case_bool_decide; intros [= <-]; lia. }
  split.
  { destruct i as [|c|]; auto. case_bool_decide; auto.
    right. exists c. split; [lia | auto]. }
  rewrite closeHostFDs_eq. cbn [readFD writeFD mmapFD impl].
  destruct i as [|c|]; simpl; try reflexivity.
  destruct (decide (c >= 0)) as [Hc|Hc].
  - rewrite (bool_decide_eq_true_2 _ Hc).
    rewrite bool_decide_eq_false_2 by lia. reflexivity.
  - rewrite !(bool_decide_eq_false_2 _ Hc). reflexivity.
Qed.

End GoferProofs.

(** ** Further runs of the namespace operations *)

Section NamespaceExtraRuns.
Import threads.

Lemma store1_inv : store_inv store1.
Proof. apply reachable_inv. exists history1. vm_compute. reflexivity. Qed.

(** Task 1 has the ID 1 in the child namespace. *)
Lemma lookup_round_trip_witness :
  store_inv store1 /\
  namespaces store1 !! 2%N = Some child1 /\
  tasksets store1 !! owner child1 = Some taskset1 /\
  TaskWithID 2 1 store1 = Some (1%N, store1) /\
  1%N <> nilptr /\
  IDOfTask 2 1%N store1 = Some (1, store1).
Proof.
  assert (namespaces store1 !! 2%N = Some child1) as H1 by (vm_compute; reflexivity).
  assert (tasksets store1 !! owner child1 = Some taskset1) as H2
    by (vm_compute; reflexivity).
  assert (TaskWithID 2 1 store1 = Some (1%N, store1)) as H3
    by (vm_compute; reflexivity).
  assert (1%N <> nilptr) as H4 by discriminate.
  split; [exact store1_inv|]. split; [exact H1|]. split; [exact H2|].
  split; [exact H3|]. split; [exact H4|].
  exact (proj1 (lookup_round_trip store1 2 child1 taskset1 store1_inv H1 H2)
           1 1%N H3 H4).
Defined.

(** The two tasks of the child namespace. *)
Lemma snapshots_witness :
  namespaces store1 !! 2%N = Some child1 /\
  tasksets store1 !! owner child1 = Some taskset1 /\
  exists l,
    TasksAppend 2 [5%N] store1 = Some ([5%N] ++ l, store1) /\
    NoDup l /\
    NumTasks 2 store1 = Some (length l, store1).
Proof.
  assert (namespaces store1 !! 2%N = Some child1) as H1 by (vm_compute; reflexivity).
  assert (tasksets store1 !! owner child1 = Some taskset1) as H2
    by (vm_compute; reflexivity).
  split; [exact H1|]. split; [exact H2|].
  destruct (proj1 (snapshots store1 2 child1 taskset1 H1 H2) [5%N])
    as (l & Ha & _ & Hnd & _ & Hn & _).
  exists l. split; [exact Ha|]. split; [exact Hnd | exact Hn].
Defined.

(** Task 1 runs in container a, every other task in container b. *)
Lemma NumTasksPerContainer_count_witness :
  namespaces store1 !! 2%N = Some child1 /\
  tasksets store1 !! owner child1 = Some taskset1 /\
  exists n total,
    NumTasksPerContainer (fun t => if (t =? 1)%N then "a" else "b") 2 "a" store1
      = Some (n, store1) /\
    NumTasks 2 store1 = Some (total, store1) /\
    (n <= total)%nat.
Proof.
  assert (namespaces store1 !! 2%N = Some child1) as H1 by (vm_compute; reflexivity).
  assert (tasksets store1 !! owner child1 = Some taskset1) as H2
    by (vm_compute; reflexivity).
  split; [exact H1|]. split; [exact H2|].
  destruct (NumTasksPerContainer_count (fun t => if (t =? 1)%N then "a" else "b")
              store1 2 child1 taskset1 "a" H1 H2)
    as (n & total & Hc & Hn & Hle & _).
  exists n, total. split; [exact Hc|]. split; [exact Hn | exact Hle].
Defined.

(** A child of the child namespace. *)
Lemma NewChild_lookups_witness :
  namespaces store1 !! 2%N = Some child1 /\
  tasksets store1 !! owner child1 = Some taskset1 /\
  exists p st',
    NewChild 2 (mkKernel 9) 8 store1 = Some (p, st') /\
    Root_ p st' = Some (Root taskset1, st') /\
    NumTasks p st' = Some (0%nat, st').
Proof.
  assert (namespaces store1 !! 2%N = Some child1) as H1 by (vm_compute; reflexivity).
  assert (tasksets store1 !! owner child1 = Some taskset1) as H2
    by (vm_compute; reflexivity).
  split; [exact H1|]. split; [exact H2|].
  destruct (NewChild_lookups store1 2 child1 taskset1 (mkKernel 9) 8 H1 H2)
    as (p & st' & Hc & _ & Hr & _ & _ & _ & Hn & _).
  exists p, st'. split; [exact Hc|]. split; [exact Hr | exact Hn].
Defined.

(** The first namespace of a store. *)
Lemma root_namespace_needs_owner_witness :
  tasksets (@empty_store no_data) !! nilptr = None /\
  exists a st1,
    NewRootPIDNamespace 7 (@empty_store no_data) = Some (a, st1) /\
    Root_ a st1 = None /\
    exists ts st2, newTaskSet a st1 = Some (ts, st2) /\ Root_ a st2 = Some (a, st2).
Proof.
  assert (tasksets (@empty_store no_data) !! nilptr = None) as H
    by (vm_compute; reflexivity).
  split; [exact H|].
  destruct (root_namespace_needs_owner (@empty_store no_data) 7 H)
    as (a & st1 & Hn & _ & _ & _ & _ & _ & _ & _ & _ & Hr & ts & st2 & Ht & _ & Hr2 & _).
  exists a, st1. split; [exact Hn|]. split; [exact Hr|].
  exists ts, st2. split; [exact Ht | exact Hr2].
Defined.

(** The thread group of [store1], seen from the root namespace, where only
    its leader is visible. *)
Lemma MemberIDs_visible_witness :
  tgnodes store1 !! 1%N = Some (mkThreadGroupNode 2 1) /\
  namespaces store1 !! 2%N = Some child1 /\
  tasksets store1 !! owner child1 = Some taskset1 /\
  exists root ids,
    namespaces store1 !! 1%N = Some root /\
    MemberIDs 1 [1%N; 2%N] 1 store1 = Some (ids, store1) /\
    Count 1 [1%N; 2%N] store1 = Some (2%nat, store1) /\
    (length ids <= 2)%nat.
Proof.
  assert (tgnodes store1 !! 1%N = Some (mkThreadGroupNode 2 1)) as H0
    by (vm_compute; reflexivity).
  assert (namespaces store1 !! 2%N = Some child1) as H1 by (vm_compute; reflexivity).
  assert (tasksets store1 !! owner child1 = Some taskset1) as H2
    by (vm_compute; reflexivity).
  pose (root := ltac:(let t := eval vm_compute in
                        (default child1 (namespaces store1 !! 1%N)) in exact t)).
  assert (namespaces store1 !! 1%N = Some root) as H3 by (vm_compute; reflexivity).
  split; [exact H0|]. split; [exact H1|]. split; [exact H2|].
  destruct (MemberIDs_visible store1 1 (mkThreadGroupNode 2 1) child1 taskset1
              1 root [1%N; 2%N] H0 H1 H2 H3)
    as (ids & Hm & Hc & _ & Hle & _).
  exists root, ids. split; [exact H3|]. split; [exact Hm|].
  split; [exact Hc | exact Hle].
Defined.

(** A callback that goes on after task 1 only, over three tasks. *)
Lemma ForEachTask_breaks_witness :
  tgnodes store1 !! 1%N = Some (mkThreadGroupNode 2 1) /\
  namespaces store1 !! 2%N = Some child1 /\
  tasksets store1 !! owner child1 = Some taskset1 /\
  exists n,
    (n <= 3)%nat /\
    ForEachTask (fun t (x : list N) => ((t =? 1)%N, t :: x)) 1 [1%N; 2%N; 3%N]
      [] store1
      = Some (foldl (fun x t => t :: x) [] (take n [1%N; 2%N; 3%N]), store1).
Proof.
  assert (tgnodes store1 !! 1%N = Some (mkThreadGroupNode 2 1)) as H0
    by (vm_compute; reflexivity).
  assert (namespaces store1 !! 2%N = Some child1) as H1 by (vm_compute; reflexivity).
  assert (tasksets store1 !! owner child1 = Some taskset1) as H2
    by (vm_compute; reflexivity).
  split; [exact H0|]. split; [exact H1|]. split; [exact H2|].
  destruct (ForEachTask_breaks (fun t (x : list N) => ((t =? 1)%N, t :: x))
              store1 1 (mkThreadGroupNode 2 1) child1 taskset1 [1%N; 2%N; 3%N] []
              H0 H1 H2)
    as (n & Hn & Hr & _).
  exists n. split; [exact Hn | exact Hr].
Defined.

(** The thread groups of the task set of [store1]. *)
Lemma ForEachThreadGroup_calls_witness :
  store_inv store1 /\
  tasksets store1 !! 1%N = Some taskset1 /\
  exists root calls,
    namespaces store1 !! Root taskset1 = Some root /\
    ForEachThreadGroup (fun g t (x : list (N * N)) => (g, t) :: x) 1 [] store1
      = Some (foldl (fun x c => (c.1, c.2) :: x) [] calls, store1) /\
    NoDup calls.*1.
Proof.
  assert (tasksets store1 !! 1%N = Some taskset1) as H1 by (vm_compute; reflexivity).
  pose (root := ltac:(let t := eval vm_compute in
                        (default child1 (namespaces store1 !! Root taskset1))
                      in exact t)).
  assert (namespaces store1 !! Root taskset1 = Some root) as H2
    by (vm_compute; reflexivity).
  split; [exact store1_inv|]. split; [exact H1|].
  destruct (proj1 (ForEachThreadGroup_calls
                     (fun g t (x : list (N * N)) => (g, t) :: x)
                     (fun t (x : list (N * N)) => x)
                     store1 1 taskset1 root [] store1_inv H1 H2))
    as (calls & Hc & Hnd & _).
  exists root, calls. split; [exact H2|]. split; [exact Hc | exact Hnd].
Defined.

(** A further root namespace beside the child namespace of [store1]. *)
Lemma namespaces_untouched_witness :
  namespaces store1 !! 2%N = Some child1 /\
  exists p st',
    NewRootPIDNamespace 7 store1 = Some (p, st') /\
    p <> 2%N /\ namespaces st' !! 2%N = Some child1.
Proof.
  assert (namespaces store1 !! 2%N = Some child1) as H1 by (vm_compute; reflexivity).
  split; [exact H1|].
  pose (r := ltac:(let t := eval vm_compute in
                     (default (0%N, store1) (NewRootPIDNamespace 7 store1))
                   in exact t)).
  assert (NewRootPIDNamespace 7 store1 = Some (r.1, r.2)) as H2
    by (vm_compute; reflexivity).
  exists r.1, r.2. split; [exact H2|].
  exact (proj1 (namespaces_untouched store1 2 child1 H1) 7%N r.1 r.2 H2).
Defined.

End NamespaceExtraRuns.
